(** * load_problems.py: the question normalizer and the batch generator

    A shallow embedding of [src/load_problems.py] and the properties of its
    text sanitizer, answer sanitizer and orchestration loop.

    - Python strings are sequences of Unicode code points, so a string is a
      list of code points here; the character classes ([str.strip], [\s],
      [\d]) follow CPython's tables.
    - [str.replace] and [re.sub] are one scanning function applied to the
      matcher of each pattern; [re.fullmatch] is a matcher of the whole
      string.  The matchers are shown to accept the languages of their
      patterns.
    - A Python float is a binary64 value of the standard library's
      [SpecFloat]; [float(s)] and [int / int] are the correctly rounded
      value of a fraction of integers, and [str(x)] is the shortest decimal
      that reads back as [x].
    - A call that may raise returns an [outcome]; the completion service and
      the procedural generators are parameters of [generate_questions] that
      give the outcome of each call.
    - Python integers are unbounded.  [int(s)] has the interpreter's default
      limit of 4300 digits on the string it reads; an integer given to the
      program as an object (a count, a number returned by a generator) is
      one that [str] writes, of at most that many digits.
    - The prompt of a request is built by [str.format], which is modelled
      for keyword arguments and plain replacement fields. *)

From Stdlib Require Import List NArith ZArith Bool Lia String Ascii.
From Stdlib Require Import Floats.SpecFloat.
Import ListNotations.

Set Implicit Arguments.
Set Warnings "-register-all".

(** ** Strings *)

Module Str.

Definition char := N.
Definition str := list char.

(** An ASCII literal as a Python string. *)
Definition lit (s : string) : str :=
  List.map N_of_ascii (list_ascii_of_string s).

Definition c_dollar : char := 36%N.
Definition c_plus : char := 43%N.
Definition c_comma : char := 44%N.
Definition c_minus : char := 45%N.
Definition c_dot : char := 46%N.
Definition c_slash : char := 47%N.
Definition c_zero : char := 48%N.
Definition c_equals : char := 61%N.
Definition c_backslash : char := 92%N.
Definition c_space : char := 32%N.
(** U+00D7 MULTIPLICATION SIGN and U+00F7 DIVISION SIGN. *)
Definition c_times : char := 215%N.
Definition c_div : char := 247%N.
(** U+2212 MINUS SIGN. *)
Definition c_uminus : char := 8722%N.

Definition in_range (lo hi c : N) : bool := ((lo <=? c) && (c <=? hi))%N.

(** [Py_UNICODE_ISSPACE]: the class used by [str.strip] and by [\s]. *)
Definition is_space (c : char) : bool :=
  in_range 9 13 c || in_range 28 32 c || (c =? 133)%N || (c =? 160)%N
  || (c =? 5760)%N || in_range 8192 8202 c || (c =? 8232)%N || (c =? 8233)%N
  || (c =? 8239)%N || (c =? 8287)%N || (c =? 12288)%N.

(** First code point of every block of ten decimal digits (general category
    Nd, Unicode 15.0): the class [\d] of a [str] pattern, and the characters
    [int] and [float] read as digits. *)
Definition digit_zeros : list N :=
  [48; 1632; 1776; 1984; 2406; 2534; 2662; 2790; 2918; 3046; 3174; 3302;
   3430; 3558; 3664; 3792; 3872; 4160; 4240; 6112; 6160; 6470; 6608; 6784;
   6800; 6992; 7088; 7232; 7248; 42528; 43216; 43264; 43472; 43504; 43600;
   44016; 65296; 66720; 68912; 69734; 69872; 69942; 70096; 70384; 70736;
   70864; 71248; 71360; 71472; 71904; 72016; 72784; 73040; 73120; 73552;
   92768; 92864; 93008; 120782; 120792; 120802; 120812; 120822; 123200;
   123632; 124144; 125264; 130032]%N.

Fixpoint digit_in (zs : list N) (c : char) : option N :=
  match zs with
  | [] => None
  | z :: zs' => if in_range z (z + 9) c then Some (c - z)%N else digit_in zs' c
  end.

(** [Py_UNICODE_TODECIMAL]. *)
Definition digit_value (c : char) : option N := digit_in digit_zeros c.

Definition is_digit (c : char) : bool :=
  match digit_value c with Some _ => true | None => false end.

(** *** Slicing helpers *)

Fixpoint take_while (p : char -> bool) (s : str) : str :=
  match s with
  | c :: s' => if p c then c :: take_while p s' else []
  | [] => []
  end.

Fixpoint drop_while (p : char -> bool) (s : str) : str :=
  match s with
  | c :: s' => if p c then drop_while p s' else s
  | [] => []
  end.

Fixpoint starts_with (p s : str) : bool :=
  match p, s with
  | [], _ => true
  | a :: p', b :: s' => (a =? b)%N && starts_with p' s'
  | _ :: _, [] => false
  end.

(** [str.lstrip()], [str.rstrip()], [str.strip()], and [str.rstrip(chars)]
    for a one-character [chars]. *)
Definition lstrip (s : str) : str := drop_while is_space s.
Definition rstrip (s : str) : str := rev (drop_while is_space (rev s)).
Definition strip (s : str) : str := lstrip (rstrip s).
Definition rstrip_char (c : char) (s : str) : str :=
  rev (drop_while (N.eqb c) (rev s)).

(** *** Leftmost, non-overlapping substitution

    [str.replace] and [re.sub] walk the string from the left; at a position
    where the pattern matches they emit the replacement and resume after the
    match, elsewhere they copy one character.  [m s] is the match attempted
    at the head of [s]: the replacement text and the number of characters
    consumed (at least one for every pattern of this program). *)
Fixpoint scan (m : str -> option (str * nat)) (skip : nat) (s : str) : str :=
  match s with
  | [] => []
  | c :: s' =>
      match skip with
      | S k => scan m k s'
      | O =>
          match m s with
          | Some (out, n) => out ++ scan m (Nat.pred n) s'
          | None => c :: scan m 0 s'
          end
      end
  end.

Definition sub (m : str -> option (str * nat)) (s : str) : str := scan m 0 s.

(** [s.replace(old, new)] for a non-empty [old]. *)
Definition m_literal (old new : str) (s : str) : option (str * nat) :=
  if starts_with old s then Some (new, List.length old) else None.

Definition replace (old new s : str) : str := sub (m_literal old new) s.

End Str.
Export Str.

(** ** The patterns of the text sanitizer *)

Module Pat.

(** The literal [p] at the head of [s]: what follows it. *)
Fixpoint m_lit (p s : str) : option str :=
  match p, s with
  | [], _ => Some s
  | a :: p', b :: s' => if (a =? b)%N then m_lit p' s' else None
  | _ :: _, [] => None
  end.

(** [-?\d+] at the head of [s]: the text matched and what follows it.  Both
    quantifiers are greedy, and every use is followed by a character that is
    neither a digit nor a minus sign (or by the end of the string), so no
    shorter match can succeed. *)
Definition m_int (s : str) : option (str * str) :=
  let '(sign, r) :=
    match s with
    | c :: r => if (c =? c_minus)%N then ([c_minus], r) else ([], s)
    | [] => ([], s)
    end in
  match take_while is_digit r with
  | [] => None
  | ds => Some (sign ++ ds, drop_while is_digit r)
  end.

(** [re.sub(r'\\frac\{(-?\d+)\}\{(-?\d+)\}', r'\1/\2', s)]. *)
Definition m_frac (s : str) : option (str * nat) :=
  match m_lit (lit "\frac{") s with
  | None => None
  | Some r1 =>
  match m_int r1 with
  | None => None
  | Some (num, r2) =>
  match m_lit (lit "}{") r2 with
  | None => None
  | Some r3 =>
  match m_int r3 with
  | None => None
  | Some (den, r4) =>
  match m_lit (lit "}") r4 with
  | None => None
  | Some r5 =>
      Some (num ++ [c_slash] ++ den, List.length s - List.length r5)
  end end end end end.

(** [re.sub(r'\\[^\s]*', '', s)]: a backslash and the longest run of
    non-whitespace characters after it. *)
Definition m_escape (s : str) : option (str * nat) :=
  match s with
  | c :: r =>
      if (c =? c_backslash)%N
      then Some ([], S (List.length (take_while (fun x => negb (is_space x)) r)))
      else None
  | [] => None
  end.

(** [re.sub(r'\s+', ' ', s)]: the longest run of whitespace. *)
Definition m_spaces (s : str) : option (str * nat) :=
  match take_while is_space s with
  | [] => None
  | ws => Some ([c_space], List.length ws)
  end.

End Pat.
Export Pat.

(** ** sanitize_text

    One definition per statement of the source, in the source's order. *)

Definition remove_dollars (s : str) : str := replace [c_dollar] [] s.

Definition rewrite_fractions (s : str) : str := sub m_frac s.

Definition rewrite_times (s : str) : str :=
  replace (lit "\\times") [c_times] (replace (lit "\times") [c_times] s).

Definition rewrite_div (s : str) : str :=
  replace (lit "\\div") [c_div] (replace (lit "\div") [c_div] s).

Definition rewrite_cdot (s : str) : str := replace (lit "\cdot") [c_times] s.

Definition remove_escapes (s : str) : str := sub m_escape s.

(** [s.rstrip().rstrip('=').strip()] *)
Definition strip_equals (s : str) : str :=
  strip (rstrip_char c_equals (rstrip s)).

Definition space_operators (s : str) : str :=
  replace [c_div] [c_space; c_div; c_space]
    (replace [c_times] [c_space; c_times; c_space]
       (replace [c_minus] [c_space; c_minus; c_space]
          (replace [c_plus] [c_space; c_plus; c_space] s))).

(** [re.sub(r'\s+', ' ', s).strip()] *)
Definition collapse_spaces (s : str) : str := strip (sub m_spaces s).

(** The body of [sanitize_text] after [str(s)]. *)
Definition sanitize_text_str (s0 : str) : str :=
  let s := strip s0 in
  let s := remove_dollars s in
  let s := rewrite_fractions s in
  let s := rewrite_times s in
  let s := rewrite_div s in
  let s := rewrite_cdot s in
  let s := remove_escapes s in
  let s := strip_equals s in
  let s := space_operators s in
  collapse_spaces s.


(** ** Exceptions *)

Module Exc.

(** The exceptions the program can meet.  [NonException] stands for the
    classes outside [Exception] ([KeyboardInterrupt], [SystemExit]), which an
    [except Exception] clause lets through. *)
Inductive exn :=
| ValueError | TypeError | AttributeError | OverflowError | ZeroDivisionError
| OtherException (name : string)
| NonException (name : string).

Definition is_Exception (e : exn) : bool :=
  match e with NonException _ => false | _ => true end.

Inductive outcome (A : Type) :=
| Ok (a : A)
| Raise (e : exn).
Arguments Ok {A} a.
Arguments Raise {A} e.

Definition bind {A B} (x : outcome A) (k : A -> outcome B) : outcome B :=
  match x with Ok a => k a | Raise e => Raise e end.

End Exc.
Export Exc.

Declare Scope exc_scope.
Delimit Scope exc_scope with exc.
Notation "x <- c ;; k" := (bind c (fun x => k))
  (at level 61, c at next level, right associativity) : exc_scope.
Open Scope exc_scope.

(** ** Python floats and integers

    A Python [float] is an IEEE 754 binary64 value: [spec_float] with a
    53-bit significand and exponents up to 1024. *)

Module Float.

Definition float := spec_float.
Definition prec : Z := 53.
Definition emax : Z := 1024.
(** Exponent of the least subnormal, [3 - emax - prec]. *)
Definition emin : Z := -1074.

Local Open Scope Z_scope.

(** [a / b < 2 ^ e], for positive [a] and [b]. *)
Definition below_pow2 (a b e : Z) : bool :=
  if 0 <=? e then a <? b * 2 ^ e else a * 2 ^ (- e) <? b.

(** The binary magnitude of the positive rational [a / b]: the [e] with
    [2 ^ (e - 1) <= a / b < 2 ^ e]. *)
Definition mag2 (a b : Z) : Z :=
  let e := Z.log2 a - Z.log2 b in
  if below_pow2 a b e then e else e + 1.

(** [n / d] rounded to the nearest integer, ties to even. *)
Definition round_div (n d : Z) : Z :=
  let q := n / d in
  match 2 * (n mod d) ?= d with
  | Lt => q
  | Eq => if Z.even q then q else q + 1
  | Gt => q + 1
  end.

(** The float of significand [m] and exponent [e], where [m <= 2 ^ prec]
    comes out of a rounding: a carry into bit [prec] is renormalised, and an
    exponent beyond the largest finite one gives an infinity. *)
Definition make_float (neg : bool) (m e : Z) : float :=
  match m with
  | Zpos p =>
      if m =? 2 ^ prec
      then if e + 1 <=? emax - prec
           then S754_finite neg (Z.to_pos (2 ^ (prec - 1))) (e + 1)
           else S754_infinity neg
      else if e <=? emax - prec
           then S754_finite neg p e
           else S754_infinity neg
  | _ => S754_zero neg
  end.

(** The rational [a / b] ([0 <= a], [0 < b]) rounded to the nearest binary64
    value, ties to even, with the sign [neg]: what a correctly rounded
    conversion or division returns. *)
Definition round_ratio (neg : bool) (a b : Z) : float :=
  if a =? 0 then S754_zero neg
  else
    let e := Z.max (mag2 a b - prec) emin in
    make_float neg (round_div (a * 2 ^ Z.max (- e) 0) (b * 2 ^ Z.max e 0)) e.



(** [a / b] on Python integers ([long_true_divide]): the correctly rounded
    quotient; the sign of a zero result is the sign of the exact quotient's
    operands. *)
Definition truediv (a b : Z) : outcome float :=
  if b =? 0 then Raise ZeroDivisionError
  else
    match round_ratio (xorb (a <? 0) (b <? 0)) (Z.abs a) (Z.abs b) with
    | S754_infinity _ => Raise OverflowError
    | f => Ok f
    end.

(** *** Decimal digits *)

Definition value_of_digits (ds : list N) : Z :=
  fold_left (fun acc d => 10 * acc + Z.of_N d) ds 0.

Fixpoint digits_aux (fuel : nat) (n : Z) (acc : list N) : list N :=
  match fuel with
  | O => acc
  | S f =>
      if n <? 10 then Z.to_N n :: acc
      else digits_aux f (n / 10) (Z.to_N (n mod 10) :: acc)
  end.

(** The decimal digits of [n >= 0], most significant first. *)
Definition digits (n : Z) : list N :=
  digits_aux (S (Z.to_nat (Z.log2 n))) n [].

Definition digit_char (d : N) : char := (c_zero + d)%N.

Definition show_digits (ds : list N) : str := List.map digit_char ds.

(** The digit values of a string of decimal digits of any script. *)
Definition digit_values (s : str) : list N :=
  List.map (fun c => match digit_value c with Some d => d | None => 0%N end) s.

(** An optional sign in front of [s]; [plus] tells whether [+] is
    accepted. *)
Definition split_sign (plus : bool) (s : str) : bool * str :=
  match s with
  | c :: r =>
      if (c =? c_minus)%N then (true, r)
      else if plus && (c =? c_plus)%N then (false, r)
      else (false, s)
  | [] => (false, s)
  end.

Definition all_digits (s : str) : bool :=
  match s with [] => false | _ => forallb is_digit s end.

(** The shape [[-+]?\d+(\.\d+)?]: the sign, the digits before the point and
    the digits after it. *)
Definition parse_plain (s : str) : option (bool * str * str) :=
  let '(neg, body) := split_sign true s in
  let ip := take_while is_digit body in
  match ip, drop_while is_digit body with
  | [], _ => None
  | _, [] => Some (neg, ip, [])
  | _, c :: fp =>
      if (c =? c_dot)%N && all_digits fp then Some (neg, ip, fp) else None
  end.

(** [float(s)] on a string of the shape [[-+]?\d+(\.\d+)?], the only shape
    the program converts: the decimal value, correctly rounded; a value too
    large for a float becomes an infinity.  Other strings, some of which
    Python's [float] accepts, are outside this model and raise here. *)
Definition py_float (s : str) : outcome float :=
  match parse_plain s with
  | Some (neg, ip, fp) =>
      Ok (round_ratio neg (value_of_digits (digit_values (ip ++ fp)))
            (10 ^ Z.of_nat (List.length fp)))
  | None => Raise ValueError
  end.

(** [sys.get_int_max_str_digits()], by default: the most digits [int] reads
    from a decimal string. *)
Definition max_str_digits : nat := 4300.

(** [int(s)] on a string of the shape [[-+]?\d+]; as for [py_float], other
    strings raise here.  A string of more than [max_str_digits] digits,
    leading zeros counted, the sign not, is a [ValueError]. *)
Definition py_int (s : str) : outcome Z :=
  let '(neg, body) := split_sign true s in
  if all_digits body
  then if (max_str_digits <? List.length body)%nat then Raise ValueError
       else Ok (if neg then - value_of_digits (digit_values body)
                else value_of_digits (digit_values body))
  else Raise ValueError.

(** *** [repr] of a float

    [repr(x)] is the shortest decimal string that [float] reads back as [x],
    the closest to [x] where several have that length
    ([float_repr_style = 'short']). *)

(** The positive rational [a / b] times [10 ^ k], as a fraction. *)
Definition scale10 (a b k : Z) : Z * Z :=
  if 0 <=? k then (a * 10 ^ k, b) else (a, b * 10 ^ (- k)).

(** The decimal magnitude of [a / b]: the [n] with
    [10 ^ (n - 1) <= a / b < 10 ^ n].  Every positive float is above
    [10 ^ (-324)], so [a / b * 10 ^ 324] has an integer part, of [n + 324]
    digits. *)
Definition mag10 (a b : Z) : Z :=
  Z.of_nat (List.length (digits (a * 10 ^ 324 / b))) - 324.

Definition float_eqb (x y : float) : bool :=
  match x, y with
  | S754_zero s1, S754_zero s2 => Bool.eqb s1 s2
  | S754_infinity s1, S754_infinity s2 => Bool.eqb s1 s2
  | S754_nan, S754_nan => true
  | S754_finite s1 m1 e1, S754_finite s2 m2 e2 =>
      Bool.eqb s1 s2 && (m1 =? m2)%positive && (e1 =? e2)
  | _, _ => false
  end.

(** The value [m * 2 ^ e] as a fraction. *)
Definition exact_fraction (m : positive) (e : Z) : Z * Z :=
  if 0 <=? e then (Zpos m * 2 ^ e, 1) else (Zpos m, 2 ^ (- e)).

(** The value [m * 2 ^ e] as a decimal [d * 10 ^ t]: its exact decimal
    expansion. *)
Definition exact_decimal (m : positive) (e : Z) : Z * Z :=
  if 0 <=? e then (Zpos m * 2 ^ e, 0) else (Zpos m * 5 ^ (- e), e).

(** Does the decimal [d * 10 ^ t] read back as the float [x]? *)
Definition reads_back (x : float) (neg : bool) (d t : Z) : bool :=
  let '(a, b) := scale10 d 1 t in
  float_eqb x (round_ratio neg a b).

(** The candidates for [x = a / b] among the multiples of [10 ^ t]: [x]
    rounded down and up.  The result is the one that reads back as [x], the
    nearer to [x] (ties to the even one) if both do. *)
Definition candidate (x : float) (neg : bool) (a b t : Z) : option Z :=
  let '(a', b') := scale10 a b (- t) in
  let lo := a' / b' in
  let hi := lo + 1 in
  match reads_back x neg lo t, reads_back x neg hi t with
  | true, true => Some (round_div a' b')
  | true, false => Some lo
  | false, true => Some hi
  | false, false => None
  end.

(** The search for the shortest decimal: one significant digit, then two,
    and so on ([t] goes down), until a candidate reads back.  The exact
    expansion [last] reads back, so the search ends there at the latest (in
    fact before the eighteenth digit). *)
Fixpoint shortest_from (fuel : nat) (x : float) (neg : bool) (a b t : Z)
  (last : Z * Z) : Z * Z :=
  match fuel with
  | O => last
  | S f =>
      match candidate x neg a b t with
      | Some d => (d, t)
      | None => shortest_from f x neg a b (t - 1) last
      end
  end.

(** [d] without its trailing zeros, and their number added to [j]. *)
Fixpoint strip_zeros (fuel : nat) (d j : Z) : Z * Z :=
  match fuel with
  | O => (d, j)
  | S f =>
      if (d mod 10 =? 0) && negb (d =? 0)
      then strip_zeros f (d / 10) (j + 1)
      else (d, j)
  end.

(** The digits and the decimal point position of the shortest decimal of the
    finite non-zero float [neg, m, e] (the [digits] and [decpt] of
    [_Py_dg_dtoa] in mode 0): the value is [0.d1d2...dk * 10 ^ decpt]. *)
Definition shortest_digits (neg : bool) (m : positive) (e : Z)
  : list N * Z :=
  let '(a, b) := exact_fraction m e in
  let n := mag10 a b in
  let last := exact_decimal m e in
  let '(d, t) :=
    shortest_from (Z.to_nat (n - 1 - snd last)) (S754_finite neg m e) neg
      a b (n - 1) last in
  let '(d', t') := strip_zeros (S (Z.to_nat (Z.log2 d))) d t in
  let ds := digits d' in
  (ds, t' + Z.of_nat (List.length ds)).

Definition zeros (n : Z) : str := repeat c_zero (Z.to_nat n).

(** The exponent of the scientific form, [printf]'s [%+.02d]. *)
Definition show_exponent (x : Z) : str :=
  let ds := show_digits (digits (Z.abs x)) in
  [if x <? 0 then c_minus else c_plus]
  ++ (if Z.abs x <? 10 then [c_zero] else []) ++ ds.

(** [format_float_short] for the code ['r'] with [Py_DTSF_ADD_DOT_0]. *)
Definition format_short (ds : list N) (decpt : Z) : str :=
  let k := Z.of_nat (List.length ds) in
  if (decpt <=? -4) || (16 <? decpt) then
    match show_digits ds with
    | [] => []
    | d :: [] => [d] ++ lit "e" ++ show_exponent (decpt - 1)
    | d :: rest => [d] ++ [c_dot] ++ rest ++ lit "e" ++ show_exponent (decpt - 1)
    end
  else if decpt <=? 0 then
    lit "0." ++ zeros (- decpt) ++ show_digits ds
  else if k <=? decpt then
    show_digits ds ++ zeros (decpt - k) ++ lit ".0"
  else
    show_digits (firstn (Z.to_nat decpt) ds) ++ [c_dot]
    ++ show_digits (skipn (Z.to_nat decpt) ds).

(** [repr(x)], which is also [str(x)]. *)
Definition float_repr (x : float) : str :=
  match x with
  | S754_nan => lit "nan"
  | S754_infinity neg => if neg then lit "-inf" else lit "inf"
  | S754_zero neg => if neg then lit "-0.0" else lit "0.0"
  | S754_finite neg m e =>
      let '(ds, decpt) := shortest_digits neg m e in
      (if neg then [c_minus] else []) ++ format_short ds decpt
  end.

(** [str(n)] for an integer. *)
Definition int_repr (n : Z) : str :=
  (if n <? 0 then [c_minus] else []) ++ show_digits (digits (Z.abs n)).

End Float.
Export Float.

(** ** The values handed to the normalizer

    The local generator returns a text and an answer that are strings or
    numbers; [None] stands for a missing one. *)

Inductive value :=
| VNone
| VStr (s : str)
| VInt (n : Z)
| VFloat (x : float).

(** [str(v)] *)
Definition py_str (v : value) : str :=
  match v with
  | VNone => lit "None"
  | VStr s => s
  | VInt n => int_repr n
  | VFloat x => float_repr x
  end.

Definition sanitize_text (s : value) : str :=
  match s with
  | VNone => []
  | _ => sanitize_text_str (py_str s)
  end.

(** ** sanitize_answer *)

(** [re.fullmatch(r'[-+]?\d+(\.\d+)?', s)] succeeds. *)
Definition fullmatch_plain (s : str) : bool :=
  match parse_plain s with Some _ => true | None => false end.

(** [re.fullmatch(r'(-?\d+)\s*/\s*(\d+)', s)]: the two groups.  The classes
    [\d] and [\s] and the slash are pairwise disjoint, so the greedy match is
    the only one. *)
Definition fullmatch_fraction (s : str) : option (str * str) :=
  match m_int s with
  | None => None
  | Some (g1, r) =>
      match drop_while is_space r with
      | c :: r' =>
          if (c =? c_slash)%N then
            let g2 := drop_while is_space r' in
            if all_digits g2 then Some (g1, g2) else None
          else None
      | [] => None
      end
  end.

(** The candidate string: [str(a).strip().replace("$", "")
    .replace(r'\,', '').replace('\u2212', '-')]. *)
Definition answer_candidate (a : value) : str :=
  replace [c_uminus] [c_minus]
    (replace (lit "\,") []
       (replace [c_dollar] [] (strip (py_str a)))).

Definition sanitize_answer (a : value) : outcome (option float) :=
  match a with
  | VNone => Ok None
  | _ =>
      let s := answer_candidate a in
      let s_plain := replace [c_comma] [] s in
      if fullmatch_plain s_plain then
        x <- py_float s_plain ;; Ok (Some x)
      else
        match fullmatch_fraction s with
        | Some (g1, g2) =>
            num <- py_int g1 ;;
            den <- py_int g2 ;;
            if (den =? 0)%Z then Ok None
            else x <- truediv num den ;; Ok (Some x)
        | None => Ok None
        end
  end.

(** ** Documents and question records

    What [json.loads] returns and what [json.dump] writes; an object keeps
    its members in insertion order. *)

Inductive json :=
| JNull
| JBool (b : bool)
| JInt (n : Z)
| JFloat (x : float)
| JStr (s : str)
| JArr (items : list json)
| JObj (members : list (str * json)).

Fixpoint str_eqb (a b : str) : bool :=
  match a, b with
  | [], [] => true
  | x :: a', y :: b' => (x =? y)%N && str_eqb a' b'
  | _, _ => false
  end.

(** [d.get(key, default)]; the keys of a [dict] are distinct. *)
Fixpoint dict_get (members : list (str * json)) (key : str) (default : json)
  : json :=
  match members with
  | [] => default
  | (k, v) :: rest => if str_eqb k key then v else dict_get rest key default
  end.

(** The items [list.extend] takes from an object: the elements of a list, the
    characters of a string, the keys of a dict; other documents are not
    iterable. *)
Definition py_iter (v : json) : outcome (list json) :=
  match v with
  | JArr items => Ok items
  | JStr s => Ok (List.map (fun c => JStr [c]) s)
  | JObj members => Ok (List.map (fun kv => JStr (fst kv)) members)
  | _ => Raise TypeError
  end.

(** ** The prompt of the remote source

    [fetch_questions_openai] starts with
    [PROMPT_TEMPLATE.format(count=count, operation=operation)], outside the
    [try].  [str.format] reads the format string from the left: literal text
    is copied, [{{] and [}}] stand for one brace, and a replacement field
    [{name!conversion:spec}] is looked up and formatted as soon as it has
    been read, before the rest of the string is looked at. *)

Module Format.

Definition c_quote : char := 34%N.
Definition c_bang : char := 33%N.
Definition c_colon : char := 58%N.
Definition c_lbracket : char := 91%N.
Definition c_rbracket : char := 93%N.
Definition c_lbrace : char := 123%N.
Definition c_rbrace : char := 125%N.
Definition nl : str := [10%N].

Definition KeyError : exn := OtherException "KeyError".
Definition IndexError : exn := OtherException "IndexError".

(** A replacement field as [parse_field] cuts it. *)
Record field := { name : str; conversion : option char; spec : str }.

(** The field name, read after the opening brace: it ends at the first [}],
    [:] or [!] outside square brackets.  The result is the name, the
    character that ended it and what follows; [None] is the [ValueError] for
    a [{] in the name or for the end of the string. *)
Fixpoint field_name (in_brackets : bool) (s : str) : option (str * char * str) :=
  match s with
  | [] => None
  | c :: r =>
      let more (b : bool) :=
        match field_name b r with
        | Some (n, t, r') => Some (c :: n, t, r')
        | None => None
        end in
      if in_brackets then more (negb (c =? c_rbracket)%N)
      else if (c =? c_lbrace)%N then None
      else if ((c =? c_rbrace) || (c =? c_colon) || (c =? c_bang))%N
           then Some ([], c, r)
           else more (c =? c_lbracket)%N
  end.

(** The format specification, read after the colon: it ends at the brace that
    closes the field, [depth] nested fields being open.  [None] is the
    [ValueError] for the end of the string. *)
Fixpoint format_spec (depth : nat) (s : str) : option (str * str) :=
  match s with
  | [] => None
  | c :: r =>
      let more (d : nat) :=
        match format_spec d r with
        | Some (sp, r') => Some (c :: sp, r')
        | None => None
        end in
      if (c =? c_lbrace)%N then more (S depth)
      else if (c =? c_rbrace)%N then
        match depth with
        | O => Some ([], r)
        | S d => more d
        end
      else more depth
  end.

(** [parse_field]: the field that starts after an opening brace and what
    follows its closing brace; [None] is a [ValueError]. *)
Definition parse_field (s : str) : option (field * str) :=
  match field_name false s with
  | None => None
  | Some (n, t, r) =>
      if (t =? c_rbrace)%N
      then Some ({| name := n; conversion := None; spec := [] |}, r)
      else if (t =? c_bang)%N then
        match r with
        | cv :: c :: r' =>
            if (c =? c_rbrace)%N
            then Some ({| name := n; conversion := Some cv; spec := [] |}, r')
            else if (c =? c_colon)%N then
              match format_spec 0 r' with
              | Some (sp, r'') =>
                  Some ({| name := n; conversion := Some cv; spec := sp |}, r'')
              | None => None
              end
            else None
        | _ => None
        end
      else
        match format_spec 0 r with
        | Some (sp, r') =>
            Some ({| name := n; conversion := None; spec := sp |}, r')
        | None => None
        end
  end.

(** The keyword arguments of the call. *)
Fixpoint lookup (kwargs : list (str * value)) (key : str) : option value :=
  match kwargs with
  | [] => None
  | (k, v) :: rest => if str_eqb k key then Some v else lookup rest key
  end.

Definition is_accessor (c : char) : bool := ((c =? c_dot) || (c =? c_lbracket))%N.

(** The text that replaces a field.  The part of the name before the first
    dot or opening bracket selects the argument: an empty or numeric one is
    an index into the positional arguments, of which the call has none
    ([IndexError], or [ValueError] for an index beyond [PY_SSIZE_T_MAX]),
    another one is a keyword ([KeyError] if the call does not pass it).  With no accessor, no
    conversion and an empty specification the argument is formatted as [str]
    does; the other forms are outside this model ([None]). *)
Definition render_field (kwargs : list (str * value)) (f : field)
  : option (outcome str) :=
  let first := take_while (fun c => negb (is_accessor c)) (name f) in
  let rest := drop_while (fun c => negb (is_accessor c)) (name f) in
  if forallb is_digit first then
    if (value_of_digits (digit_values first) <=? 2 ^ 63 - 1)%Z
    then Some (Raise IndexError)
    else Some (Raise ValueError)
  else
    match lookup kwargs first with
    | None => Some (Raise KeyError)
    | Some v =>
        match rest, conversion f, spec f with
        | [], None, [] => Some (Ok (py_str v))
        | _, _, _ => None
        end
    end.

Definition emit (text : str) (rest : option (outcome str)) : option (outcome str) :=
  match rest with
  | Some (Ok s) => Some (Ok (text ++ s))
  | other => other
  end.

(** The markup iterator; every turn consumes at least one character, so a
    [fuel] above the length of the string is never used up. *)
Fixpoint format_from (fuel : nat) (kwargs : list (str * value)) (s : str)
  : option (outcome str) :=
  match fuel with
  | O => None
  | S fuel' =>
      match s with
      | [] => Some (Ok [])
      | c :: r =>
          if (c =? c_rbrace)%N then
            match r with
            | c' :: r' =>
                if (c' =? c_rbrace)%N
                then emit [c_rbrace] (format_from fuel' kwargs r')
                else Some (Raise ValueError)
            | [] => Some (Raise ValueError)
            end
          else if (c =? c_lbrace)%N then
            match r with
            | [] => Some (Raise ValueError)
            | c' :: r' =>
                if (c' =? c_lbrace)%N
                then emit [c_lbrace] (format_from fuel' kwargs r')
                else
                  match parse_field r with
                  | None => Some (Raise ValueError)
                  | Some (f, rest) =>
                      match render_field kwargs f with
                      | Some (Ok text) =>
                          emit text (format_from fuel' kwargs rest)
                      | other => other
                      end
                  end
            end
          else emit [c] (format_from fuel' kwargs r)
      end
  end.

(** [template.format(...)], called with keyword arguments only. *)
Definition py_format (template : str) (kwargs : list (str * value))
  : option (outcome str) :=
  format_from (S (List.length template)) kwargs template.

End Format.
Export Format.

Definition quoted (s : string) : str := [c_quote] ++ lit s ++ [c_quote].

Definition PROMPT_TEMPLATE : str :=
  List.concat
    [nl;
     lit "You are a math problem generator for a Grade 3 educational game."; nl;
     lit "Generate {count} unique math word problems for {operation}, ";
     lit "where {operation} is one of: ";
     lit "Addition, Substraction, Multiplication, Division."; nl;
     nl;
     lit "Each problem must:"; nl;
     lit "- Be written as a short word problem suitable for Grade 3 students."; nl;
     lit "- Have a single correct numeric answer."; nl;
     lit "- Use simple, everyday contexts (candies, apples, toys, kids, etc.)."; nl;
     lit "- Keep numbers reasonable (within 1"; [8211%N]; lit "100)."; nl;
     lit "- No fractions, decimals, or negative results."; nl;
     lit "- Output in strict JSON with the format:"; nl;
     nl;
     lit "{"; nl;
     lit "  "; quoted "Questions"; lit ": ["; nl;
     lit "    {"; nl;
     lit "      "; quoted "Text"; lit ": "; quoted "<word problem text>"; lit ","; nl;
     lit "      "; quoted "Operation"; lit ": "; quoted "{operation}"; lit ","; nl;
     lit "      "; quoted "status"; lit ": "; quoted "Available"; lit ","; nl;
     lit "      "; quoted "Answer"; lit ": <numeric answer>"; nl;
     lit "    }"; nl;
     lit "  ]"; nl;
     lit "}"; nl].

(** ** The remote source *)

(** What one request to the completion service amounts to for the program:
    the request (or the access to the reply's content) raises; or
    [json.loads] raises on the content; or it returns a document. *)
Inductive reply :=
| CallRaises (e : exn)
| LoadsRaises (e : exn)
| Loaded (data : json).

(** The first statement of [fetch_questions_openai]:
    [PROMPT_TEMPLATE.format(count=count, operation=operation)].  [py_format]
    covers every form it meets in this template, so the last case is never
    taken. *)
Definition format_prompt (operation : str) (count : Z) : outcome str :=
  match py_format PROMPT_TEMPLATE
          [(lit "count", VInt count); (lit "operation", VStr operation)] with
  | Some r => r
  | None => Raise (OtherException "NotImplementedError")
  end.

(** The statements after it, given the service's reply.  The request is made
    before the [try]; [json.loads] and [data.get] are inside it, and
    [data.get] raises [AttributeError] on a document that is not an
    object. *)
Definition request (r : reply) : outcome json :=
  match r with
  | CallRaises e => Raise e
  | LoadsRaises e => if is_Exception e then Ok (JArr []) else Raise e
  | Loaded (JObj members) => Ok (dict_get members (lit "Questions") (JArr []))
  | Loaded _ => Ok (JArr [])
  end.

(** [fetch_questions_openai(operation, count)]; [service] is the completion
    service, which maps the prompt of a request to its reply. *)
Definition fetch_questions_openai (service : str -> reply)
  (operation : str) (count : Z) : outcome json :=
  prompt <- format_prompt operation count ;;
  request (service prompt).

(** ** generate_questions *)

Definition operations : list str :=
  [lit "Addition"; lit "Substraction"; lit "Multiplication"; lit "Division"].

Record state := { all_questions : list json; skipped : Z }.

Definition record (txt op : str) (ans : float) : json :=
  JObj [(lit "Text", JStr txt); (lit "Operation", JStr op);
        (lit "status", JStr (lit "Available")); (lit "Answer", JFloat ans)].

Section Sources.

(** The completion service: the reply to the request made with a prompt. *)
Variable service : str -> reply.

(** The procedural generators of [OP_FUNCS]: what the [i]-th call of the
    generator of an operation does, return a text and an answer or raise. *)
Variable func : str -> nat -> outcome (value * value).

(** One turn of the remote loop. *)
Definition remote_step (per_op : Z) (st : state) (op : str) : outcome state :=
  qs <- fetch_questions_openai service op per_op ;;
  items <- py_iter qs ;;
  Ok {| all_questions := all_questions st ++ items; skipped := skipped st |}.

(** One turn of the inner local loop: the body of the [try], then the
    [except Exception] clause. *)
Definition local_body (op : str) (i : nat) (st : state) : outcome state :=
  q <- func op i ;;
  let txt := sanitize_text (fst q) in
  ans <- sanitize_answer (snd q) ;;
  match ans with
  | None =>
      Ok {| all_questions := all_questions st; skipped := skipped st + 1 |}
  | Some x =>
      Ok {| all_questions := all_questions st ++ [record txt op x];
            skipped := skipped st |}
  end.

Definition local_step (op : str) (st : state) (i : nat) : outcome state :=
  match local_body op i st with
  | Ok st' => Ok st'
  | Raise e =>
      if is_Exception e
      then Ok {| all_questions := all_questions st; skipped := skipped st + 1 |}
      else Raise e
  end.

(** A [for] loop whose body may raise. *)
Fixpoint for_each {A} (body : state -> A -> outcome state) (xs : list A)
  (st : state) : outcome state :=
  match xs with
  | [] => Ok st
  | x :: xs' => st' <- body st x ;; for_each body xs' st'
  end.

(** [generate_questions(per_op)]: the list under ["Questions"] of the
    returned document. *)
Definition generate_questions (use_openai : bool) (per_op : Z)
  : outcome (list json) :=
  let start := {| all_questions := []; skipped := 0 |} in
  st <- (if use_openai then
           for_each (remote_step per_op) operations start
         else
           for_each
             (fun st op =>
                for_each (local_step op) (seq 0 (Z.to_nat per_op)) st)
             operations start) ;;
  Ok (all_questions st).

End Sources.

(** ** Notions used to state and prove the properties *)

Arguments sanitize_text_str : simpl never.
Arguments float_repr : simpl never.
Arguments int_repr : simpl never.
Arguments round_ratio : simpl never.
Arguments lit : simpl never.

(** *** Texts *)

Definition is_op (c : char) : bool :=
  ((c =? c_plus) || (c =? c_minus) || (c =? c_times) || (c =? c_div))%N.

(** What [space_operators] turns one character into. *)
Definition pad (c : char) : str :=
  if is_op c then [c_space; c; c_space] else [c].

(** [re.sub(r'\s+', ' ', s)] as a one-pass function: [in_run] tells whether
    the previous character was whitespace. *)
Fixpoint collapse (in_run : bool) (s : str) : str :=
  match s with
  | [] => []
  | c :: s' =>
      if is_space c
      then if in_run then collapse true s' else c_space :: collapse true s'
      else c :: collapse false s'
  end.

Definition starts_word (s : str) : bool :=
  match s with c :: _ => negb (is_space c) | [] => false end.

(** The words of a string, as [str.split()] gives them. *)
Fixpoint words (s : str) : list str :=
  match s with
  | [] => []
  | c :: s' =>
      if is_space c then words s'
      else if starts_word s'
           then match words s' with
                | w :: ws => (c :: w) :: ws
                | [] => [[c]]
                end
           else [c] :: words s'
  end.

(** [' '.join(ws)] *)
Fixpoint unwords (ws : list str) : str :=
  match ws with
  | [] => []
  | w :: ws' =>
      match ws' with
      | [] => w
      | _ :: _ => w ++ c_space :: unwords ws'
      end
  end.

(** A word of a sanitized text: no whitespace in it, and an operator glyph
    only as a word of its own. *)
Definition atom (w : str) : Prop :=
  w <> [] /\ Forall (fun c => is_space c = false) w
  /\ ((exists c, is_op c = true /\ w = [c])
      \/ Forall (fun c => is_op c = false) w).

(** Step 9 as the specification words it: at most one trailing [=] goes. *)
Definition strip_equals_spec (s : str) : str :=
  strip
    (match rev (rstrip s) with
     | c :: r => if (c =? c_equals)%N then rev r else rstrip s
     | [] => []
     end).

(** The text to the left, resp. to the right, of an operator glyph that has
    exactly one space on that side. *)
Definition one_space_left (pre : str) : Prop :=
  exists p x, pre = p ++ [x; c_space] /\ is_space x = false.

Definition one_space_right (post : str) : Prop :=
  exists y q, post = c_space :: y :: q /\ is_space y = false.

(** A word: a non-empty string without whitespace. *)
Definition word (w : str) : Prop :=
  w <> [] /\ Forall (fun c => is_space c = false) w.

Definition no_backslash (s : str) : Prop :=
  Forall (fun c => (c =? c_backslash)%N = false) s.

(** *** Floats and answers *)

(** The two powers of two that scale [a / b] by [2 ^ (- e)]. *)
Definition up (e : Z) : Z := (2 ^ Z.max e 0)%Z.
Definition dn (e : Z) : Z := (2 ^ Z.max (- e) 0)%Z.

(** The finite floats in canonical form: a significand of 53 bits, or of
    fewer bits at the least exponent. *)
Definition canonical (m : positive) (e : Z) : Prop :=
  (Zpos m < 2 ^ prec /\ emin <= e <= emax - prec
   /\ (2 ^ (prec - 1) <= Zpos m \/ e = emin))%Z.

Definition valid (x : float) : Prop :=
  match x with S754_finite _ m e => canonical m e | _ => True end.

(** The least magnitude that rounds to an infinity: [2 ^ 1024 - 2 ^ 970]. *)
Definition overflow_threshold : Z := (2 ^ 1024 - 2 ^ 970)%Z.

(** The plain candidate of [sanitize_answer]: [s_plain]. *)
Definition plain_candidate (a : value) : str :=
  replace [c_comma] [] (answer_candidate a).


(** [str(x)] is in positional notation, without exponent: [x] is a zero, or
    finite with a decimal point position in [-3 .. 16]. *)
Definition positional (x : float) : bool :=
  match x with
  | S754_zero _ => true
  | S754_finite neg m e =>
      let decpt := snd (shortest_digits neg m e) in
      ((-4 <? decpt) && (decpt <=? 16))%Z
  | _ => false
  end.

Definition digit (d : N) : Prop := (d < 10)%N.

(** The optional fraction of a plain number, as text. *)
Definition fraction_text (fp : str) : str :=
  match fp with [] => [] | _ :: _ => c_dot :: fp end.

(** *** Runs *)

(** A question record with a float under ["Answer"]. *)
Definition has_float_answer (q : json) : Prop :=
  exists txt op x, q = record txt op x.

(** A reply whose only question has a null answer:
    [{"Questions": [{"Text": "2 + 2", ..., "Answer": null}]}]. *)
Definition null_answer_reply : reply :=
  Loaded (JObj [(lit "Questions",
                 JArr [JObj [(lit "Text", JStr (lit "2 + 2"));
                             (lit "Operation", JStr (lit "Addition"));
                             (lit "status", JStr (lit "Available"));
                             (lit "Answer", JNull)]])]).

(** A generator that is never called. *)
Definition no_func (op : str) (i : nat) : outcome (value * value) :=
  Raise (OtherException "unused").

Definition all_float (st : state) : Prop :=
  Forall has_float_answer (all_questions st).

Definition escapes (e : exn) : Prop := is_Exception e = false.

(** ** Notions for the further properties *)

(** *** Exercises as the generators write them *)

(** The operator between the two operands of an exercise, in the markup the
    text sanitizer rewrites, and the glyph it becomes. *)
Inductive operator := Plus | Minus | Times | Cdot | Div.

Definition markup (o : operator) : str :=
  match o with
  | Plus => lit "+"
  | Minus => lit "-"
  | Times => lit "\times"
  | Cdot => lit "\cdot"
  | Div => lit "\div"
  end.

Definition glyph (o : operator) : char :=
  match o with
  | Plus => c_plus
  | Minus => c_minus
  | Times | Cdot => c_times
  | Div => c_div
  end.

(** A character the text sanitizer copies: not whitespace, not an operator
    glyph, none of [$], [\] and [=]. *)
Definition is_plain (c : char) : bool :=
  negb (is_space c || is_op c || (c =? c_dollar)%N || (c =? c_backslash)%N
        || (c =? c_equals)%N).

Definition operand (w : str) : Prop := w <> [] /\ forallb is_plain w = true.

(** *** Answers *)

(** The float [x] is the integer [n], exactly. *)
Definition float_is (x : float) (n : Z) : Prop :=
  match x with
  | S754_zero _ => n = 0%Z
  | S754_finite s m e =>
      ((if s then - Zpos m else Zpos m) * up e = n * dn e)%Z
  | _ => False
  end.

(** The characters an answer can hold and still be read as a number: digits,
    whitespace, the signs, the point, the comma, the slash, the dollar sign
    and the backslash. *)
Definition is_answer_char (c : char) : bool :=
  is_digit c || is_space c
  || existsb (N.eqb c)
       [c_plus; c_minus; c_uminus; c_dot; c_comma; c_slash; c_dollar;
        c_backslash].

(** The digits of an integer text, the sign left out: what [int] counts
    against its limit. *)
Definition digit_count (g : str) : nat :=
  List.length (snd (split_sign true g)).

(** The sign in front of a plain number. *)
Definition is_sign (sign : str) : Prop :=
  sign = [] \/ sign = [c_plus] \/ sign = [c_minus].

(** U+2212 read as the ASCII minus sign. *)
Definition ascii_minus (c : char) : char :=
  if (c =? c_uminus)%N then c_minus else c.

(** *** Runs *)

(** What one call of a generator adds to the output in local mode: a record
    when the call returns and its answer is read, nothing otherwise. *)
Definition local_item (func : str -> nat -> outcome (value * value))
  (op : str) (i : nat) : list json :=
  match func op i with
  | Ok (t, a) =>
      match sanitize_answer a with
      | Ok (Some x) => [record (sanitize_text t) op x]
      | _ => []
      end
  | Raise _ => []
  end.

(** What the call adds to the count of skipped calls. *)
Definition local_skip (func : str -> nat -> outcome (value * value))
  (op : str) (i : nat) : Z :=
  match local_item func op i with [] => 1%Z | _ :: _ => 0%Z end.

(** The calls a state accounts for: the records and the skipped calls. *)
Definition calls (st : state) : Z :=
  (Z.of_nat (List.length (all_questions st)) + skipped st)%Z.

(** The call raises what [except Exception] lets through. *)
Definition interrupted (func : str -> nat -> outcome (value * value))
  (op : str) (i : nat) : Prop :=
  exists e, func op i = Raise e /\ is_Exception e = false.

(** The local loops of [generate_questions], with the state they end in:
    the records and the count of skipped calls. *)
Definition local_run (func : str -> nat -> outcome (value * value))
  (per_op : Z) : outcome state :=
  for_each
    (fun st op => for_each (local_step func op) (seq 0 (Z.to_nat per_op)) st)
    operations {| all_questions := []; skipped := 0 |}.

(** An exercise and its answer in the form the generators return them:
    [$a+b=$], the operator in markup, and [$n$], an integer with an optional
    minus sign. *)
Definition exercise_text (o : operator) (a b : str) : value :=
  VStr ([c_dollar] ++ (a ++ markup o ++ b ++ [c_equals]) ++ [c_dollar]).

Definition answer_text (neg : bool) (ds : str) : value :=
  VStr ([c_dollar] ++ ((if neg then [c_minus] else []) ++ ds) ++ [c_dollar]).

(** The record [generate_questions] makes of them. *)
Definition exercise_record (op : str) (o : operator) (a b : str)
  (neg : bool) (ds : str) : json :=
  record (a ++ [c_space; glyph o; c_space] ++ b) op
    (round_ratio neg (value_of_digits (digit_values ds)) 1).

(** * Properties *)

(** Closed statements about concrete inputs are settled by evaluation. *)
Ltac by_evaluation :=
  repeat match goal with |- _ /\ _ => split end; vm_compute; reflexivity.

(** ** Lists and scanning *)

Lemma In_drop_while p (s : str) x : In x (drop_while p s) -> In x s.
Proof.
  induction s as [|c s IH]; simpl; auto.
  destruct (p c); simpl; auto.
Qed.

Lemma In_lstrip s x : In x (lstrip s) -> In x s.
Proof. apply In_drop_while. Qed.

Lemma In_rstrip s x : In x (rstrip s) -> In x s.
Proof.
  unfold rstrip. intros H. apply in_rev in H.
  apply In_drop_while in H. now apply in_rev.
Qed.

Lemma In_rstrip_char c s x : In x (rstrip_char c s) -> In x s.
Proof.
  unfold rstrip_char. intros H. apply in_rev in H.
  apply In_drop_while in H. now apply in_rev.
Qed.

Lemma In_strip s x : In x (strip s) -> In x s.
Proof. unfold strip. intros H. now apply In_rstrip, In_lstrip. Qed.

(** A character of a substituted string comes from the string or from a
    replacement. *)
Lemma In_scan m k s x :
  In x (scan m k s) ->
  In x s \/ exists t out n, m t = Some (out, n) /\ In x out.
Proof.
  revert k. induction s as [|c s IH]; simpl; intros k H; [tauto|].
  destruct k as [|k].
  - destruct (m (c :: s)) as [[out n]|] eqn:E.
    + apply in_app_or in H. destruct H as [H|H].
      * right. now exists (c :: s), out, n.
      * destruct (IH _ H) as [?|?]; auto.
    + destruct H as [H|H]; auto.
      destruct (IH _ H) as [?|?]; auto.
  - destruct (IH _ H) as [?|?]; auto.
Qed.

Lemma In_replace old new s x :
  In x (replace old new s) -> In x s \/ In x new.
Proof.
  intros H. apply In_scan in H. destruct H as [H|(t & out & n & E & H)]; auto.
  unfold m_literal in E. destruct (starts_with old t); inversion E; subst; auto.
Qed.

Lemma scan_skip m (p r : str) : scan m (List.length p) (p ++ r) = scan m 0 r.
Proof. induction p; simpl; auto. Qed.

(** Where the pattern can only match at a character that the string does not
    contain, nothing is substituted. *)
Lemma scan_no_match m (bad : char -> bool) s :
  (forall c r, bad c = false -> m (c :: r) = None) ->
  Forall (fun c => bad c = false) s ->
  scan m 0 s = s.
Proof.
  intros Hm. induction 1 as [|c s Hc _ IH]; simpl; auto.
  now rewrite (Hm c s Hc), IH.
Qed.

Lemma replace_char c new s :
  replace [c] new s = flat_map (fun x => if (c =? x)%N then new else [x]) s.
Proof.
  unfold replace, sub. induction s as [|x s IH]; simpl; auto.
  unfold m_literal. simpl. rewrite andb_true_r.
  destruct (c =? x)%N; simpl; now rewrite <- IH.
Qed.

(** ** No backslash survives the removal of escapes *)

Lemma scan_escape_no_backslash k s : ~ In c_backslash (scan m_escape k s).
Proof.
  revert k. induction s as [|c s IH]; simpl; intros k; [tauto|].
  destruct k as [|k]; [|apply IH].
  destruct (c =? c_backslash)%N eqn:E; simpl.
  - apply IH.
  - intros [H|H]; [|now apply IH in H].
    subst c. discriminate.
Qed.

Lemma In_space_operators s x :
  In x (space_operators s) -> In x s \/ x = c_space \/ is_op x = true.
Proof.
  unfold space_operators. intros H.
  repeat (apply In_replace in H; destruct H as [H|H]);
    auto; simpl in H; intuition (subst; auto).
Qed.

Lemma In_collapse_spaces s x :
  In x (collapse_spaces s) -> In x s \/ x = c_space.
Proof.
  unfold collapse_spaces. intros H. apply In_strip, In_scan in H.
  destruct H as [H|(t & out & n & E & H)]; auto.
  unfold m_spaces in E. destruct (take_while is_space t); inversion E; subst.
  simpl in H. intuition.
Qed.

Lemma sanitize_text_str_no_backslash s :
  ~ In c_backslash (sanitize_text_str s).
Proof.
  unfold sanitize_text_str. intros H.
  apply In_collapse_spaces in H. destruct H as [H|H]; [|discriminate].
  apply In_space_operators in H.
  destruct H as [H|[H|H]]; [|discriminate|discriminate].
  unfold strip_equals in H. apply In_strip, In_rstrip_char, In_rstrip in H.
  revert H. apply scan_escape_no_backslash.
Qed.

(** ** Stripping *)

Lemma take_drop_while p (s : str) : take_while p s ++ drop_while p s = s.
Proof.
  induction s as [|c s IH]; simpl; auto.
  destruct (p c); simpl; now rewrite ?IH.
Qed.

Lemma drop_while_head p (s : str) c r :
  drop_while p s = c :: r -> p c = false.
Proof.
  induction s as [|x s IH]; simpl; [discriminate|].
  destruct (p x) eqn:E; auto. intros H. now inversion H; subst.
Qed.

Lemma take_while_all p (s : str) : Forall (fun c => p c = true) (take_while p s).
Proof.
  induction s as [|c s IH]; simpl; auto.
  destruct (p c) eqn:E; auto.
Qed.

Lemma drop_while_none p (s : str) :
  match s with c :: _ => p c = false | [] => True end -> drop_while p s = s.
Proof. destruct s as [|c s]; simpl; auto. now intros ->. Qed.

Lemma all_equal_repeat c (l : str) :
  Forall (fun x => (c =? x)%N = true) l -> l = repeat c (List.length l).
Proof.
  induction 1 as [|x l Hx _ IH]; simpl; auto.
  apply N.eqb_eq in Hx. subst x. now rewrite <- IH.
Qed.

(** [rstrip_char c] removes a whole run of [c] from the end, and leaves a
    string that does not end in [c]. *)
Lemma rstrip_char_spec c s :
  exists n, s = rstrip_char c s ++ repeat c n
            /\ forall b, rstrip_char c s <> b ++ [c].
Proof.
  unfold rstrip_char.
  exists (List.length (take_while (N.eqb c) (rev s))). split.
  - rewrite <- (rev_involutive s) at 1.
    rewrite <- (take_drop_while (N.eqb c) (rev s)) at 1.
    rewrite rev_app_distr. f_equal.
    rewrite (@all_equal_repeat c (take_while (N.eqb c) (rev s))) at 1
      by apply take_while_all.
    generalize (List.length (take_while (N.eqb c) (rev s))) as n.
    induction n; simpl; auto.
    rewrite IHn. clear. induction n; simpl; auto. now rewrite <- IHn.
  - intros b H. apply (f_equal (@rev char)) in H.
    rewrite rev_involutive, rev_app_distr in H. simpl in H.
    apply drop_while_head in H. now rewrite N.eqb_refl in H.
Qed.

(** C4, as the code has it. Step 9 strips trailing whitespace, then the whole
    run of trailing [=] characters, however long, then whitespace at both
    ends: the string left after the second stripping never ends in [=].  On
    ["x =="] both [=] go. *)
Theorem C4_strip_equals_removes_the_whole_run :
  (forall s, exists n,
      rstrip s = rstrip_char c_equals (rstrip s) ++ repeat c_equals n
      /\ (forall b, rstrip_char c_equals (rstrip s) <> b ++ [c_equals])
      /\ strip_equals s = strip (rstrip_char c_equals (rstrip s)))
  /\ sanitize_text (VStr (lit "x ==")) = lit "x".
Proof.
  split.
  - intros s. destruct (rstrip_char_spec c_equals (rstrip s)) as (n & H1 & H2).
    exists n. repeat split; auto.
  - vm_compute. reflexivity.
Qed.

(** C4 as stated fails: a step that removed a single [=] would leave
    ["x ="], and the code leaves ["x"]. *)
Lemma C4_counterexample :
  strip_equals_spec (lit "x ==") = lit "x ="
  /\ strip_equals (lit "x ==") = lit "x"
  /\ sanitize_text (VStr (lit "x ==")) <> lit "x =".
Proof.
  repeat split; try (vm_compute; reflexivity).
  vm_compute. discriminate.
Qed.

(** ** Collapsing whitespace and splitting into words *)

Lemma length_drop_while p (s : str) :
  (List.length (drop_while p s) <= List.length s)%nat.
Proof.
  induction s as [|c s IH]; simpl; auto.
  destruct (p c); simpl; lia.
Qed.

Lemma collapse_true_drop s :
  collapse true s = collapse false (drop_while is_space s).
Proof.
  induction s as [|c s IH]; simpl; auto.
  destruct (is_space c) eqn:E; simpl; auto. now rewrite E.
Qed.

Lemma sub_spaces_collapse s : sub m_spaces s = collapse false s.
Proof.
  unfold sub.
  remember (List.length s) as n eqn:Hn.
  assert (Hle : (List.length s <= n)%nat) by lia. clear Hn.
  revert s Hle. induction n as [|n IH]; intros [|c s] Hle; simpl in *;
    try reflexivity; try lia.
  unfold m_spaces. simpl. destruct (is_space c) eqn:E.
  - simpl. f_equal.
    rewrite <- (take_drop_while is_space s) at 2.
    rewrite scan_skip, IH, <- collapse_true_drop; auto.
    pose proof (length_drop_while is_space s). lia.
  - f_equal. apply IH. lia.
Qed.

Lemma drop_while_app_all p (a b : str) :
  drop_while p a = [] -> drop_while p (a ++ b) = drop_while p b.
Proof.
  induction a as [|c a IH]; simpl; auto.
  destruct (p c); [auto|discriminate].
Qed.

Lemma drop_while_app_some p (a b : str) :
  drop_while p a <> [] -> drop_while p (a ++ b) = drop_while p a ++ b.
Proof.
  induction a as [|c a IH]; simpl; [congruence|].
  destruct (p c); auto.
Qed.

Lemma match_nonempty {A B} (l : list A) (x y : B) :
  l <> [] -> match l with [] => x | _ :: _ => y end = y.
Proof. destruct l; [congruence|reflexivity]. Qed.

Lemma rstrip_cons c t :
  rstrip (c :: t) =
  match rstrip t with
  | [] => if is_space c then [] else [c]
  | _ :: _ => c :: rstrip t
  end.
Proof.
  unfold rstrip. simpl.
  destruct (drop_while is_space (rev t)) as [|x l] eqn:E.
  - rewrite drop_while_app_all by assumption. simpl.
    destruct (is_space c); reflexivity.
  - rewrite drop_while_app_some by congruence. rewrite E.
    rewrite rev_app_distr. simpl.
    destruct (rev l ++ [x]) eqn:E'; [now destruct (rev l)|reflexivity].
Qed.

Lemma words_are_words s : Forall word (words s).
Proof.
  induction s as [|c s IH]; simpl; [constructor|].
  destruct (is_space c) eqn:E; auto.
  destruct (starts_word s).
  - destruct (words s) as [|w ws].
    + repeat constructor; [discriminate|assumption].
    + inversion IH as [|? ? [Hw1 Hw2] Hws]; subst.
      constructor; auto. split; [discriminate|now constructor].
  - constructor; auto. split; [discriminate|now repeat constructor].
Qed.

Lemma starts_word_words s :
  starts_word s = true -> exists w ws, words s = w :: ws.
Proof.
  destruct s as [|c s]; simpl; [discriminate|].
  intros H. apply negb_true_iff in H. rewrite H.
  destruct (starts_word s); [destruct (words s)|]; eauto.
Qed.

Lemma unwords_cons_char c w ws :
  unwords ((c :: w) :: ws) = c :: unwords (w :: ws).
Proof. simpl. now destruct ws. Qed.

Lemma unwords_nil ws : Forall word ws -> unwords ws = [] -> ws = [].
Proof.
  destruct 1 as [|w ws [Hw _] _]; auto.
  simpl. destruct ws; intros H.
  - congruence.
  - now destruct w.
Qed.

Lemma unwords_starts_word ws :
  Forall word ws -> ws <> [] -> starts_word (unwords ws) = true.
Proof.
  destruct 1 as [|w ws [Hw Hs] _]; [congruence|]. intros _.
  destruct w as [|c w]; [congruence|]. rewrite unwords_cons_char. simpl.
  inversion Hs; subst. now apply negb_true_iff.
Qed.

(** What [re.sub(r'\s+', ' ', s)] followed by [rstrip] leaves: the words
    joined by single spaces, after a space if [s] began with whitespace. *)
Lemma rstrip_collapse s :
  rstrip (collapse true s) = unwords (words s)
  /\ rstrip (collapse false s) =
     (if starts_word s then [] else
        match words s with [] => [] | _ :: _ => [c_space] end)
     ++ unwords (words s).
Proof.
  induction s as [|c s [IH1 IH2]]; [now split|].
  pose proof (words_are_words s) as Hw.
  simpl. destruct (is_space c) eqn:E; simpl.
  - split; auto. rewrite rstrip_cons, IH1.
    destruct (unwords (words s)) eqn:EU.
    + apply unwords_nil in EU; auto. now rewrite EU.
    + destruct (words s); [discriminate|reflexivity].
  - assert (H : rstrip (c :: collapse false s) =
                 unwords (if starts_word s
                          then match words s with
                               | [] => [[c]]
                               | w :: ws => (c :: w) :: ws
                               end
                          else [c] :: words s)).
    { rewrite rstrip_cons, IH2.
      destruct (starts_word s) eqn:Es.
      - destruct (starts_word_words s Es) as (w & ws & Ews).
        rewrite Ews in *. rewrite unwords_cons_char. cbn [app].
        assert (Hn : unwords (w :: ws) <> []).
        { intros Hn. apply unwords_nil in Hn; auto. discriminate. }
        now rewrite match_nonempty.
      - destruct (words s) as [|w ws] eqn:Ews;
          [simpl; now rewrite E|reflexivity]. }
    split; [exact H|]. rewrite H. reflexivity.
Qed.

Lemma strip_collapse s : strip (collapse false s) = unwords (words s).
Proof.
  unfold strip. rewrite (proj2 (rstrip_collapse s)).
  pose proof (words_are_words s) as Hw.
  destruct (words s) as [|w ws] eqn:Ews.
  - now destruct (starts_word s).
  - assert (Hs : starts_word (unwords (w :: ws)) = true)
      by (apply unwords_starts_word; [assumption|discriminate]).
    assert (Hl : lstrip (unwords (w :: ws)) = unwords (w :: ws)).
    { unfold lstrip. apply drop_while_none.
      destruct (unwords (w :: ws)); simpl in *; [auto|].
      now apply negb_true_iff. }
    destruct (starts_word s); simpl; auto.
Qed.

Lemma collapse_spaces_words s : collapse_spaces s = unwords (words s).
Proof. unfold collapse_spaces. now rewrite sub_spaces_collapse, strip_collapse. Qed.

(** ** Operators are padded, then whitespace is collapsed *)

Lemma flat_map_comp {A B C} (f : A -> list B) (g : B -> list C) s :
  flat_map g (flat_map f s) = flat_map (fun x => flat_map g (f x)) s.
Proof.
  induction s as [|x s IH]; [reflexivity|].
  cbn [flat_map]. now rewrite flat_map_app, IH.
Qed.

Lemma space_operators_pad s : space_operators s = flat_map pad s.
Proof.
  unfold space_operators. rewrite !replace_char, !flat_map_comp.
  apply flat_map_ext. intros x. unfold pad, is_op.
  destruct (N.eqb_spec c_plus x) as [<-|H1]; [reflexivity|].
  destruct (N.eqb_spec c_minus x) as [<-|H2]; [reflexivity|].
  destruct (N.eqb_spec c_times x) as [<-|H3]; [reflexivity|].
  destruct (N.eqb_spec c_div x) as [<-|H4]; [reflexivity|].
  cbn [flat_map app].
  destruct (N.eqb_spec c_minus x); [congruence|]. cbn [flat_map app].
  destruct (N.eqb_spec c_times x); [congruence|]. cbn [flat_map app].
  destruct (N.eqb_spec c_div x); [congruence|]. cbn [flat_map app].
  destruct (N.eqb_spec x c_plus); [congruence|].
  destruct (N.eqb_spec x c_minus); [congruence|].
  destruct (N.eqb_spec x c_times); [congruence|].
  destruct (N.eqb_spec x c_div); [congruence|]. reflexivity.
Qed.

Lemma op_not_space c : is_op c = true -> is_space c = false.
Proof.
  unfold is_op. rewrite !orb_true_iff, !N.eqb_eq.
  intros [[[->| ->]| ->]| ->]; reflexivity.
Qed.

Lemma words_space c s : is_space c = true -> words (c :: s) = words s.
Proof. simpl. now intros ->. Qed.

(** A word followed by whitespace or by the end is split off as it is. *)
Lemma words_word w rest :
  word w -> starts_word rest = false -> words (w ++ rest) = w :: words rest.
Proof.
  intros [Hn Hs] Hr. induction w as [|c w IH]; [congruence|].
  inversion Hs as [|? ? Hc Hw]; subst. simpl. rewrite Hc.
  destruct w as [|d w].
  - simpl. now rewrite Hr.
  - inversion Hw as [|? ? Hd _]; subst.
    rewrite IH by (auto; discriminate).
    simpl. now rewrite Hd.
Qed.

(** The words of a padded string are atoms; if the string starts with a
    word, that word holds no operator. *)
Lemma words_pad_atoms s :
  Forall atom (words (flat_map pad s))
  /\ (starts_word (flat_map pad s) = true ->
      exists w ws, words (flat_map pad s) = w :: ws
                   /\ Forall (fun c => is_op c = false) w).
Proof.
  induction s as [|c s [IH1 IH2]]; [split; [constructor|discriminate]|].
  cbn [flat_map]. unfold pad at 1 3 5.
  destruct (is_op c) eqn:Eo.
  - pose proof (op_not_space c Eo) as Es.
    assert (Hw : words (([c_space; c; c_space]) ++ flat_map pad s)
                 = [c] :: words (flat_map pad s)).
    { cbn [app]. rewrite words_space by reflexivity.
      change (c :: c_space :: flat_map pad s)
        with ([c] ++ c_space :: flat_map pad s).
      rewrite words_word; [now rewrite words_space| |reflexivity].
      split; [discriminate|now repeat constructor]. }
    rewrite Hw. split.
    + constructor; auto. split; [discriminate|].
      split; [now repeat constructor|]. left. now exists c.
    + discriminate.
  - cbn [app]. destruct (is_space c) eqn:Es.
    + rewrite words_space by assumption. split; auto.
      simpl. rewrite Es. discriminate.
    + simpl. rewrite Es.
      destruct (starts_word (flat_map pad s)) eqn:Ew.
      * destruct (IH2 eq_refl) as (w & ws & E & Hw). rewrite E in *.
        inversion IH1 as [|? ? (Ha1 & Ha2 & Ha3) Hws]; subst.
        split.
        -- constructor; auto. split; [discriminate|].
           split; [now constructor|]. right. now constructor.
        -- intros _. exists (c :: w), ws. split; auto.
      * split.
        -- constructor; auto. split; [discriminate|].
           split; [now repeat constructor|]. right. now repeat constructor.
        -- intros _. exists [c], (words (flat_map pad s)). split; auto.
Qed.

(** The output of [sanitize_text] is a sequence of atoms joined by single
    spaces. *)
Lemma sanitize_text_str_atoms s :
  exists ws, Forall atom ws /\ sanitize_text_str s = unwords ws.
Proof.
  unfold sanitize_text_str.
  rewrite collapse_spaces_words, space_operators_pad.
  eexists. split; [apply words_pad_atoms|reflexivity].
Qed.

Lemma atom_word w : atom w -> word w.
Proof. intros (H1 & H2 & _). now split. Qed.

Lemma atoms_words ws : Forall atom ws -> Forall word ws.
Proof. intros H. eapply Forall_impl; [|exact H]. apply atom_word. Qed.

Lemma word_last w : word w -> exists p x, w = p ++ [x] /\ is_space x = false.
Proof.
  intros [Hn Hs]. destruct (exists_last Hn) as (p & x & ->).
  exists p, x. split; auto.
  rewrite Forall_app in Hs. destruct Hs as [_ Hx]. now inversion Hx.
Qed.

Lemma atom_with_op w pre c post :
  atom w -> w = pre ++ c :: post -> is_op c = true -> pre = [] /\ post = [].
Proof.
  intros (_ & _ & [(c' & _ & ->)|Hf]) E Hc.
  - destruct pre as [|x pre]; [inversion E; auto|].
    inversion E as [[E1 E2]]. now destruct pre.
  - subst w. apply Forall_app in Hf. destruct Hf as [_ Hf].
    inversion Hf; subst. congruence.
Qed.

(** In a sequence of atoms joined by single spaces, an operator glyph is
    a word of its own: it has a single space on each side where the text
    goes on. *)
Lemma unwords_op_spaced ws :
  Forall atom ws ->
  forall pre c post,
    unwords ws = pre ++ c :: post -> is_op c = true ->
    (pre = [] \/ one_space_left pre) /\ (post = [] \/ one_space_right post).
Proof.
  induction 1 as [|w ws Hw Hws IH]; intros pre c post E Hc.
  - now destruct pre.
  - destruct ws as [|w' ws'].
    + destruct (@atom_with_op _ _ _ _ Hw E Hc) as [-> ->]. auto.
    + assert (Hs : starts_word (unwords (w' :: ws')) = true).
      { apply unwords_starts_word; [|discriminate]. now apply atoms_words. }
      assert (E' : w ++ c_space :: unwords (w' :: ws') = pre ++ c :: post)
        by exact E.
      clear E. revert IH Hs E'. generalize (unwords (w' :: ws')) as U.
      intros U IH Hs E.
      apply app_eq_app in E. destruct E as (l & [[E1 E2]|[E1 E2]]).
      * destruct l as [|x l]; cbn [app] in E2.
        -- injection E2 as -> _. discriminate Hc.
        -- injection E2 as <- E2.
           destruct (@atom_with_op _ _ _ _ Hw E1 Hc) as [-> ->].
           cbn [app] in E2. subst post. split; auto. right.
           destruct U as [|y q]; [discriminate|].
           exists y, q. split; auto. now apply negb_true_iff.
      * destruct l as [|x l]; cbn [app] in E2.
        -- injection E2 as <- _. discriminate Hc.
        -- injection E2 as <- E2.
           destruct (IH l c post E2 Hc) as [Hl Hr].
           split; auto. right. subst pre.
           destruct Hl as [->|(p & x & -> & Hx)].
           ++ destruct (word_last (atom_word Hw)) as (p & x & -> & Hx).
              exists p, x. split; auto. now rewrite <- app_assoc.
           ++ exists (w ++ c_space :: p), x. split; auto.
              now rewrite <- app_assoc.
Qed.

(** C5, as the code has it. In the output of [sanitize_text] an operator
    glyph has exactly one space, followed by a non-whitespace character, on
    each side on which the text goes on; an operator that begins or ends the
    output has nothing on that side, since the output is stripped. *)
Theorem C5_operators_single_spaced :
  forall (s : value) pre c post,
    sanitize_text s = pre ++ c :: post -> is_op c = true ->
    (pre = [] \/ one_space_left pre) /\ (post = [] \/ one_space_right post).
Proof.
  intros s pre c post E Hc.
  destruct (sanitize_text_str_atoms (py_str s)) as (ws & Hws & Eu).
  assert (E' : sanitize_text_str (py_str s) = pre ++ c :: post).
  { destruct s; simpl in E; auto. now destruct pre. }
  rewrite Eu in E'. exact (unwords_op_spaced Hws _ _ _ E' Hc).
Qed.

Lemma C5_witness :
  sanitize_text (VStr (lit "3+4")) = lit "3 " ++ c_plus :: lit " 4"
  /\ is_op c_plus = true
  /\ ((lit "3 " = [] \/ one_space_left (lit "3 "))
      /\ (lit " 4" = [] \/ one_space_right (lit " 4"))).
Proof.
  split; [vm_compute; reflexivity|]. split; [reflexivity|].
  apply (@C5_operators_single_spaced (VStr (lit "3+4")) (lit "3 ") c_plus (lit " 4"));
    vm_compute; reflexivity.
Defined.

(** C5 as stated fails: ["-5+3"] contains the adjacent sequence [5+3], and
    the minus sign that begins its output has no space on its left. *)
Lemma C5_counterexample :
  sanitize_text (VStr (lit "-5+3")) = [] ++ c_minus :: lit " 5 + 3"
  /\ is_op c_minus = true
  /\ ~ one_space_left [].
Proof.
  split; [vm_compute; reflexivity|]. split; [reflexivity|].
  intros (p & x & E & _). now destruct p.
Qed.

(** ** A second pass over a sanitized text *)

Lemma lstrip_idem s : lstrip (lstrip s) = lstrip s.
Proof.
  unfold lstrip. apply drop_while_none.
  destruct (drop_while is_space s) eqn:E; auto.
  now apply drop_while_head in E.
Qed.

Lemma rstrip_idem s : rstrip (rstrip s) = rstrip s.
Proof.
  unfold rstrip. rewrite rev_involutive. f_equal. apply lstrip_idem.
Qed.

Lemma rstrip_lstrip s : rstrip s = s -> rstrip (lstrip s) = lstrip s.
Proof.
  induction s as [|c s IH]; auto.
  intros H. unfold lstrip. simpl. destruct (is_space c) eqn:E; auto.
  apply IH. rewrite rstrip_cons in H.
  destruct (rstrip s) eqn:Er; [rewrite E in H; discriminate|].
  now injection H.
Qed.

Lemma strip_stripped s :
  lstrip (strip s) = strip s /\ rstrip (strip s) = strip s.
Proof.
  unfold strip. split; [apply lstrip_idem|].
  apply rstrip_lstrip, rstrip_idem.
Qed.

Lemma strip_idem s : strip (strip s) = strip s.
Proof.
  destruct (strip_stripped s) as [H1 H2].
  unfold strip at 1. now rewrite H2, H1.
Qed.

Lemma rstrip_char_id c s :
  (forall b, s <> b ++ [c]) -> rstrip_char c s = s.
Proof.
  intros H. unfold rstrip_char.
  destruct s as [|x s] using rev_ind; auto.
  rewrite rev_app_distr. simpl.
  destruct (N.eqb_spec c x) as [->|Hx]; [now destruct (H s)|].
  now rewrite <- (rev_involutive s) at 2.
Qed.

(** *** The markup steps leave a text without backslash alone *)

Lemma not_In_no_backslash s : ~ In c_backslash s -> no_backslash s.
Proof.
  intros H. apply Forall_forall. intros c Hc.
  destruct (N.eqb_spec c c_backslash); [subst; tauto|reflexivity].
Qed.

Lemma m_frac_head c r : (c =? c_backslash)%N = false -> m_frac (c :: r) = None.
Proof.
  intros H. unfold m_frac.
  change (lit "\frac{") with (c_backslash :: lit "frac{").
  cbn [m_lit]. rewrite N.eqb_sym. now rewrite H.
Qed.

Lemma m_literal_head p new old c r :
  old = c_backslash :: p ->
  (c =? c_backslash)%N = false -> m_literal old new (c :: r) = None.
Proof.
  intros -> H. unfold m_literal. cbn [starts_with].
  rewrite N.eqb_sym. now rewrite H.
Qed.

Lemma m_escape_head c r : (c =? c_backslash)%N = false -> m_escape (c :: r) = None.
Proof. intros H. unfold m_escape. now rewrite H. Qed.

Lemma replace_markup_id p old new s :
  old = c_backslash :: p -> no_backslash s -> replace old new s = s.
Proof.
  intros Ho H. unfold replace, sub.
  apply scan_no_match with (bad := fun c => (c =? c_backslash)%N); auto.
  intros c r Hc. now apply m_literal_head with (p := p).
Qed.

Lemma markup_steps_id s :
  no_backslash s ->
  remove_escapes
    (rewrite_cdot (rewrite_div (rewrite_times (rewrite_fractions s)))) = s.
Proof.
  intros H.
  assert (E1 : rewrite_fractions s = s).
  { unfold rewrite_fractions, sub.
    apply scan_no_match with (bad := fun c => (c =? c_backslash)%N); auto.
    apply m_frac_head. }
  assert (E2 : rewrite_times s = s).
  { unfold rewrite_times.
    rewrite (@replace_markup_id (lit "times") (lit "\times")) by auto.
    now rewrite (@replace_markup_id (lit "\times") (lit "\\times")). }
  assert (E3 : rewrite_div s = s).
  { unfold rewrite_div.
    rewrite (@replace_markup_id (lit "div") (lit "\div")) by auto.
    now rewrite (@replace_markup_id (lit "\div") (lit "\\div")). }
  assert (E4 : rewrite_cdot s = s).
  { unfold rewrite_cdot.
    now rewrite (@replace_markup_id (lit "cdot") (lit "\cdot")). }
  assert (E5 : remove_escapes s = s).
  { unfold remove_escapes, sub.
    apply scan_no_match with (bad := fun c => (c =? c_backslash)%N); auto.
    apply m_escape_head. }
  now rewrite E1, E2, E3, E4, E5.
Qed.

(** *** No dollar sign in a sanitized text *)

Lemma m_int_chars s g r :
  m_int s = Some (g, r) ->
  Forall (fun c => c = c_minus \/ is_digit c = true) g.
Proof.
  unfold m_int.
  set (sr := match s with
             | c :: r0 => if (c =? c_minus)%N then ([c_minus], r0) else ([], s)
             | [] => ([], s)
             end).
  assert (Hs : Forall (fun c => c = c_minus \/ is_digit c = true) (fst sr)).
  { subst sr. destruct s as [|c r0]; simpl; auto.
    destruct (c =? c_minus)%N; simpl; auto. }
  destruct sr as [sign r1]. simpl in Hs.
  pose proof (take_while_all is_digit r1) as Hd.
  destruct (take_while is_digit r1) eqn:E; [discriminate|].
  intros H. injection H as <- _.
  apply Forall_app. split; auto.
  eapply Forall_impl; [|exact Hd]. auto.
Qed.

Lemma In_rewrite_fractions s x :
  In x (rewrite_fractions s) ->
  In x s \/ x = c_minus \/ x = c_slash \/ is_digit x = true.
Proof.
  intros H. apply In_scan in H. destruct H as [H|(t & out & n & E & H)]; auto.
  right. unfold m_frac in E.
  destruct (m_lit (lit "\frac{") t) as [r1|]; [|discriminate].
  destruct (m_int r1) as [[num r2]|] eqn:E1; [|discriminate].
  destruct (m_lit (lit "}{") r2) as [r3|]; [|discriminate].
  destruct (m_int r3) as [[den r4]|] eqn:E2; [|discriminate].
  destruct (m_lit (lit "}") r4) as [r5|]; [|discriminate].
  injection E as <- _.
  apply m_int_chars in E1, E2. rewrite Forall_forall in E1, E2.
  apply in_app_or in H. destruct H as [H|H]; [apply E1 in H; tauto|].
  destruct H as [H|H]; [auto|apply E2 in H; tauto].
Qed.

Lemma sanitize_text_str_no_dollar s : ~ In c_dollar (sanitize_text_str s).
Proof.
  unfold sanitize_text_str. intros H.
  apply In_collapse_spaces in H. destruct H as [H|H]; [|discriminate].
  apply In_space_operators in H.
  destruct H as [H|[H|H]]; [|discriminate|discriminate].
  unfold strip_equals in H. apply In_strip, In_rstrip_char, In_rstrip in H.
  unfold remove_escapes in H. apply In_scan in H.
  destruct H as [H|(t & out & n & E & H)].
  2:{ unfold m_escape in E. destruct t as [|c r]; [discriminate|].
      destruct (c =? c_backslash)%N; [|discriminate].
      injection E as <- _. destruct H. }
  unfold rewrite_cdot in H.
  apply In_replace in H. destruct H as [H|[H|[]]]; [|discriminate].
  unfold rewrite_div in H.
  apply In_replace in H. destruct H as [H|[H|[]]]; [|discriminate].
  apply In_replace in H. destruct H as [H|[H|[]]]; [|discriminate].
  unfold rewrite_times in H.
  apply In_replace in H. destruct H as [H|[H|[]]]; [|discriminate].
  apply In_replace in H. destruct H as [H|[H|[]]]; [|discriminate].
  apply In_rewrite_fractions in H.
  destruct H as [H|[H|[H|H]]]; try discriminate.
  unfold remove_dollars in H. rewrite replace_char in H.
  apply in_flat_map in H. destruct H as (y & _ & H).
  destruct (N.eqb_spec c_dollar y) as [->|Hy]; [destruct H|].
  destruct H as [H|[]]. congruence.
Qed.

(** *** Padding and splitting a sequence of atoms gives it back *)

Lemma pad_non_op w :
  Forall (fun c => is_op c = false) w -> flat_map pad w = w.
Proof.
  induction 1 as [|c w Hc _ IH]; [reflexivity|].
  cbn [flat_map]. unfold pad at 1. now rewrite Hc, IH.
Qed.

Lemma words_pad_unwords ws :
  Forall atom ws -> words (flat_map pad (unwords ws)) = ws.
Proof.
  induction 1 as [|w ws Hw Hws IH]; [reflexivity|].
  pose proof (atom_word Hw) as Hword.
  destruct Hw as (_ & _ & [(c & Hc & ->)|Hf]).
  - pose proof (op_not_space c Hc) as Hs.
    destruct ws as [|w' ws'].
    + cbn [unwords flat_map]. unfold pad. rewrite Hc. cbn [app].
      rewrite words_space by reflexivity.
      change [c; c_space] with ([c] ++ [c_space]).
      now rewrite words_word.
    + change (unwords ([c] :: w' :: ws'))
        with ([c] ++ c_space :: unwords (w' :: ws')).
      rewrite flat_map_app. cbn [flat_map]. unfold pad at 1 2.
      rewrite Hc. change (is_op c_space) with false. cbn [app].
      rewrite words_space by reflexivity.
      change (c :: c_space :: c_space :: flat_map pad (unwords (w' :: ws')))
        with ([c] ++ c_space :: c_space :: flat_map pad (unwords (w' :: ws'))).
      rewrite words_word by auto.
      now rewrite !words_space, IH by reflexivity.
  - destruct ws as [|w' ws'].
    + cbn [unwords]. rewrite pad_non_op by assumption.
      rewrite <- (app_nil_r w) at 1. now rewrite words_word.
    + change (unwords (w :: w' :: ws'))
        with (w ++ c_space :: unwords (w' :: ws')).
      rewrite flat_map_app, pad_non_op by assumption.
      cbn [flat_map]. unfold pad at 1. change (is_op c_space) with false.
      cbn [app]. rewrite words_word by auto.
      now rewrite words_space, IH by reflexivity.
Qed.

Lemma sanitize_text_str_id out ws :
  Forall atom ws -> out = unwords ws ->
  ~ In c_backslash out -> ~ In c_dollar out ->
  lstrip out = out -> rstrip out = out ->
  (forall b, out <> b ++ [c_equals]) ->
  sanitize_text_str out = out.
Proof.
  intros Hws Eo Hb Hd Hl Hr Heq.
  unfold sanitize_text_str.
  assert (E1 : strip out = out) by (unfold strip; now rewrite Hr, Hl).
  rewrite E1.
  assert (E2 : remove_dollars out = out).
  { unfold remove_dollars, replace, sub.
    apply scan_no_match with (bad := fun c => (c_dollar =? c)%N).
    - intros c r Hc. unfold m_literal. cbn [starts_with]. now rewrite Hc.
    - apply Forall_forall. intros c Hc.
      destruct (N.eqb_spec c_dollar c); [subst; tauto|reflexivity]. }
  rewrite E2, markup_steps_id by now apply not_In_no_backslash.
  assert (E3 : strip_equals out = out).
  { unfold strip_equals. now rewrite Hr, rstrip_char_id. }
  rewrite E3, collapse_spaces_words, space_operators_pad.
  subst out. now rewrite words_pad_unwords.
Qed.

(** A sanitized text that does not end in [=] is a fixed point. *)
Lemma sanitize_text_str_fixed s :
  (forall b, sanitize_text_str s <> b ++ [c_equals]) ->
  sanitize_text_str (sanitize_text_str s) = sanitize_text_str s.
Proof.
  intros Heq.
  destruct (sanitize_text_str_atoms s) as (ws & Hws & Eu).
  apply (@sanitize_text_str_id _ ws Hws Eu).
  - apply sanitize_text_str_no_backslash.
  - apply sanitize_text_str_no_dollar.
  - unfold sanitize_text_str, collapse_spaces. apply strip_stripped.
  - unfold sanitize_text_str, collapse_spaces. apply strip_stripped.
  - exact Heq.
Qed.

(** C9, as the code has it. [sanitize_text] is idempotent on every input
    whose sanitized text does not end in [=]: a second pass changes
    nothing. *)
Theorem C9_idempotent_unless_trailing_equals :
  forall s : value,
    (forall b, sanitize_text s <> b ++ [c_equals]) ->
    sanitize_text (VStr (sanitize_text s)) = sanitize_text s.
Proof.
  intros s H. destruct s as [|s|n|x].
  - reflexivity.
  - apply (sanitize_text_str_fixed s H).
  - apply (sanitize_text_str_fixed (py_str (VInt n)) H).
  - apply (sanitize_text_str_fixed (py_str (VFloat x)) H).
Qed.

Lemma C9_witness :
  (forall b, sanitize_text (VStr (lit "2+3 =")) <> b ++ [c_equals])
  /\ sanitize_text (VStr (sanitize_text (VStr (lit "2+3 ="))))
     = sanitize_text (VStr (lit "2+3 =")).
Proof.
  assert (H : forall b, sanitize_text (VStr (lit "2+3 =")) <> b ++ [c_equals]).
  { intros b E. apply (f_equal (@rev char)) in E.
    rewrite rev_app_distr in E. vm_compute in E. discriminate. }
  split; [exact H|].
  apply (C9_idempotent_unless_trailing_equals (VStr (lit "2+3 =")) H).
Defined.

(** C9 as stated fails: the run of [=] is stripped before the final
    stripping of whitespace, so an [=] that was followed by spaces and more
    [=] survives the first pass and goes in the second. *)
Lemma C9_counterexample :
  sanitize_text (VStr (lit "x = =")) = lit "x ="
  /\ sanitize_text (VStr (sanitize_text (VStr (lit "x = =")))) = lit "x"
  /\ sanitize_text (VStr (sanitize_text (VStr (lit "x = ="))))
     <> sanitize_text (VStr (lit "x = =")).
Proof.
  repeat split; try (vm_compute; reflexivity).
  vm_compute. discriminate.
Qed.

(** ** The orchestration loop *)

Section Loops.

Variable service : str -> reply.
Variable func : str -> nat -> outcome (value * value).

(** An invariant of the state that every turn keeps, or an escape condition
    on the exception that every raising turn meets, holds of a whole loop. *)
Lemma for_each_inv {A} (I : state -> Prop) (R : exn -> Prop)
      (body : state -> A -> outcome state) xs :
  (forall st x, I st ->
     match body st x with Ok st' => I st' | Raise e => R e end) ->
  forall st, I st ->
    match for_each body xs st with Ok st' => I st' | Raise e => R e end.
Proof.
  intros Hb. induction xs as [|x xs IH]; intros st Hst; [exact Hst|].
  cbn [for_each]. specialize (Hb st x Hst).
  destruct (body st x) as [st'|e]; [apply IH, Hb|exact Hb].
Qed.

Lemma local_step_inv op st i :
  all_float st ->
  match local_step func op st i with
  | Ok st' => all_float st'
  | Raise e => escapes e
  end.
Proof.
  intros Hst. unfold local_step.
  assert (Hb : match local_body func op i st with
               | Ok st' => all_float st'
               | Raise _ => True
               end).
  { unfold local_body. destruct (func op i) as [[q_text q_answer]|e]; simpl; auto.
    destruct (sanitize_answer q_answer) as [[x|]|e]; simpl; auto.
    unfold all_float. simpl. apply Forall_app. split; auto.
    constructor; [|constructor].
    now exists (sanitize_text q_text), op, x. }
  destruct (local_body func op i st) as [st'|e]; auto.
  destruct (is_Exception e) eqn:E; auto.
Qed.

Lemma local_mode_floats per_op :
  match generate_questions service func false per_op with
  | Ok qs => Forall has_float_answer qs
  | Raise e => is_Exception e = false
  end.
Proof.
  unfold generate_questions.
  pose proof (@for_each_inv str all_float escapes
                (fun st op =>
                   for_each (local_step func op) (seq 0 (Z.to_nat per_op)) st)
                operations) as H.
  match goal with
  | |- match bind ?c _ with _ => _ end =>
      assert (Hc : match c with Ok st => all_float st | Raise e => escapes e end)
  end.
  { apply H.
    - intros st op Hst. apply for_each_inv; auto.
      intros st' i Hst'. now apply local_step_inv.
    - constructor. }
  match type of Hc with
  | match ?c with _ => _ end => destruct c as [st|e]; simpl; auto
  end.
Qed.

End Loops.

Open Scope Z_scope.

(** ** Character classes *)

Lemma digit_in_bound zs c d : digit_in zs c = Some d -> (d < 10)%N.
Proof.
  induction zs as [|z zs IH]; simpl; [discriminate|].
  unfold in_range. destruct ((z <=? c) && (c <=? z + 9))%N eqn:E; auto.
  apply andb_true_iff in E. destruct E as [E1 E2].
  apply N.leb_le in E1, E2. intros H. injection H as <-. lia.
Qed.

Lemma digit_value_bound c d : digit_value c = Some d -> (d < 10)%N.
Proof. apply digit_in_bound. Qed.

Lemma is_space_enum c :
  is_space c = true ->
  In c [9; 10; 11; 12; 13; 28; 29; 30; 31; 32; 133; 160; 5760; 8192; 8193;
        8194; 8195; 8196; 8197; 8198; 8199; 8200; 8201; 8202; 8232; 8233;
        8239; 8287; 12288]%N.
Proof.
  unfold is_space, in_range.
  rewrite !orb_true_iff, !andb_true_iff, !N.leb_le, !N.eqb_eq.
  intros H. simpl.
  assert (E : (c = 9 \/ c = 10 \/ c = 11 \/ c = 12 \/ c = 13 \/ c = 28
               \/ c = 29 \/ c = 30 \/ c = 31 \/ c = 32 \/ c = 133 \/ c = 160
               \/ c = 5760 \/ c = 8192 \/ c = 8193 \/ c = 8194 \/ c = 8195
               \/ c = 8196 \/ c = 8197 \/ c = 8198 \/ c = 8199 \/ c = 8200
               \/ c = 8201 \/ c = 8202 \/ c = 8232 \/ c = 8233 \/ c = 8239
               \/ c = 8287 \/ c = 12288)%N) by lia.
  clear H. intuition auto 40.
Qed.

Lemma digit_not_space c : is_digit c = true -> is_space c = false.
Proof.
  intros Hd. destruct (is_space c) eqn:Hs; auto.
  apply is_space_enum in Hs. simpl in Hs.
  repeat (destruct Hs as [<-|Hs]; [vm_compute in Hd; discriminate|]).
  destruct Hs.
Qed.

Lemma space_not_digit c : is_space c = true -> is_digit c = false.
Proof.
  intros Hs. destruct (is_digit c) eqn:Hd; auto.
  apply digit_not_space in Hd. congruence.
Qed.

(** A character of a class is not a given character outside it. *)
Lemma class_excludes (p : char -> bool) k c :
  p k = false -> p c = true -> (k =? c)%N = false.
Proof. intros Hk Hc. destruct (N.eqb_spec k c); congruence. Qed.

(** ** Prefixes of one class *)

Lemma take_while_app p (a b : str) :
  forallb p a = true ->
  match b with c :: _ => p c = false | [] => True end ->
  take_while p (a ++ b) = a /\ drop_while p (a ++ b) = b.
Proof.
  intros Ha Hb. induction a as [|x a IH]; simpl in *.
  - destruct b as [|c b]; simpl; auto. now rewrite Hb.
  - apply andb_true_iff in Ha. destruct Ha as [Hx Ha]. rewrite Hx.
    destruct (IH Ha) as [-> ->]. auto.
Qed.

Lemma all_digits_forallb s : all_digits s = true -> forallb is_digit s = true /\ s <> [].
Proof. destruct s; [discriminate|]. simpl. intros H. split; [auto|discriminate]. Qed.

Lemma replace_absent c0 p new s :
  Forall (fun c => (c0 =? c)%N = false) s -> replace (c0 :: p) new s = s.
Proof.
  intros H. unfold replace, sub.
  apply scan_no_match with (bad := fun c => (c0 =? c)%N); auto.
  intros c r Hc. unfold m_literal. cbn [starts_with]. now rewrite Hc.
Qed.

Lemma lstrip_id s :
  match s with c :: _ => is_space c = false | [] => True end -> lstrip s = s.
Proof. apply drop_while_none. Qed.

Lemma rstrip_id p x : is_space x = false -> rstrip (p ++ [x]) = p ++ [x].
Proof.
  intros H. unfold rstrip. rewrite rev_app_distr. simpl. rewrite H.
  now rewrite <- (rev_involutive p) at 2.
Qed.

Lemma fold_digits_nonneg l acc :
  0 <= acc -> 0 <= fold_left (fun acc d => 10 * acc + Z.of_N d) l acc.
Proof.
  revert acc. induction l as [|d l IH]; intros acc Ha; [exact Ha|].
  cbn [fold_left]. apply IH. pose proof (N2Z.is_nonneg d). lia.
Qed.

Lemma value_of_digits_nonneg l : 0 <= value_of_digits l.
Proof. apply fold_digits_nonneg. lia. Qed.

(** ** The fraction rule *)

Section FractionForm.

Variables (neg : bool) (nd w1 w2 dd : str).
Hypothesis Hnd : all_digits nd = true.
Hypothesis Hdd : all_digits dd = true.
Hypothesis Hw1 : forallb is_space w1 = true.
Hypothesis Hw2 : forallb is_space w2 = true.

Let sign : str := if neg then [c_minus] else [].
Let s : str := sign ++ nd ++ w1 ++ [c_slash] ++ w2 ++ dd.

(** The characters of a string of the fraction form. *)
Let fraction_char (c : char) : Prop :=
  c = c_minus \/ is_digit c = true \/ is_space c = true \/ c = c_slash.

Lemma fraction_chars : Forall fraction_char s.
Proof.
  destruct (all_digits_forallb _ Hnd) as [Hn _].
  destruct (all_digits_forallb _ Hdd) as [Hd _].
  rewrite forallb_forall in Hn, Hd, Hw1, Hw2.
  apply Forall_forall. intros c Hc. unfold fraction_char.
  unfold s, sign in Hc. rewrite !in_app_iff in Hc.
  destruct Hc as [Hc|[Hc|[Hc|[Hc|[Hc|Hc]]]]]; auto.
  - destruct neg; simpl in Hc; intuition.
  - simpl in Hc. intuition.
Qed.

Lemma fraction_lacks k :
  k <> c_minus -> is_digit k = false -> is_space k = false -> k <> c_slash ->
  Forall (fun c => (k =? c)%N = false) s.
Proof.
  intros H1 H2 H3 H4. eapply Forall_impl; [|apply fraction_chars].
  intros c [->|[Hc|[Hc| ->]]].
  - now apply N.eqb_neq.
  - now apply class_excludes with (p := is_digit).
  - now apply class_excludes with (p := is_space).
  - now apply N.eqb_neq.
Qed.

Lemma fraction_head_not_space :
  match s with c :: _ => is_space c = false | [] => True end.
Proof.
  unfold s, sign. destruct neg; simpl; [reflexivity|].
  destruct nd as [|c r]; [discriminate|]. simpl in *.
  apply andb_true_iff in Hnd. now apply digit_not_space.
Qed.

Lemma fraction_strip : strip s = s.
Proof.
  destruct (all_digits_forallb _ Hdd) as [Hd Hne].
  destruct (exists_last Hne) as (p & x & E).
  assert (Hx : is_space x = false).
  { apply digit_not_space. rewrite forallb_forall in Hd. apply Hd.
    rewrite E. apply in_or_app. right. now left. }
  assert (Es : s = (sign ++ nd ++ w1 ++ [c_slash] ++ w2 ++ p) ++ [x]).
  { unfold s. rewrite E. now rewrite <- !app_assoc. }
  unfold strip. rewrite Es at 1. rewrite rstrip_id by assumption.
  rewrite <- Es. apply lstrip_id, fraction_head_not_space.
Qed.

Lemma fraction_candidate : answer_candidate (VStr s) = s.
Proof.
  unfold answer_candidate. cbn [py_str]. rewrite fraction_strip.
  rewrite (@replace_absent c_dollar []) by (apply fraction_lacks; easy).
  change (lit "\,") with (c_backslash :: lit ",").
  rewrite (@replace_absent c_backslash (lit ",")) by (apply fraction_lacks; easy).
  apply replace_absent, fraction_lacks; easy.
Qed.

Lemma fraction_no_comma : replace [c_comma] [] s = s.
Proof. apply replace_absent, fraction_lacks; easy. Qed.

(** What follows the numerator's digits is not a digit. *)
Lemma after_numerator :
  match w1 ++ [c_slash] ++ w2 ++ dd with
  | c :: _ => is_digit c = false
  | [] => True
  end.
Proof.
  destruct w1 as [|c r]; simpl; [reflexivity|].
  simpl in Hw1. apply andb_true_iff in Hw1. now apply space_not_digit.
Qed.

Lemma fraction_not_plain : fullmatch_plain s = false.
Proof.
  destruct (all_digits_forallb _ Hnd) as [Hn Hne].
  unfold fullmatch_plain, parse_plain.
  assert (E : split_sign true s = (neg, nd ++ w1 ++ [c_slash] ++ w2 ++ dd)).
  { unfold s, sign. destruct neg; [reflexivity|].
    destruct nd as [|c r]; [congruence|]. simpl in *.
    apply andb_true_iff in Hn. destruct Hn as [Hc _].
    rewrite (N.eqb_sym c c_minus), (N.eqb_sym c c_plus).
    rewrite (@class_excludes is_digit c_minus c), (@class_excludes is_digit c_plus c);
      auto. }
  rewrite E.
  destruct (take_while_app is_digit nd _ Hn after_numerator) as [-> ->].
  destruct nd as [|c0 r0]; [congruence|].
  destruct w1 as [|c r]; simpl.
  - reflexivity.
  - simpl in Hw1. apply andb_true_iff in Hw1. destruct Hw1 as [Hc _].
    rewrite (N.eqb_sym c c_dot).
    now rewrite (@class_excludes is_space c_dot c).
Qed.

Lemma fraction_groups : fullmatch_fraction s = Some (sign ++ nd, dd).
Proof.
  destruct (all_digits_forallb _ Hnd) as [Hn Hne].
  unfold fullmatch_fraction.
  assert (E : m_int s = Some (sign ++ nd, w1 ++ [c_slash] ++ w2 ++ dd)).
  { unfold m_int.
    assert (E' : match s with
                 | c :: r => if (c =? c_minus)%N then ([c_minus], r) else ([], s)
                 | [] => ([], s)
                 end = (sign, nd ++ w1 ++ [c_slash] ++ w2 ++ dd)).
    { unfold s, sign. destruct neg; [reflexivity|].
      destruct nd as [|c r]; [congruence|]. simpl in *.
      apply andb_true_iff in Hn. destruct Hn as [Hc _].
      rewrite (N.eqb_sym c c_minus).
      now rewrite (@class_excludes is_digit c_minus c). }
    rewrite E'.
    destruct (take_while_app is_digit nd _ Hn after_numerator) as [-> ->].
    destruct nd; [congruence|reflexivity]. }
  rewrite E.
  assert (E1 : drop_while is_space (w1 ++ [c_slash] ++ w2 ++ dd)
               = [c_slash] ++ w2 ++ dd).
  { apply take_while_app; [assumption|reflexivity]. }
  rewrite E1. cbn [app]. rewrite N.eqb_refl.
  assert (E2 : drop_while is_space (w2 ++ dd) = dd).
  { apply take_while_app; [assumption|].
    destruct dd as [|c r]; [trivial|]. simpl in Hdd.
    apply andb_true_iff in Hdd. now apply digit_not_space. }
  now rewrite E2, Hdd.
Qed.

Lemma py_int_digits (sg : bool) (ds : str) :
  all_digits ds = true ->
  py_int ((if sg then [c_minus] else []) ++ ds)
  = if (max_str_digits <? List.length ds)%nat then Raise ValueError
    else Ok (if sg then - value_of_digits (digit_values ds)
             else value_of_digits (digit_values ds)).
Proof.
  intros H. unfold py_int.
  assert (E : split_sign true ((if sg then [c_minus] else []) ++ ds) = (sg, ds)).
  { destruct sg; [reflexivity|].
    destruct ds as [|c r]; [discriminate|]. simpl in *.
    apply andb_true_iff in H. destruct H as [Hc _].
    rewrite (N.eqb_sym c c_minus), (N.eqb_sym c c_plus).
    rewrite (@class_excludes is_digit c_minus c), (@class_excludes is_digit c_plus c);
      auto. }
  now rewrite E, H.
Qed.

Lemma sanitize_answer_fraction :
  sanitize_answer (VStr s)
  = let num := if neg then - value_of_digits (digit_values nd)
               else value_of_digits (digit_values nd) in
    let den := value_of_digits (digit_values dd) in
    if ((max_str_digits <? List.length nd)
        || (max_str_digits <? List.length dd))%nat
    then Raise ValueError
    else if (den =? 0)%Z then Ok None else x <- truediv num den ;; Ok (Some x).
Proof.
  unfold sanitize_answer.
  rewrite fraction_candidate, fraction_no_comma, fraction_not_plain,
    fraction_groups.
  unfold sign. rewrite py_int_digits by assumption.
  pose proof (py_int_digits false dd Hdd) as Hd2. cbn [app] in Hd2.
  rewrite Hd2.
  destruct (max_str_digits <? List.length nd)%nat;
    destruct (max_str_digits <? List.length dd)%nat; reflexivity.
Qed.

End FractionForm.

Lemma replace_comma_filter s :
  replace [c_comma] [] s = filter (fun c => negb (c_comma =? c)%N) s.
Proof.
  rewrite replace_char. induction s as [|c s IH]; [reflexivity|].
  cbn [flat_map filter].
  destruct (c_comma =? c)%N; cbn [negb app]; [exact IH|f_equal; exact IH].
Qed.

(** C10. The plain candidate is the candidate string without any of its
    commas, wherever they stand; when it matches the plain-number rule the
    answer is its float, so ["1,2,3"] parses to 123.0
    ([8655355533852672 * 2 ^ (-46)]). *)
Theorem C10_commas_removed_anywhere :
  (forall s, replace [c_comma] [] s = filter (fun c => negb (c_comma =? c)%N) s)
  /\ (forall a : value,
        a <> VNone ->
        fullmatch_plain (replace [c_comma] [] (answer_candidate a)) = true ->
        sanitize_answer a
        = x <- py_float (replace [c_comma] [] (answer_candidate a)) ;;
          Ok (Some x))
  /\ sanitize_answer (VStr (lit "1,2,3"))
     = Ok (Some (S754_finite false 8655355533852672 (-46)))
  /\ 8655355533852672 = 123 * 2 ^ 46.
Proof.
  split; [apply replace_comma_filter|].
  split; [|split; [vm_compute; reflexivity|reflexivity]].
  intros a Ha H. unfold sanitize_answer.
  destruct a; [congruence| | |]; now rewrite H.
Qed.

Lemma C10_witness :
  VStr (lit "1,2,3") <> VNone
  /\ fullmatch_plain (replace [c_comma] [] (answer_candidate (VStr (lit "1,2,3"))))
     = true
  /\ sanitize_answer (VStr (lit "1,2,3"))
     = x <- py_float (replace [c_comma] [] (answer_candidate (VStr (lit "1,2,3")))) ;;
       Ok (Some x).
Proof.
  split; [discriminate|]. split; [reflexivity|].
  apply (proj1 (proj2 C10_commas_removed_anywhere)); [discriminate|reflexivity].
Defined.

(** ** Correct rounding *)

Lemma pow2_pos x : 0 <= x -> 0 < 2 ^ x.
Proof. intros. now apply Z.pow_pos_nonneg. Qed.

Lemma up_pos e : 0 < up e.
Proof. apply pow2_pos. lia. Qed.

Lemma dn_pos e : 0 < dn e.
Proof. apply pow2_pos. lia. Qed.

Lemma up_dn K e : 0 <= K -> 0 <= K + e -> dn e * 2 ^ (K + e) = up e * 2 ^ K.
Proof.
  intros HK HKe. unfold up, dn.
  destruct (Z.max_spec e 0) as [[H1 ->]|[H1 ->]];
    destruct (Z.max_spec (- e) 0) as [[H2 ->]|[H2 ->]]; try lia.
  - rewrite <- Z.pow_add_r by lia. rewrite Z.pow_0_r.
    replace (- e + (K + e)) with K by lia. lia.
  - rewrite Z.pow_0_r, Z.pow_add_r by lia. lia.
  - replace e with 0 by lia. rewrite Z.add_0_r. reflexivity.
Qed.

Lemma mul_pow2_lt a b K : 0 <= K -> a * 2 ^ K < b * 2 ^ K <-> a < b.
Proof.
  intros HK. pose proof (pow2_pos HK). split; intros; nia.
Qed.

(** [below_pow2] in a form without negative exponents. *)
Lemma below_pow2_shift a b e K :
  0 <= K -> 0 <= K + e ->
  below_pow2 a b e = true <-> a * 2 ^ K < b * 2 ^ (K + e).
Proof.
  intros HK HKe. unfold below_pow2.
  destruct (Z.leb_spec 0 e) as [He|He].
  - rewrite Z.ltb_lt, Z.pow_add_r by lia.
    rewrite (Z.mul_comm (2 ^ K)), Z.mul_assoc. now rewrite mul_pow2_lt.
  - rewrite Z.ltb_lt.
    replace K with (- e + (K + e)) at 1 by lia.
    rewrite Z.pow_add_r, Z.mul_assoc by lia. now rewrite mul_pow2_lt.
Qed.

(** The specification of [mag2]: [2 ^ (e - 1) <= a / b < 2 ^ e]. *)
Lemma mag2_spec a b K :
  0 < a -> 0 < b -> 0 <= K -> 0 <= K + mag2 a b - 1 ->
  b * 2 ^ (K + mag2 a b - 1) <= a * 2 ^ K < b * 2 ^ (K + mag2 a b).
Proof.
  intros Ha Hb HK. unfold mag2.
  destruct (Z.log2_spec a Ha) as [Ha1 Ha2].
  destruct (Z.log2_spec b Hb) as [Hb1 Hb2].
  pose proof (Z.log2_nonneg a) as Hla. pose proof (Z.log2_nonneg b) as Hlb.
  set (la := Z.log2 a) in *. set (lb := Z.log2 b) in *.
  pose proof (pow2_pos HK) as HpK.
  destruct (below_pow2 a b (la - lb)) eqn:E; intros HKe.
  - apply below_pow2_shift with (K := K) in E; try lia. split; [|exact E].
    assert (H1 : b * 2 ^ (K + (la - lb) - 1) < 2 ^ Z.succ lb * 2 ^ (K + (la - lb) - 1)).
    { apply Z.mul_lt_mono_pos_r; [apply pow2_pos; lia|assumption]. }
    rewrite <- Z.pow_add_r in H1 by lia.
    replace (Z.succ lb + (K + (la - lb) - 1)) with (la + K) in H1 by lia.
    rewrite Z.pow_add_r in H1 by lia. nia.
  - assert (HKe' : 0 <= K + (la - lb)) by lia.
    assert (E' : ~ a * 2 ^ K < b * 2 ^ (K + (la - lb))).
    { rewrite <- below_pow2_shift by lia. congruence. }
    replace (K + (la - lb + 1) - 1) with (K + (la - lb)) by lia.
    split; [lia|].
    assert (H1 : 2 ^ lb * 2 ^ (K + (la - lb + 1)) <= b * 2 ^ (K + (la - lb + 1))).
    { apply Z.mul_le_mono_nonneg_r; [apply Z.lt_le_incl, pow2_pos; lia|assumption]. }
    rewrite <- Z.pow_add_r in H1 by lia.
    replace (lb + (K + (la - lb + 1))) with (Z.succ la + K) in H1 by lia.
    rewrite Z.pow_add_r in H1 by lia. nia.
Qed.

Lemma pow2_le_mono x y : 0 <= x <= y -> 2 ^ x <= 2 ^ y.
Proof. intros. apply Z.pow_le_mono_r; lia. Qed.

(** The bounds determine the magnitude. *)
Lemma mag2_unique a b e K :
  0 < a -> 0 < b -> 0 <= K -> 0 <= K + e - 1 ->
  b * 2 ^ (K + e - 1) <= a * 2 ^ K < b * 2 ^ (K + e) ->
  mag2 a b = e.
Proof.
  intros Ha Hb HK HKe [H1 H2].
  set (e' := mag2 a b).
  set (J := Z.abs e' + 1).
  assert (HJ : 0 <= J) by (unfold J; lia).
  destruct (@mag2_spec a b (K + J) Ha Hb) as [H3 H4];
    [lia|fold e'; unfold J; lia|]. fold e' in H3, H4.
  pose proof (pow2_pos HJ) as HpJ.
  assert (H1' : b * 2 ^ (K + J + e - 1) <= a * 2 ^ (K + J)).
  { replace (K + J + e - 1) with ((K + e - 1) + J) by lia.
    rewrite !Z.pow_add_r by lia. nia. }
  assert (H2' : a * 2 ^ (K + J) < b * 2 ^ (K + J + e)).
  { replace (K + J + e) with ((K + e) + J) by lia.
    rewrite !Z.pow_add_r by lia. nia. }
  destruct (Z.lt_trichotomy e' e) as [Hlt|[Heq|Hgt]]; [|exact Heq|].
  - exfalso.
    assert (2 ^ (K + J + e') <= 2 ^ (K + J + e - 1))
      by (apply pow2_le_mono; unfold J; lia).
    nia.
  - exfalso.
    assert (2 ^ (K + J + e) <= 2 ^ (K + J + e' - 1))
      by (apply pow2_le_mono; unfold J; lia).
    nia.
Qed.

Lemma mag2_scale a b c : 0 < a -> 0 < b -> 0 < c -> mag2 (a * c) (b * c) = mag2 a b.
Proof.
  intros Ha Hb Hc.
  set (K := Z.abs (mag2 a b) + 1).
  destruct (@mag2_spec a b K Ha Hb) as [H1 H2]; [unfold K; lia..|].
  apply mag2_unique with (K := K);
    [nia|nia|unfold K; lia|unfold K; lia|split; nia].
Qed.

(** *** Rounding a quotient to the nearest integer *)

Lemma round_div_bounds n d :
  0 < d ->
  let m := round_div n d in
  n / d <= m <= n / d + 1
  /\ (m = n / d + 1 -> d <= 2 * (n mod d))
  /\ (m = n / d -> 2 * (n mod d) <= d).
Proof.
  intros Hd. unfold round_div. cbv zeta.
  destruct (Z.compare_spec (2 * (n mod d)) d) as [E|E|E].
  - destruct (Z.even (n / d)); lia.
  - lia.
  - lia.
Qed.

Lemma round_div_exact q d : 0 < d -> round_div (q * d) d = q.
Proof.
  intros Hd. unfold round_div.
  rewrite Z.div_mul, Z.mod_mul by lia.
  destruct (Z.compare_spec (2 * 0) d); lia.
Qed.

Lemma round_div_scale n d c :
  0 < d -> 0 < c -> round_div (n * c) (d * c) = round_div n d.
Proof.
  intros Hd Hc. unfold round_div.
  rewrite Z.div_mul_cancel_r, Z.mul_mod_distr_r by lia.
  destruct (Z.compare_spec (2 * (n mod d)) d) as [E|E|E];
    destruct (Z.compare_spec (2 * (n mod d * c)) (d * c)) as [E'|E'|E'];
    try reflexivity; nia.
Qed.

(** *** The significand of a rounded quotient *)

Lemma scaled_quotient_bounds a b :
  0 < a -> 0 < b ->
  let e1 := mag2 a b in
  let ex := Z.max (e1 - prec) emin in
  let n := a * dn ex in
  let d := b * up ex in
  0 < d /\ 0 <= n /\ n < d * 2 ^ prec
  /\ (ex = e1 - prec -> d * 2 ^ (prec - 1) <= n).
Proof.
  intros Ha Hb e1 ex n d.
  pose proof (up_pos ex) as HU. pose proof (dn_pos ex) as HD.
  assert (Hd : 0 < d) by (unfold d; nia).
  assert (Hn : 0 <= n) by (unfold n; nia).
  split; [exact Hd|]. split; [exact Hn|].
  set (K := Z.abs e1 + Z.abs ex + 1).
  assert (HK : 0 <= K) by (unfold K; lia).
  assert (HKx : 0 <= K + ex) by (unfold K; lia).
  assert (HK1 : 0 <= K + e1 - 1) by (unfold K; lia).
  destruct (@mag2_spec a b K Ha Hb HK HK1) as [H1 H2]. fold e1 in H1, H2.
  pose proof (up_dn ex HK HKx) as E.
  pose proof (pow2_pos HK) as HX. pose proof (pow2_pos HKx) as HP.
  set (X := 2 ^ K) in *. set (P := 2 ^ (K + ex)) in *.
  set (U := up ex) in *. set (D := dn ex) in *.
  assert (Hex : e1 - prec <= ex) by (unfold ex; lia).
  split.
  - assert (HY : 2 ^ (K + e1) <= P * 2 ^ prec).
    { unfold P. rewrite <- Z.pow_add_r by (unfold prec; lia).
      apply pow2_le_mono. unfold prec in *. lia. }
    set (Y := 2 ^ (K + e1)) in *. set (Q := 2 ^ prec) in *.
    assert (HQ : 0 < Q) by (apply pow2_pos; unfold prec; lia).
    unfold n, d. fold U D.
    apply (Z.mul_lt_mono_pos_r P); [exact HP|].
    replace (a * D * P) with (a * X * U) by (rewrite <- (Z.mul_assoc a D P), E; ring).
    apply Z.lt_le_trans with (b * Y * U); [nia|].
    replace (b * U * Q * P) with (b * (P * Q) * U) by ring.
    apply Z.mul_le_mono_nonneg_r; [lia|]. apply Z.mul_le_mono_nonneg_l; lia.
  - intros Hex'.
    assert (HY : 2 ^ (K + e1 - 1) = P * 2 ^ (prec - 1)).
    { unfold P. rewrite <- Z.pow_add_r by (unfold prec; lia).
      f_equal. unfold prec in *. lia. }
    rewrite HY in H1. set (Q := 2 ^ (prec - 1)) in *.
    assert (HQ : 0 < Q) by (apply pow2_pos; unfold prec; lia).
    unfold n, d. fold U D.
    apply (Z.mul_le_mono_pos_r _ _ P); [exact HP|].
    replace (a * D * P) with (a * X * U) by (rewrite <- (Z.mul_assoc a D P), E; ring).
    replace (b * U * Q * P) with (b * (P * Q) * U) by ring.
    apply Z.mul_le_mono_nonneg_r; [lia|exact H1].
Qed.

Lemma round_ratio_unfold neg a b :
  a <> 0 ->
  round_ratio neg a b
  = make_float neg
      (round_div (a * dn (Z.max (mag2 a b - prec) emin))
         (b * up (Z.max (mag2 a b - prec) emin)))
      (Z.max (mag2 a b - prec) emin).
Proof.
  intros Ha. unfold round_ratio. now rewrite (proj2 (Z.eqb_neq a 0) Ha).
Qed.


(** The result of a rounding is in canonical form. *)
Lemma round_ratio_valid neg a b : 0 <= a -> 0 < b -> valid (round_ratio neg a b).
Proof.
  intros Ha Hb. destruct (Z.eq_dec a 0) as [->|Hne]; [exact I|].
  rewrite round_ratio_unfold by assumption.
  assert (Ha' : 0 < a) by lia.
  destruct (scaled_quotient_bounds Ha' Hb) as (Hd & Hn & Hup & Hlo).
  set (ex := Z.max (mag2 a b - prec) emin) in *.
  set (n := a * dn ex) in *. set (d := b * up ex) in *.
  destruct (round_div_bounds n Hd) as (Hm & _ & _).
  set (m := round_div n d) in *.
  assert (Hq1 : n / d < 2 ^ prec) by (apply Z.div_lt_upper_bound; lia).
  assert (Hq0 : 0 <= n / d) by (apply Z.div_pos; lia).
  assert (Hq2 : ex = mag2 a b - prec -> 2 ^ (prec - 1) <= n / d).
  { intros E. apply Z.div_le_lower_bound; [lia|]. specialize (Hlo E). lia. }
  assert (Hex : emin <= ex) by (unfold ex; lia).
  assert (Hex' : ex = emin \/ ex = mag2 a b - prec) by (unfold ex; lia).
  change (2 ^ prec) with 9007199254740992 in *.
  change (2 ^ (prec - 1)) with 4503599627370496 in *.
  unfold make_float. destruct m as [|p|p] eqn:Em; try exact I.
  change (2 ^ prec) with 9007199254740992.
  change (2 ^ (prec - 1)) with 4503599627370496.
  destruct (Z.eqb_spec (Z.pos p) 9007199254740992) as [E|E].
  - destruct (Z.leb_spec (ex + 1) (emax - prec)) as [E1|E1]; [|exact I].
    unfold valid, canonical.
    change (2 ^ prec) with 9007199254740992.
    change (2 ^ (prec - 1)) with 4503599627370496.
    simpl Z.to_pos. unfold emin, emax, prec in *. lia.
  - destruct (Z.leb_spec ex (emax - prec)) as [E1|E1]; [|exact I].
    unfold valid, canonical.
    change (2 ^ prec) with 9007199254740992.
    change (2 ^ (prec - 1)) with 4503599627370496.
    unfold emin, emax, prec in *. lia.
Qed.

Lemma exact_fraction_eq m e : exact_fraction m e = (Zpos m * up e, dn e).
Proof.
  unfold exact_fraction, up, dn.
  destruct (Z.leb_spec 0 e) as [He|He].
  - rewrite Z.max_l, Z.max_r by lia. reflexivity.
  - rewrite Z.max_r, Z.max_l by lia. now rewrite Z.pow_0_r, Z.mul_1_r.
Qed.

(** A float is the rounding of its own value. *)
Lemma round_ratio_exact neg m e :
  canonical m e ->
  round_ratio neg (Zpos m * up e) (dn e) = S754_finite neg m e.
Proof.
  intros (Hm & He & Hc).
  pose proof (up_pos e) as HU. pose proof (dn_pos e) as HD.
  assert (Ha : 0 < Zpos m * up e) by nia.
  rewrite round_ratio_unfold by lia.
  set (L := Z.log2 (Zpos m)).
  destruct (Z.log2_spec (Zpos m) (Pos2Z.is_pos m)) as [HL1 HL2]. fold L in HL1, HL2.
  pose proof (Z.log2_nonneg (Zpos m)) as HL0. fold L in HL0.
  assert (Emag : mag2 (Zpos m * up e) (dn e) = L + 1 + e).
  { set (K := Z.abs e + Z.abs (L + 1 + e) + 1).
    assert (HK : 0 <= K) by (unfold K; lia).
    pose proof (pow2_pos HK) as HX.
    apply mag2_unique with (K := K); try assumption; [unfold K; lia|].
    replace (K + (L + 1 + e) - 1) with ((K + L) + e) by lia.
    replace (K + (L + 1 + e)) with ((K + Z.succ L) + e) by lia.
    rewrite !up_dn by (unfold K; lia).
    rewrite !Z.pow_add_r by lia. split; nia. }
  rewrite Emag.
  assert (Eex : Z.max (L + 1 + e - prec) emin = e).
  { destruct Hc as [Hc| ->].
    - assert (L = prec - 1).
      { apply Z.log2_unique; [unfold prec; lia|].
        replace (Z.succ (prec - 1)) with prec by lia. lia. }
      lia.
    - assert (L < prec).
      { apply Z.log2_lt_pow2; [lia|exact Hm]. }
      lia. }
  rewrite Eex.
  replace (Zpos m * up e * dn e) with (Zpos m * (dn e * up e)) by ring.
  rewrite round_div_exact by nia.
  unfold make_float.
  destruct (Z.eqb_spec (Zpos m) (2 ^ prec)) as [E|E]; [lia|].
  destruct (Z.leb_spec e (emax - prec)); [reflexivity|lia].
Qed.

(** The rounding depends on the value of the fraction only. *)
Lemma round_ratio_scale neg a b c :
  0 <= a -> 0 < b -> 0 < c ->
  round_ratio neg (a * c) (b * c) = round_ratio neg a b.
Proof.
  intros Ha Hb Hc. destruct (Z.eq_dec a 0) as [->|Hne]; [reflexivity|].
  rewrite !round_ratio_unfold by nia.
  rewrite mag2_scale by lia.
  set (ex := Z.max (mag2 a b - prec) emin).
  pose proof (up_pos ex) as HU.
  replace (a * c * dn ex) with (a * dn ex * c) by ring.
  replace (b * c * up ex) with (b * up ex * c) by ring.
  rewrite round_div_scale by nia. reflexivity.
Qed.

Lemma round_ratio_same_value neg a b a' b' :
  0 <= a -> 0 < b -> 0 <= a' -> 0 < b' -> a * b' = a' * b ->
  round_ratio neg a b = round_ratio neg a' b'.
Proof.
  intros Ha Hb Ha' Hb' E.
  rewrite <- (@round_ratio_scale neg a b b') by assumption.
  rewrite <- (@round_ratio_scale neg a' b' b) by assumption.
  rewrite E. f_equal. ring.
Qed.

(** A rounding overflows only from the threshold on. *)
Lemma round_ratio_infinite neg a b s :
  0 <= a -> 0 < b ->
  round_ratio neg a b = S754_infinity s -> overflow_threshold * b <= a.
Proof.
  intros Ha Hb. destruct (Z.eq_dec a 0) as [->|Hne]; [discriminate|].
  rewrite round_ratio_unfold by assumption.
  assert (Ha' : 0 < a) by lia.
  destruct (scaled_quotient_bounds Ha' Hb) as (Hd & Hn & Hup & Hlo).
  set (ex := Z.max (mag2 a b - prec) emin) in *.
  set (n := a * dn ex) in *. set (d := b * up ex) in *.
  destruct (round_div_bounds n Hd) as (Hm & Hm1 & _).
  set (m := round_div n d) in *.
  assert (Hq1 : n / d < 2 ^ prec) by (apply Z.div_lt_upper_bound; lia).
  intros H.
  assert (Hex : (m = 2 ^ prec /\ emax - prec <= ex) \/ emax - prec < ex).
  { revert H. unfold make_float. destruct m as [|p|p]; try discriminate.
    destruct (Z.eqb_spec (Z.pos p) (2 ^ prec)) as [E|E].
    - destruct (Z.leb_spec (ex + 1) (emax - prec)); [discriminate|]. lia.
    - destruct (Z.leb_spec ex (emax - prec)); [discriminate|]. lia. }
  assert (Hx : ex = mag2 a b - prec) by (unfold ex, emin, emax, prec in *; lia).
  specialize (Hlo Hx).
  assert (Hx0 : 0 <= ex) by (unfold emax, prec in *; lia).
  assert (En : n = a).
  { unfold n, dn. rewrite Z.max_r by lia. rewrite Z.pow_0_r. ring. }
  assert (Ed : d = b * 2 ^ ex).
  { unfold d, up. now rewrite Z.max_l by lia. }
  unfold overflow_threshold.
  change (2 ^ 1024) with (2 ^ 54 * 2 ^ 970). set (P := 2 ^ 970).
  assert (HP : 0 < P) by (apply pow2_pos; lia).
  change (2 ^ (prec - 1)) with (2 ^ 52) in Hlo.
  change (2 ^ prec) with (2 ^ 53) in *.
  destruct (Z.eq_dec ex 971) as [E971|E971].
  - assert (Em : m = 2 ^ 53) by (unfold emax, prec in *; lia).
    assert (Ed' : d = b * (2 * P)).
    { rewrite Ed, E971. change (2 ^ 971) with (2 * 2 ^ 970). reflexivity. }
    assert (Eq : n / d = 2 ^ 53 - 1) by lia.
    specialize (Hm1 ltac:(lia)).
    pose proof (Z.div_mod n d ltac:(lia)) as Hdm.
    rewrite Eq in Hdm. rewrite <- En.
    change (2 ^ 53) with 9007199254740992 in *.
    change (2 ^ 54) with 18014398509481984. nia.
  - assert (Hge : 972 <= ex) by (unfold emax, prec in *; lia).
    assert (H972 : 2 * P * 2 <= 2 ^ ex).
    { change (2 * P * 2) with (2 ^ 972). apply pow2_le_mono. lia. }
    rewrite En, Ed in Hlo.
    change (2 ^ 52) with 4503599627370496 in *.
    change (2 ^ 54) with 18014398509481984. nia.
Qed.

(** ** Finiteness of the answers *)





(** ** Decimal digits *)

Lemma pow10_pos x : 0 <= x -> 0 < 10 ^ x.
Proof. intros. now apply Z.pow_pos_nonneg. Qed.

Lemma fold_digits_acc l acc :
  fold_left (fun acc d => 10 * acc + Z.of_N d) l acc
  = acc * 10 ^ Z.of_nat (List.length l) + value_of_digits l.
Proof.
  unfold value_of_digits. revert acc.
  induction l as [|d l IH]; intros acc.
  - simpl. lia.
  - cbn [fold_left List.length]. rewrite IH, (IH (10 * 0 + Z.of_N d)).
    rewrite Nat2Z.inj_succ, Z.pow_succ_r by lia. ring.
Qed.

Lemma value_app l1 l2 :
  value_of_digits (l1 ++ l2)
  = value_of_digits l1 * 10 ^ Z.of_nat (List.length l2) + value_of_digits l2.
Proof.
  unfold value_of_digits at 1. rewrite fold_left_app.
  now rewrite fold_digits_acc.
Qed.

Lemma value_cons d l :
  value_of_digits (d :: l)
  = Z.of_N d * 10 ^ Z.of_nat (List.length l) + value_of_digits l.
Proof. change (d :: l) with ([d] ++ l). rewrite value_app. f_equal. Qed.

Lemma value_zeros j : value_of_digits (repeat 0%N j) = 0.
Proof.
  induction j as [|j IH]; [reflexivity|].
  cbn [repeat]. rewrite value_cons, IH. reflexivity.
Qed.

Lemma digits_aux_spec f n acc :
  (1 <= f)%nat -> 0 <= n < 10 ^ Z.of_nat f -> Forall digit acc ->
  value_of_digits (digits_aux f n acc)
  = n * 10 ^ Z.of_nat (List.length acc) + value_of_digits acc
  /\ Forall digit (digits_aux f n acc)
  /\ digits_aux f n acc <> [].
Proof.
  revert n acc. induction f as [|f IH]; intros n acc Hf Hn Hacc; [lia|].
  cbn [digits_aux]. destruct (Z.ltb_spec n 10) as [H10|H10].
  - split; [|split; [|discriminate]].
    + rewrite value_cons. rewrite Z2N.id by lia. reflexivity.
    + constructor; [unfold digit; lia|assumption].
  - assert (Hf' : (1 <= f)%nat).
    { destruct f; [|lia]. simpl in Hn. lia. }
    assert (Hn' : 0 <= n / 10 < 10 ^ Z.of_nat f).
    { split; [apply Z.div_pos; lia|].
      apply Z.div_lt_upper_bound; [lia|].
      rewrite Nat2Z.inj_succ, Z.pow_succ_r in Hn by lia. lia. }
    assert (Hm : 0 <= n mod 10 < 10) by (apply Z.mod_pos_bound; lia).
    assert (Hacc' : Forall digit (Z.to_N (n mod 10) :: acc)).
    { constructor; [unfold digit; lia|assumption]. }
    destruct (IH (n / 10) _ Hf' Hn' Hacc') as (E & F & Ne).
    split; [|split; assumption].
    rewrite E, value_cons. cbn [List.length].
    rewrite Z2N.id, Nat2Z.inj_succ, Z.pow_succ_r by lia.
    pose proof (Z.div_mod n 10 ltac:(lia)). nia.
Qed.

Lemma digits_spec n :
  0 <= n ->
  value_of_digits (digits n) = n /\ Forall digit (digits n) /\ digits n <> [].
Proof.
  intros Hn. unfold digits.
  assert (Hb : 0 <= n < 10 ^ Z.of_nat (S (Z.to_nat (Z.log2 n)))).
  { split; [assumption|].
    rewrite Nat2Z.inj_succ, Z2Nat.id by apply Z.log2_nonneg.
    destruct (Z.eq_dec n 0) as [->|Hne]; [reflexivity|].
    destruct (Z.log2_spec n ltac:(lia)) as [_ H].
    apply Z.lt_le_trans with (1 := H).
    apply Z.pow_le_mono_l. pose proof (Z.log2_nonneg n). lia. }
  destruct (@digits_aux_spec (S (Z.to_nat (Z.log2 n))) n []) as (E & F & Ne);
    [lia|exact Hb|constructor|].
  split; [|split; assumption]. rewrite E. change (n * 1 + 0 = n). lia.
Qed.

Lemma strip_zeros_spec fuel d j :
  0 < d ->
  let '(d', j') := strip_zeros fuel d j in
  0 < d' /\ j <= j' /\ d = d' * 10 ^ (j' - j).
Proof.
  revert d j. induction fuel as [|fuel IH]; intros d j Hd; cbn [strip_zeros].
  - rewrite Z.sub_diag. simpl. lia.
  - destruct (Z.eqb_spec (d mod 10) 0) as [Hm|Hm]; simpl.
    + destruct (Z.eqb_spec d 0) as [H0|H0]; [lia|]. simpl.
      pose proof (Z.div_mod d 10 ltac:(lia)) as Hdm.
      assert (Hq : 0 < d / 10) by lia.
      specialize (IH (d / 10) (j + 1) Hq).
      destruct (strip_zeros fuel (d / 10) (j + 1)) as [d' j'].
      destruct IH as (H1 & H2 & H3).
      split; [assumption|]. split; [lia|].
      replace (j' - j) with (Z.succ (j' - (j + 1))) by lia.
      rewrite Z.pow_succ_r by lia. lia.
    + rewrite Z.sub_diag. simpl. lia.
Qed.

(** ** The shortest decimal reads back *)

Lemma float_eqb_eq x y : float_eqb x y = true -> x = y.
Proof.
  destruct x, y; simpl; try discriminate; auto.
  - intros H. apply eqb_prop in H. now subst.
  - intros H. apply eqb_prop in H. now subst.
  - rewrite !andb_true_iff. intros [[H1 H2] H3].
    apply eqb_prop in H1. apply Pos.eqb_eq in H2. apply Z.eqb_eq in H3.
    now subst.
Qed.

Lemma scale10_pos a b k :
  0 <= a -> 0 < b -> 0 <= fst (scale10 a b k) /\ 0 < snd (scale10 a b k).
Proof.
  intros Ha Hb. unfold scale10. destruct (Z.leb_spec 0 k); simpl.
  - pose proof (pow10_pos H). split; nia.
  - assert (0 < 10 ^ (- k)) by (apply pow10_pos; lia). split; nia.
Qed.

Lemma candidate_reads_back x neg a b t d :
  0 <= a -> 0 < b ->
  candidate x neg a b t = Some d -> reads_back x neg d t = true /\ 0 <= d.
Proof.
  intros Ha Hb. unfold candidate.
  destruct (scale10_pos (- t) Ha Hb) as [Ha' Hb'].
  destruct (scale10 a b (- t)) as [a' b']. simpl in Ha', Hb'.
  assert (Hlo : 0 <= a' / b') by (apply Z.div_pos; lia).
  destruct (round_div_bounds a' Hb') as (Hm & _ & _).
  destruct (reads_back x neg (a' / b') t) eqn:E1;
    destruct (reads_back x neg (a' / b' + 1) t) eqn:E2;
    intros H; try discriminate; injection H as <-; try (split; [assumption|lia]).
  assert (Hc : round_div a' b' = a' / b' \/ round_div a' b' = a' / b' + 1) by lia.
  destruct Hc as [-> | ->]; split; auto; lia.
Qed.

Lemma shortest_from_reads_back fuel x neg a b t last :
  0 <= a -> 0 < b ->
  reads_back x neg (fst last) (snd last) = true -> 0 <= fst last ->
  reads_back x neg (fst (shortest_from fuel x neg a b t last))
    (snd (shortest_from fuel x neg a b t last)) = true
  /\ 0 <= fst (shortest_from fuel x neg a b t last).
Proof.
  intros Ha Hb Hl1 Hl2. revert t.
  induction fuel as [|fuel IH]; intros t; cbn [shortest_from]; [auto|].
  destruct (candidate x neg a b t) as [d|] eqn:E; [|apply IH].
  simpl. now apply candidate_reads_back with (a := a) (b := b).
Qed.

Lemma float_eqb_refl x : float_eqb x x = true.
Proof.
  destruct x; simpl; auto using eqb_reflx.
  now rewrite eqb_reflx, Pos.eqb_refl, Z.eqb_refl.
Qed.

(** The exact decimal expansion of a float reads back. *)
Lemma exact_decimal_reads_back neg m e :
  canonical m e ->
  reads_back (S754_finite neg m e) neg
    (fst (exact_decimal m e)) (snd (exact_decimal m e)) = true
  /\ 0 <= fst (exact_decimal m e).
Proof.
  intros Hc. unfold reads_back, exact_decimal, scale10.
  pose proof (up_pos e) as HU. pose proof (dn_pos e) as HD.
  destruct (Z.leb_spec 0 e) as [He|He]; cbn [fst snd].
  - split; [|pose proof (pow2_pos He); nia].
    change (0 <=? 0) with true. cbv iota.
    rewrite (@round_ratio_same_value neg _ _ (Zpos m * up e) (dn e)).
    + rewrite round_ratio_exact by assumption. apply float_eqb_refl.
    + pose proof (pow2_pos He). change (10 ^ 0) with 1. nia.
    + lia.
    + nia.
    + lia.
    + unfold up, dn. rewrite (Z.max_l e 0), (Z.max_r (- e) 0) by lia.
      change (10 ^ 0) with 1. rewrite Z.pow_0_r. ring.
  - assert (H5 : 0 < 5 ^ (- e)) by (apply Z.pow_pos_nonneg; lia).
    split; [|nia].
    destruct (Z.leb_spec 0 e); [lia|].
    rewrite (@round_ratio_same_value neg _ _ (Zpos m * up e) (dn e)).
    + rewrite round_ratio_exact by assumption. apply float_eqb_refl.
    + nia.
    + assert (0 < 10 ^ (- e)) by (apply pow10_pos; lia). lia.
    + nia.
    + lia.
    + unfold up, dn. rewrite (Z.max_r e 0), (Z.max_l (- e) 0) by lia.
      change 10 with (2 * 5). rewrite Z.pow_mul_l, Z.pow_0_r. ring.
Qed.

(** ** Reading a positional decimal back *)

Lemma digit_char_value d : digit d -> digit_value (digit_char d) = Some d.
Proof.
  unfold digit. intros H.
  assert (E : (d = 0 \/ d = 1 \/ d = 2 \/ d = 3 \/ d = 4 \/ d = 5 \/ d = 6
               \/ d = 7 \/ d = 8 \/ d = 9)%N) by lia.
  repeat (destruct E as [->|E]; [reflexivity|]). now subst.
Qed.

Lemma digit_char_is_digit d : digit d -> is_digit (digit_char d) = true.
Proof. intros H. unfold is_digit. now rewrite digit_char_value. Qed.

Lemma show_digits_values l :
  Forall digit l -> digit_values (show_digits l) = l.
Proof.
  induction 1 as [|d l Hd _ IH]; [reflexivity|].
  unfold digit_values, show_digits in *. cbn [List.map].
  now rewrite digit_char_value, IH.
Qed.

Lemma show_digits_forallb l :
  Forall digit l -> forallb is_digit (show_digits l) = true.
Proof.
  induction 1 as [|d l Hd _ IH]; [reflexivity|].
  unfold show_digits in *. cbn [List.map forallb].
  now rewrite digit_char_is_digit, IH.
Qed.

Lemma show_digits_all l :
  Forall digit l -> l <> [] -> all_digits (show_digits l) = true.
Proof.
  intros H Hne. pose proof (show_digits_forallb H) as Hf.
  destruct l; [congruence|exact Hf].
Qed.

Lemma show_digits_app l1 l2 :
  show_digits (l1 ++ l2) = show_digits l1 ++ show_digits l2.
Proof. apply map_app. Qed.

Lemma zeros_show n : zeros n = show_digits (repeat 0%N (Z.to_nat n)).
Proof.
  unfold zeros, show_digits. now rewrite map_repeat.
Qed.

Lemma digit_repeat n : Forall digit (repeat 0%N n).
Proof. induction n; simpl; constructor; auto. reflexivity. Qed.

Lemma strip_no_space s : Forall (fun c => is_space c = false) s -> strip s = s.
Proof.
  intros H. unfold strip.
  assert (Hr : rstrip s = s).
  { unfold rstrip. rewrite drop_while_none; [apply rev_involutive|].
    destruct (rev s) as [|c r] eqn:E; [trivial|].
    rewrite Forall_forall in H. apply H. apply in_rev. rewrite E. now left. }
  rewrite Hr. apply lstrip_id. destruct H; auto.
Qed.

Section PlainForm.

Variables (neg : bool) (ip fp : str).
Hypothesis Hip : all_digits ip = true.
Hypothesis Hfp : all_digits fp = true.

Let s : str := (if neg then [c_minus] else []) ++ ip ++ c_dot :: fp.

Lemma plain_chars :
  Forall (fun c => c = c_minus \/ is_digit c = true \/ c = c_dot) s.
Proof.
  destruct (all_digits_forallb _ Hip) as [Hi _].
  destruct (all_digits_forallb _ Hfp) as [Hf _].
  rewrite forallb_forall in Hi, Hf.
  apply Forall_forall. intros c Hc. unfold s in Hc.
  rewrite !in_app_iff in Hc. destruct Hc as [Hc|[Hc|Hc]]; auto.
  - destruct neg; simpl in Hc; intuition.
  - destruct Hc as [<-|Hc]; auto.
Qed.

Lemma plain_lacks k :
  k <> c_minus -> is_digit k = false -> k <> c_dot ->
  Forall (fun c => (k =? c)%N = false) s.
Proof.
  intros H1 H2 H3. eapply Forall_impl; [|apply plain_chars].
  intros c [->|[Hc| ->]].
  - now apply N.eqb_neq.
  - now apply class_excludes with (p := is_digit).
  - now apply N.eqb_neq.
Qed.

Lemma plain_candidate_id : plain_candidate (VStr s) = s.
Proof.
  unfold plain_candidate, answer_candidate. cbn [py_str].
  rewrite strip_no_space.
  - rewrite (@replace_absent c_dollar []) by (apply plain_lacks; easy).
    change (lit "\,") with (c_backslash :: lit ",").
    rewrite (@replace_absent c_backslash (lit ",")) by (apply plain_lacks; easy).
    rewrite (@replace_absent c_uminus []) by (apply plain_lacks; easy).
    apply replace_absent, plain_lacks; easy.
  - eapply Forall_impl; [|apply plain_chars].
    intros c [->|[Hc| ->]]; [reflexivity|now apply digit_not_space|reflexivity].
Qed.

Lemma parse_plain_form : parse_plain s = Some (neg, ip, fp).
Proof.
  destruct (all_digits_forallb _ Hip) as [Hi Hne].
  unfold parse_plain.
  assert (E : split_sign true s = (neg, ip ++ c_dot :: fp)).
  { unfold s. destruct neg; [reflexivity|].
    destruct ip as [|c r]; [congruence|]. simpl in *.
    apply andb_true_iff in Hi. destruct Hi as [Hc _].
    rewrite (N.eqb_sym c c_minus), (N.eqb_sym c c_plus).
    rewrite (@class_excludes is_digit c_minus c), (@class_excludes is_digit c_plus c);
      auto. }
  rewrite E.
  destruct (@take_while_app is_digit ip (c_dot :: fp) Hi eq_refl) as [-> ->].
  destruct ip; [congruence|]. now rewrite N.eqb_refl, Hfp.
Qed.

Lemma sanitize_answer_plain_form :
  sanitize_answer (VStr s)
  = Ok (Some (round_ratio neg (value_of_digits (digit_values (ip ++ fp)))
                (10 ^ Z.of_nat (List.length fp)))).
Proof.
  unfold sanitize_answer. fold (plain_candidate (VStr s)).
  rewrite plain_candidate_id. unfold fullmatch_plain, py_float.
  now rewrite parse_plain_form.
Qed.

End PlainForm.

(** The positional form of [format_short]: the digits before and after the
    point, and the value they denote. *)
Lemma format_short_positional ds decpt :
  Forall digit ds -> ds <> [] -> -4 < decpt <= 16 ->
  exists ipd fpd,
    Forall digit ipd /\ ipd <> [] /\ Forall digit fpd /\ fpd <> []
    /\ format_short ds decpt = show_digits ipd ++ c_dot :: show_digits fpd
    /\ 0 <= Z.of_nat (List.length fpd) + decpt - Z.of_nat (List.length ds)
    /\ value_of_digits (ipd ++ fpd)
       = value_of_digits ds
         * 10 ^ (Z.of_nat (List.length fpd) + decpt - Z.of_nat (List.length ds)).
Proof.
  intros Hd Hne Hdec. unfold format_short.
  set (k := Z.of_nat (List.length ds)).
  destruct (Z.leb_spec decpt (-4)) as [H|_]; [lia|].
  destruct (Z.ltb_spec 16 decpt) as [H|_]; [lia|]. cbn [orb].
  destruct (Z.leb_spec decpt 0) as [H0|H0].
  - exists [0%N], (repeat 0%N (Z.to_nat (- decpt)) ++ ds).
    assert (El : Z.of_nat (List.length (repeat 0%N (Z.to_nat (- decpt)) ++ ds))
                 = - decpt + k).
    { rewrite length_app, repeat_length, Nat2Z.inj_add, Z2Nat.id by lia.
      reflexivity. }
    repeat split.
    + repeat constructor.
    + discriminate.
    + apply Forall_app. split; [apply digit_repeat|assumption].
    + destruct ds; [congruence|]. now destruct (repeat _ _).
    + rewrite show_digits_app, zeros_show. reflexivity.
    + rewrite El. lia.
    + rewrite El. replace (- decpt + k + decpt - k) with 0 by lia.
      change ([0%N] ++ repeat 0%N (Z.to_nat (- decpt)) ++ ds)
        with (repeat 0%N (S (Z.to_nat (- decpt))) ++ ds).
      rewrite value_app, value_zeros. simpl. lia.
  - destruct (Z.leb_spec k decpt) as [Hk|Hk].
    + exists (ds ++ repeat 0%N (Z.to_nat (decpt - k))), [0%N].
      repeat split.
      * apply Forall_app. split; [assumption|apply digit_repeat].
      * destruct ds; [congruence|discriminate].
      * repeat constructor.
      * discriminate.
      * rewrite show_digits_app, zeros_show, <- app_assoc. reflexivity.
      * simpl List.length. fold k. lia.
      * simpl List.length. fold k.
        rewrite !value_app, value_zeros, repeat_length, Z2Nat.id by lia.
        simpl List.length. change (value_of_digits [0%N]) with 0.
        replace (Z.of_nat 1 + decpt - k) with (decpt - k + 1) by lia.
        rewrite !Z.pow_add_r by lia. simpl. ring.
    + exists (firstn (Z.to_nat decpt) ds), (skipn (Z.to_nat decpt) ds).
      assert (El : Z.of_nat (List.length (skipn (Z.to_nat decpt) ds)) = k - decpt).
      { rewrite length_skipn. unfold k. lia. }
      pose proof (firstn_skipn (Z.to_nat decpt) ds) as Efs.
      repeat split.
      * rewrite <- Efs in Hd. now apply Forall_app in Hd.
      * intros E. apply (f_equal (@List.length N)) in E.
        rewrite length_firstn in E. simpl in E. unfold k in *. lia.
      * rewrite <- Efs in Hd. now apply Forall_app in Hd.
      * intros E. apply (f_equal (@List.length N)) in E.
        rewrite length_skipn in E. simpl in E. unfold k in *. lia.
      * rewrite El. lia.
      * rewrite El, Efs. replace (k - decpt + decpt - k) with 0 by lia.
        simpl. lia.
Qed.

(** ** Reading [str] of an answer back *)

Lemma truediv_valid a b x : truediv a b = Ok x -> valid x.
Proof.
  unfold truediv. destruct (Z.eqb_spec b 0) as [E|E]; [discriminate|].
  pose proof (@round_ratio_valid (xorb (a <? 0) (b <? 0)) (Z.abs a) (Z.abs b)
                ltac:(lia) ltac:(lia)) as H.
  destruct (round_ratio _ _ _); try discriminate; intros E'; injection E' as <-;
    exact H.
Qed.

Lemma sanitize_answer_valid a x : sanitize_answer a = Ok (Some x) -> valid x.
Proof.
  unfold sanitize_answer.
  assert (H : (if fullmatch_plain (plain_candidate a)
               then x0 <- py_float (plain_candidate a) ;; Ok (Some x0)
               else match fullmatch_fraction (answer_candidate a) with
                    | Some (g1, g2) =>
                        num <- py_int g1 ;;
                        den <- py_int g2 ;;
                        (if den =? 0 then Ok None
                         else x0 <- truediv num den ;; Ok (Some x0))
                    | None => Ok None
                    end) = Ok (Some x) -> valid x).
  { destruct (fullmatch_plain (plain_candidate a)).
    - unfold py_float.
      destruct (parse_plain (plain_candidate a)) as [[[neg ip] fp]|];
        [|discriminate].
      simpl. intros E. injection E as <-.
      apply round_ratio_valid; [apply value_of_digits_nonneg|].
      apply Z.pow_pos_nonneg; lia.
    - destruct (fullmatch_fraction (answer_candidate a)) as [[g1 g2]|];
        [|discriminate].
      destruct (py_int g1) as [num|]; [|discriminate].
      destruct (py_int g2) as [den|]; [|discriminate].
      simpl. destruct (den =? 0); [discriminate|].
      destruct (truediv num den) as [y|] eqn:Et; [|discriminate].
      simpl. intros E. injection E as <-. now apply truediv_valid in Et. }
  destruct a; [discriminate| | |]; exact H.
Qed.

Lemma reads_back_pos x neg d t :
  (exists s m e, x = S754_finite s m e) ->
  0 <= d -> reads_back x neg d t = true -> 0 < d.
Proof.
  intros (s & m & e & ->) Hd H.
  destruct (Z.eq_dec d 0) as [->|]; [|lia]. exfalso.
  unfold reads_back, scale10 in H.
  destruct (0 <=? t); simpl in H; discriminate.
Qed.

(** [str] of a canonical float in positional notation is read back as that
    float. *)
Lemma repr_reads_back neg m e :
  canonical m e -> positional (S754_finite neg m e) = true ->
  sanitize_answer (VStr (float_repr (S754_finite neg m e)))
  = Ok (Some (S754_finite neg m e)).
Proof.
  intros Hc Hp. unfold positional in Hp. unfold float_repr.
  unfold shortest_digits in *. rewrite exact_fraction_eq in *.
  pose proof (up_pos e) as HU. pose proof (dn_pos e) as HD.
  set (x := S754_finite neg m e) in *.
  set (a := Zpos m * up e) in *. set (b := dn e) in *.
  assert (Ha : 0 <= a) by (unfold a; nia).
  destruct (exact_decimal_reads_back neg Hc) as [Hl1 Hl2]. fold x in Hl1.
  set (last := exact_decimal m e) in *.
  destruct (@shortest_from_reads_back
              (Z.to_nat (mag10 a b - 1 - snd last)) x neg a b
              (mag10 a b - 1) last Ha HD Hl1 Hl2) as [Hr Hd0].
  destruct (shortest_from _ x neg a b (mag10 a b - 1) last) as [d t].
  cbn [fst snd] in Hr, Hd0.
  assert (Hd : 0 < d).
  { apply reads_back_pos with (x := x) (neg := neg) (t := t); auto.
    now exists neg, m, e. }
  pose proof (@strip_zeros_spec (S (Z.to_nat (Z.log2 d))) d t Hd) as Hs.
  destruct (strip_zeros (S (Z.to_nat (Z.log2 d))) d t) as [d' t'].
  destruct Hs as (Hd' & Ht & Ed).
  destruct (@digits_spec d' ltac:(lia)) as (Ev & Hdig & Hne).
  set (ds := digits d') in *. cbn [snd] in Hp.
  set (decpt := t' + Z.of_nat (List.length ds)) in *.
  apply andb_true_iff in Hp. destruct Hp as [Hp1 Hp2].
  apply Z.ltb_lt in Hp1. apply Z.leb_le in Hp2.
  destruct (@format_short_positional ds decpt Hdig Hne ltac:(lia))
    as (ipd & fpd & Hi & Hin & Hf & Hfn & Ef & Hexp & Eval).
  rewrite Ef.
  rewrite sanitize_answer_plain_form by now apply show_digits_all.
  f_equal. f_equal.
  rewrite <- show_digits_app, show_digits_values
    by (apply Forall_app; now split).
  unfold show_digits at 1. rewrite length_map.
  unfold reads_back in Hr.
  set (lf := Z.of_nat (List.length fpd)) in *.
  assert (Ee : lf + decpt - Z.of_nat (List.length ds) = lf + t')
    by (unfold decpt; lia).
  rewrite Ee in Eval, Hexp. rewrite Eval, Ev.
  assert (Hlf : 0 <= lf) by (unfold lf; lia).
  destruct (scale10 d 1 t) as [a1 b1] eqn:Es.
  apply float_eqb_eq in Hr. rewrite Hr.
  assert (Hpl : 0 < 10 ^ lf) by now apply pow10_pos.
  assert (Hpe : 0 < 10 ^ (lf + t')) by now apply pow10_pos.
  unfold scale10 in Es. rewrite Z.mul_1_l in Es.
  destruct (Z.leb_spec 0 t) as [Ht0|Ht0];
    injection Es as <- <-.
  - pose proof (pow10_pos Ht0).
    apply round_ratio_same_value;
      [apply Z.mul_nonneg_nonneg; lia|assumption
      |apply Z.mul_nonneg_nonneg; lia|lia|].
    rewrite Ed.
    replace (lf + t') with ((t' - t) + t + lf) by lia.
    rewrite !Z.pow_add_r by lia. ring.
  - assert (0 < 10 ^ (- t)) by (apply pow10_pos; lia).
    apply round_ratio_same_value;
      [apply Z.mul_nonneg_nonneg; lia|assumption|lia|lia|].
    rewrite Ed.
    replace (t' - t) with ((lf + t') + (- t) - lf) by lia.
    assert (E10 : 10 ^ (lf + t' + - t - lf) * 10 ^ lf = 10 ^ (lf + t') * 10 ^ (- t)).
    { rewrite <- !Z.pow_add_r by lia. f_equal. lia. }
    rewrite <- !Z.mul_assoc, E10. reflexivity.
Qed.

(** C6, as the code has it. For every input on which [sanitize_answer]
    returns a value whose [str] is in positional notation (a zero, or a
    finite value with a decimal point position between -3 and 16),
    sanitizing that [str] gives the same value again. *)
Theorem C6_idempotent_on_positional_values :
  forall (a : value) (x : float),
    sanitize_answer a = Ok (Some x) ->
    positional x = true ->
    sanitize_answer (VStr (py_str (VFloat x))) = Ok (Some x).
Proof.
  intros a x Ha Hp. apply sanitize_answer_valid in Ha.
  cbn [py_str]. destruct x as [s|s| |s m e]; try discriminate.
  - destruct s; reflexivity.
  - now apply repr_reads_back.
Qed.

Lemma C6_witness :
  sanitize_answer (VStr (lit "3400"))
  = Ok (Some (S754_finite false 7476679068876800 (-41)))
  /\ positional (S754_finite false 7476679068876800 (-41)) = true
  /\ py_str (VFloat (S754_finite false 7476679068876800 (-41))) = lit "3400.0"
  /\ sanitize_answer
       (VStr (py_str (VFloat (S754_finite false 7476679068876800 (-41)))))
     = Ok (Some (S754_finite false 7476679068876800 (-41))).
Proof.
  split; [vm_compute; reflexivity|]. split; [vm_compute; reflexivity|].
  split; [vm_compute; reflexivity|].
  apply (C6_idempotent_on_positional_values (VStr (lit "3400")));
    vm_compute; reflexivity.
Defined.

(** C6 as stated fails: [10 ^ 16] is accepted by the plain-number rule, its
    float prints as ["1e+16"], and that string matches neither rule. *)
Lemma C6_counterexample :
  fullmatch_plain (lit "10000000000000000") = true
  /\ sanitize_answer (VStr (lit "10000000000000000"))
     = Ok (Some (S754_finite false 5000000000000000 1))
  /\ py_str (VFloat (S754_finite false 5000000000000000 1)) = lit "1e+16"
  /\ sanitize_answer (VStr (lit "1e+16")) = Ok None.
Proof. by_evaluation. Qed.

(** ** The matchers accept the languages of their patterns *)

Lemma take_while_forallb p (s : str) : forallb p (take_while p s) = true.
Proof.
  induction s as [|c s IH]; [reflexivity|]. simpl.
  destruct (p c) eqn:E; [|reflexivity]. simpl. now rewrite E.
Qed.

Lemma take_while_all_digits s :
  take_while is_digit s <> [] -> all_digits (take_while is_digit s) = true.
Proof.
  intros H. pose proof (take_while_forallb is_digit s) as Hf.
  unfold all_digits. destruct (take_while is_digit s); [congruence|exact Hf].
Qed.

(** [[-+]?\d+(\.\d+)?]: what [parse_plain] accepts has that shape. *)
Lemma parse_plain_sound s neg ip fp :
  parse_plain s = Some (neg, ip, fp) ->
  exists sign,
    s = sign ++ ip ++ fraction_text fp
    /\ ((sign = [c_minus] /\ neg = true)
        \/ ((sign = [c_plus] \/ sign = []) /\ neg = false))
    /\ all_digits ip = true
    /\ (fp = [] \/ all_digits fp = true).
Proof.
  unfold parse_plain.
  assert (Hs : exists sign,
             s = sign ++ snd (split_sign true s)
             /\ ((sign = [c_minus] /\ fst (split_sign true s) = true)
                 \/ ((sign = [c_plus] \/ sign = [])
                     /\ fst (split_sign true s) = false))).
  { unfold split_sign. destruct s as [|c r]; [exists []; auto|].
    destruct (N.eqb_spec c c_minus) as [->|H1]; [exists [c_minus]; auto|].
    simpl. destruct (N.eqb_spec c c_plus) as [->|H2];
      [exists [c_plus]; auto|exists []; auto]. }
  destruct Hs as (sign & Es & Hsign).
  destruct (split_sign true s) as [neg' body]. cbn [fst snd] in *.
  pose proof (take_drop_while is_digit body) as Eb.
  pose proof (take_while_all_digits body) as Hd.
  destruct (take_while is_digit body) as [|c0 r0] eqn:Et; [discriminate|].
  specialize (Hd ltac:(discriminate)).
  destruct (drop_while is_digit body) as [|c fp'] eqn:Ed.
  - intros E. injection E as <- <- <-. exists sign.
    rewrite app_nil_r in Eb. simpl fraction_text. rewrite app_nil_r.
    repeat split; auto. now rewrite Es, <- Eb.
  - destruct (N.eqb_spec c c_dot) as [->|]; [|discriminate]. simpl.
    destruct (all_digits fp') eqn:Ef; [|discriminate].
    intros E. injection E as <- <- <-. exists sign.
    repeat split; auto.
    rewrite Es, <- Eb. destruct fp'; [discriminate|reflexivity].
Qed.

(** Conversely, every string of that shape is accepted, with its parts. *)
Lemma parse_plain_complete sign ip fp :
  sign = [c_minus] \/ sign = [c_plus] \/ sign = [] ->
  all_digits ip = true -> fp = [] \/ all_digits fp = true ->
  parse_plain (sign ++ ip ++ fraction_text fp)
  = Some (str_eqb sign [c_minus], ip, fp).
Proof.
  intros Hsign Hip Hfp.
  destruct (all_digits_forallb _ Hip) as [Hi Hne].
  unfold parse_plain.
  assert (E : split_sign true (sign ++ ip ++ fraction_text fp)
              = (str_eqb sign [c_minus], ip ++ fraction_text fp)).
  { destruct Hsign as [->|[->| ->]]; try reflexivity.
    destruct ip as [|c r]; [congruence|]. simpl in *.
    apply andb_true_iff in Hi. destruct Hi as [Hc _].
    rewrite (N.eqb_sym c c_minus), (N.eqb_sym c c_plus).
    rewrite (@class_excludes is_digit c_minus c), (@class_excludes is_digit c_plus c);
      auto. }
  rewrite E.
  assert (Ht : match fraction_text fp with
               | c :: _ => is_digit c = false
               | [] => True
               end) by (destruct fp; [exact I|reflexivity]).
  destruct (take_while_app is_digit ip _ Hi Ht) as [-> ->].
  destruct ip; [congruence|].
  destruct Hfp as [->|Hfp]; [reflexivity|].
  destruct fp as [|c1 r1]; [discriminate|].
  cbn [fraction_text]. now rewrite N.eqb_refl, Hfp.
Qed.

Lemma m_int_sound s g r :
  m_int s = Some (g, r) ->
  exists (neg : bool) nd,
    g = (if neg then [c_minus] else []) ++ nd
    /\ all_digits nd = true /\ s = g ++ r.
Proof.
  unfold m_int.
  assert (Hs : exists neg : bool,
             match s with
             | c :: r0 => if (c =? c_minus)%N then ([c_minus], r0) else ([], s)
             | [] => ([], s)
             end
             = ((if neg then [c_minus] else []),
                snd match s with
                    | c :: r0 =>
                        if (c =? c_minus)%N then ([c_minus], r0) else ([], s)
                    | [] => ([], s)
                    end)
             /\ s = (if neg then [c_minus] else [])
                    ++ snd match s with
                           | c :: r0 =>
                               if (c =? c_minus)%N then ([c_minus], r0)
                               else ([], s)
                           | [] => ([], s)
                           end).
  { destruct s as [|c r0]; [exists false; auto|].
    destruct (N.eqb_spec c c_minus) as [->|]; [exists true|exists false]; auto. }
  destruct Hs as (neg & E & Es). rewrite E.
  set (body := snd _) in *. clearbody body.
  pose proof (take_drop_while is_digit body) as Eb.
  pose proof (take_while_all_digits body) as Hd.
  destruct (take_while is_digit body) as [|c0 r0] eqn:Et; [discriminate|].
  specialize (Hd ltac:(discriminate)).
  intros H. injection H as <- <-. exists neg, (c0 :: r0).
  repeat split; auto. now rewrite <- app_assoc, Eb.
Qed.

(** [(-?\d+)\s*/\s*(\d+)]: what [fullmatch_fraction] accepts has that
    shape, and the groups are the two integers. *)
Lemma fullmatch_fraction_sound s g1 g2 :
  fullmatch_fraction s = Some (g1, g2) ->
  exists (neg : bool) nd w1 w2,
    s = g1 ++ w1 ++ [c_slash] ++ w2 ++ g2
    /\ g1 = (if neg then [c_minus] else []) ++ nd
    /\ all_digits nd = true /\ all_digits g2 = true
    /\ forallb is_space w1 = true /\ forallb is_space w2 = true.
Proof.
  unfold fullmatch_fraction.
  destruct (m_int s) as [[g r]|] eqn:Em; [|discriminate].
  destruct (m_int_sound _ Em) as (neg & nd & Eg & Hnd & Es).
  pose proof (take_drop_while is_space r) as Er.
  destruct (drop_while is_space r) as [|c r'] eqn:Ed; [discriminate|].
  destruct (N.eqb_spec c c_slash) as [->|]; [|discriminate].
  pose proof (take_drop_while is_space r') as Er'.
  destruct (all_digits (drop_while is_space r')) eqn:Hg2; [|discriminate].
  intros H. injection H as <- <-.
  exists neg, nd, (take_while is_space r), (take_while is_space r').
  repeat split; auto using take_while_forallb.
  rewrite Es. f_equal. rewrite <- Er at 1. f_equal. simpl. f_equal.
  now rewrite Er'.
Qed.

(** ** Answers are binary64 values *)

Lemma digits2_size m : digits2_pos m = Pos.size m.
Proof. induction m as [m IH|m IH|]; simpl; now rewrite ?IH. Qed.

(** A canonical float is a valid binary64 value in the sense of the
    standard library's specification of IEEE 754. *)
Lemma valid_is_valid_binary x : valid x -> valid_binary prec emax x = true.
Proof.
  destruct x as [s|s| |s m e]; try reflexivity.
  intros (Hm & He & Hc). unfold valid_binary, bounded, canonical_mantissa.
  apply andb_true_iff. split; [|apply Z.leb_le; exact (proj2 He)].
  apply Z.eqb_eq. unfold fexp, SpecFloat.emin. rewrite digits2_size.
  pose proof (Pos.size_gt m) as Hgt. pose proof (Pos.size_le m) as Hle.
  assert (Hgt' : Zpos m < 2 ^ Zpos (Pos.size m)).
  { rewrite <- Pos2Z.inj_pow. now apply Pos2Z.pos_lt_pos. }
  assert (Hle' : 2 ^ Zpos (Pos.size m) <= 2 * Zpos m).
  { rewrite <- Pos2Z.inj_pow. now apply Pos2Z.pos_le_pos. }
  assert (Hsz : Zpos (Pos.size m) <= prec).
  { destruct (Z.le_gt_cases (Zpos (Pos.size m)) prec) as [|Hgt2]; [assumption|].
    exfalso.
    assert (2 ^ (prec + 1) <= 2 ^ Zpos (Pos.size m))
      by (apply pow2_le_mono; unfold prec in *; lia).
    change (2 ^ (prec + 1)) with (2 * 2 ^ prec) in *. lia. }
  destruct Hc as [Hc| ->].
  - assert (Zpos (Pos.size m) = prec).
    { destruct (Z.eq_dec (Zpos (Pos.size m)) prec) as [|Hne]; [assumption|].
      exfalso.
      assert (2 ^ Zpos (Pos.size m) <= 2 ^ (prec - 1))
        by (apply pow2_le_mono; lia).
      lia. }
    unfold emin, emax, prec in *. lia.
  - unfold emin, emax, prec in *. lia.
Qed.

Lemma sanitize_answer_binary64 a x :
  sanitize_answer a = Ok (Some x) -> valid_binary prec emax x = true.
Proof. intros H. apply valid_is_valid_binary. exact (sanitize_answer_valid _ H). Qed.

(** ** Scenarios *)

(** The rounding agrees with the division and the normalization of the
    standard library's specification on sample values. *)
Example round_ratio_agrees_with_SpecFloat :
  round_ratio false 1 3
  = SFdiv prec emax (round_ratio false 1 1) (round_ratio false 3 1)
  /\ round_ratio true 7 2
     = SFdiv prec emax (round_ratio true 7 1) (round_ratio false 2 1)
  /\ round_ratio false 1 10
     = SFdiv prec emax (round_ratio false 1 1) (round_ratio false 10 1)
  /\ round_ratio false 123 1 = binary_normalize prec emax 123 0 false
  /\ round_ratio false (2 ^ 53 + 1) 1
     = binary_normalize prec emax (2 ^ 53 + 1) 0 false
  /\ round_ratio false (2 ^ 53 + 3) 1
     = binary_normalize prec emax (2 ^ 53 + 3) 0 false
  /\ round_ratio false 1 (2 ^ 1075) = S754_zero false
  /\ round_ratio false 3 (2 ^ 1075) = S754_finite false 2 (-1074).
Proof. by_evaluation. Qed.

Example answer_with_dollar_and_comma :
  sanitize_answer (VStr (lit "$3,400"))
  = Ok (Some (S754_finite false 7476679068876800 (-41)))
  /\ 7476679068876800 = 3400 * 2 ^ 41.
Proof. by_evaluation. Qed.

Example answer_with_zero_denominator :
  sanitize_answer (VStr (lit "7/0")) = Ok None.
Proof. vm_compute. reflexivity. Qed.

Example answer_with_unicode_minus :
  sanitize_answer (VStr (c_uminus :: lit "5"))
  = Ok (Some (S754_finite true 5629499534213120 (-50)))
  /\ 5629499534213120 = 5 * 2 ^ 50.
Proof. by_evaluation. Qed.

Example answer_number :
  sanitize_answer (VInt 19) = sanitize_answer (VStr (lit "19"))
  /\ sanitize_answer (VFloat (S754_finite false 5629499534213120 (-51)))
     = Ok (Some (S754_finite false 5629499534213120 (-51)))
  /\ py_str (VFloat (S754_finite false 5629499534213120 (-51))) = lit "2.5".
Proof. by_evaluation. Qed.

Example text_of_generator :
  sanitize_text (VStr (lit "$12+7=$")) = lit "12 + 7"
  /\ sanitize_text VNone = []
  /\ sanitize_text (VStr (lit "  8\cdot 3  =  ")) = lit "8 " ++ [c_times] ++ lit " 3"
  /\ sanitize_text (VStr (lit "\frac{-3}{4}\div\left(2\right)")) = lit "- 3/4 " ++ [c_div].
Proof. by_evaluation. Qed.

Example float_repr_samples :
  float_repr (S754_finite false 7205759403792794 (-56)) = lit "0.1"
  /\ float_repr (S754_finite true 6004799503160661 (-54)) = lit "-0.3333333333333333"
  /\ float_repr (S754_finite false 1 (-1074)) = lit "5e-324"
  /\ float_repr (S754_finite false 9007199254740991 971)
     = lit "1.7976931348623157e+308"
  /\ float_repr (S754_finite false 5960464477539062 24) = lit "1e+23"
  /\ float_repr (S754_infinity true) = lit "-inf".
Proof. by_evaluation. Qed.

(** * Further properties of the text sanitizer *)

(** ** Spacing *)

Lemma unwords_cons_nil ws :
  unwords ([] :: ws) = match ws with [] => [] | _ :: _ => c_space :: unwords ws end.
Proof. destruct ws; reflexivity. Qed.

Lemma unwords_whitespace ws c :
  Forall word ws -> In c (unwords ws) -> is_space c = true -> c = c_space.
Proof.
  induction ws as [|w ws IH]; intros Hw Hin Hs; [destruct Hin|].
  inversion Hw as [|? ? [_ Hf] Hws]; subst.
  rewrite Forall_forall in Hf.
  cbn [unwords] in Hin. destruct ws as [|w2 ws].
  - rewrite (Hf _ Hin) in Hs. discriminate.
  - apply in_app_or in Hin as [Hin|[Hin|Hin]].
    + rewrite (Hf _ Hin) in Hs. discriminate.
    + symmetry. exact Hin.
    + apply IH; assumption.
Qed.

Lemma unwords_no_double_space ws :
  Forall word ws ->
  forall pre post, unwords ws <> pre ++ c_space :: c_space :: post.
Proof.
  intros Hws.
  induction Hws as [|w2 ws Hw2 Hws IH].
  - intros pre post E. destruct pre; discriminate E.
  - assert (G : forall w, Forall (fun c => is_space c = false) w ->
                  forall pre post,
                    unwords (w :: ws) <> pre ++ c_space :: c_space :: post).
    { induction w as [|c w IHw]; intros Hf pre post E.
      - rewrite unwords_cons_nil in E. destruct ws as [|w3 ws'].
        + destruct pre; discriminate E.
        + pose proof (@unwords_starts_word (w3 :: ws') Hws ltac:(discriminate)) as Hs.
          specialize (IH (List.tl pre) post).
          remember (unwords (w3 :: ws')) as U eqn:EU. clear EU.
          destruct pre as [|x pre]; cbn [app] in E.
          * injection E as E. rewrite E in Hs. discriminate Hs.
          * injection E as _ E. exact (IH E).
      - rewrite unwords_cons_char in E. inversion Hf; subst.
        destruct pre as [|x pre]; cbn [app] in E; injection E as Ec E.
        + subst c. discriminate.
        + exact (IHw ltac:(assumption) _ _ E). }
    exact (G w2 (proj2 Hw2)).
Qed.

Lemma unwords_rstrip ws : Forall word ws -> rstrip (unwords ws) = unwords ws.
Proof.
  intros Hws. induction Hws as [|w2 ws Hw2 Hws IH]; [reflexivity|].
  assert (G : forall w, Forall (fun c => is_space c = false) w ->
                rstrip (unwords (w :: ws)) = unwords (w :: ws)).
  { induction w as [|c w IHw]; intros Hf.
    - rewrite unwords_cons_nil. destruct ws as [|w3 ws']; [reflexivity|].
      rewrite rstrip_cons, IH.
      destruct (unwords (w3 :: ws')) eqn:E; [|reflexivity].
      apply unwords_nil in E; [discriminate E|exact Hws].
    - rewrite unwords_cons_char, rstrip_cons. inversion Hf; subst.
      rewrite (IHw ltac:(assumption)).
      destruct (unwords (w :: ws)); [|reflexivity].
      rewrite H1. reflexivity. }
  exact (G w2 (proj2 Hw2)).
Qed.

Lemma unwords_lstrip ws : Forall word ws -> lstrip (unwords ws) = unwords ws.
Proof.
  intros Hws. destruct ws as [|w ws]; [reflexivity|].
  pose proof (@unwords_starts_word (w :: ws) Hws ltac:(discriminate)) as Hs.
  apply lstrip_id. destruct (unwords (w :: ws)); [exact I|].
  cbn [starts_word] in Hs. apply negb_true_iff in Hs. exact Hs.
Qed.

Lemma unwords_strip ws : Forall word ws -> strip (unwords ws) = unwords ws.
Proof.
  intros Hws. unfold strip. rewrite (unwords_rstrip Hws). apply unwords_lstrip, Hws.
Qed.

(** X1. Whatever the input, the sanitized text has no whitespace at either
    end, no whitespace character other than the space U+0020, and no two
    spaces in a row. *)
Theorem X1_text_is_single_spaced :
  forall s : value,
    strip (sanitize_text s) = sanitize_text s
    /\ (forall c, In c (sanitize_text s) -> is_space c = true -> c = c_space)
    /\ (forall pre post, sanitize_text s <> pre ++ c_space :: c_space :: post).
Proof.
  assert (G : forall t,
             strip (sanitize_text_str t) = sanitize_text_str t
             /\ (forall c, In c (sanitize_text_str t) -> is_space c = true -> c = c_space)
             /\ (forall pre post,
                   sanitize_text_str t <> pre ++ c_space :: c_space :: post)).
  { intros t. destruct (sanitize_text_str_atoms t) as [ws [Hat E]].
    rewrite E. apply atoms_words in Hat. split; [|split].
    - apply unwords_strip, Hat.
    - intros c. apply unwords_whitespace, Hat.
    - apply unwords_no_double_space, Hat. }
  intros [|t|n|x]; [|apply G..].
  split; [reflexivity|split].
  - intros c [].
  - intros pre post E. destruct pre; discriminate E.
Qed.

(** X2. The sanitized text never contains a dollar sign. *)
Theorem X2_text_has_no_dollar :
  forall s : value, ~ In c_dollar (sanitize_text s).
Proof.
  intros [|t|n|x]; [intros []|apply sanitize_text_str_no_dollar..].
Qed.
(** ** Texts that come out empty or unchanged *)

Lemma drop_while_all p (s : str) :
  Forall (fun c => p c = true) s -> drop_while p s = [].
Proof.
  induction 1 as [|c s Hc _ IH]; [reflexivity|]. cbn [drop_while]. now rewrite Hc.
Qed.

Lemma rstrip_blank s : Forall (fun c => is_space c = true) s -> rstrip s = [].
Proof.
  intros H. unfold rstrip. rewrite drop_while_all; [reflexivity|].
  apply Forall_rev, H.
Qed.

(** X3. A text made of whitespace and dollar signs only, the empty text
    among them, is sanitized to the empty text. *)
Theorem X3_blank_text_is_emptied :
  forall s : str,
    Forall (fun c => is_space c = true \/ c = c_dollar) s ->
    sanitize_text (VStr s) = [].
Proof.
  intros s Hs. cbn [sanitize_text py_str]. unfold sanitize_text_str.
  assert (Hu : Forall (fun c => is_space c = true) (remove_dollars (strip s))).
  { unfold remove_dollars. rewrite replace_char. apply Forall_forall.
    intros x Hx. apply in_flat_map in Hx as [y [Hy Hx]].
    apply In_strip in Hy. rewrite Forall_forall in Hs.
    destruct (c_dollar =? y)%N eqn:E; [destruct Hx|].
    destruct Hx as [<-|[]]. destruct (Hs _ Hy) as [H|H]; [exact H|].
    subst y. discriminate E. }
  rewrite markup_steps_id.
  - unfold strip_equals. rewrite (rstrip_blank Hu). reflexivity.
  - eapply Forall_impl; [|exact Hu]. intros c Hc.
    destruct (c =? c_backslash)%N eqn:E; [|reflexivity].
    apply N.eqb_eq in E. subst c. discriminate Hc.
Qed.

Ltac eval_lits :=
  repeat match goal with
         | |- context [lit ?s] =>
             let l := eval vm_compute in (lit s) in change (lit s) with l
         end.

Lemma X3_witness :
  Forall (fun c => is_space c = true \/ c = c_dollar) (lit " $ $ ")
  /\ sanitize_text (VStr (lit " $ $ ")) = [].
Proof.
  assert (H : Forall (fun c => is_space c = true \/ c = c_dollar) (lit " $ $ ")).
  { repeat constructor; (left; reflexivity) || (right; reflexivity). }
  split; [exact H|]. exact (X3_blank_text_is_emptied H).
Defined.

(** X4. A text that is already in the sanitized form is left as it is: words
    joined by single spaces, every operator glyph a word of its own, no
    dollar sign, no backslash, and no [=] at the end. *)
Theorem X4_sanitized_form_is_kept :
  forall ws : list str,
    Forall atom ws ->
    ~ In c_backslash (unwords ws) -> ~ In c_dollar (unwords ws) ->
    (forall b, unwords ws <> b ++ [c_equals]) ->
    sanitize_text (VStr (unwords ws)) = unwords ws.
Proof.
  intros ws Hat Hb Hd He. cbn [sanitize_text py_str].
  pose proof (atoms_words Hat) as Hw.
  apply (@sanitize_text_str_id _ ws Hat eq_refl Hb Hd).
  - apply unwords_lstrip, Hw.
  - apply unwords_rstrip, Hw.
  - exact He.
Qed.

Lemma X4_witness :
  sanitize_text (VStr (lit "Tom has 7 + 5 apples")) = lit "Tom has 7 + 5 apples".
Proof.
  apply (@X4_sanitized_form_is_kept
           [lit "Tom"; lit "has"; lit "7"; [c_plus]; lit "5"; lit "apples"]).
  - eval_lits.
    repeat (apply Forall_cons;
            [split; [discriminate|split; [repeat constructor|]];
             first [right; repeat constructor; fail
                   |left; eexists; split; [|reflexivity]; reflexivity]|]).
    apply Forall_nil.
  - vm_compute. intuition discriminate.
  - vm_compute. intuition discriminate.
  - intros b E. apply (f_equal (@rev char)) in E.
    rewrite rev_app_distr in E. vm_compute in E. discriminate.
Defined.
(** *** Exercises *)

Lemma plain_facts w :
  forallb is_plain w = true ->
  Forall (fun c => is_space c = false) w
  /\ Forall (fun c => is_op c = false) w
  /\ Forall (fun c => (c_dollar =? c)%N = false) w
  /\ no_backslash w
  /\ Forall (fun c => (c_equals =? c)%N = false) w.
Proof.
  intros H. rewrite forallb_forall in H.
  assert (G : forall c, In c w ->
                is_space c = false /\ is_op c = false
                /\ (c_dollar =? c)%N = false /\ (c =? c_backslash)%N = false
                /\ (c_equals =? c)%N = false).
  { intros c Hc. specialize (H c Hc). unfold is_plain in H.
    apply negb_true_iff in H.
    do 4 (apply orb_false_iff in H; destruct H as [H ?]).
    rewrite (N.eqb_sym c_dollar), (N.eqb_sym c_equals).
    repeat split; assumption. }
  unfold no_backslash. repeat split; apply Forall_forall; intros c Hc;
    apply G in Hc; tauto.
Qed.

Lemma scan_prefix m (pre rest : str) :
  (forall c r, (c =? c_backslash)%N = false -> m (c :: r) = None) ->
  no_backslash pre ->
  scan m 0 (pre ++ rest) = pre ++ scan m 0 rest.
Proof.
  intros Hm. induction 1 as [|c pre Hc _ IH]; [reflexivity|].
  cbn [app scan]. rewrite (Hm _ _ Hc), IH. reflexivity.
Qed.

Lemma scan_id m s :
  (forall c r, (c =? c_backslash)%N = false -> m (c :: r) = None) ->
  no_backslash s -> scan m 0 s = s.
Proof.
  intros Hm H.
  apply scan_no_match with (bad := fun c => (c =? c_backslash)%N); assumption.
Qed.

Lemma scan_miss m (a w t : str) :
  (forall c r, (c =? c_backslash)%N = false -> m (c :: r) = None) ->
  no_backslash a -> no_backslash (w ++ t) ->
  m (c_backslash :: w ++ t) = None ->
  scan m 0 (a ++ c_backslash :: w ++ t) = a ++ c_backslash :: w ++ t.
Proof.
  intros Hm Ha Ht E. rewrite (@scan_prefix m a _ Hm Ha). f_equal.
  cbn [scan]. rewrite E. f_equal. apply scan_id; assumption.
Qed.

Lemma starts_with_app (p t : str) : starts_with p (p ++ t) = true.
Proof.
  induction p as [|c p IH]; [reflexivity|].
  cbn [app starts_with]. now rewrite N.eqb_refl.
Qed.

Lemma replace_hit (old w new a t : str) :
  old = c_backslash :: w ->
  no_backslash a -> no_backslash t ->
  replace old new (a ++ c_backslash :: w ++ t) = a ++ new ++ t.
Proof.
  intros -> Ha Ht. unfold replace, sub.
  assert (Hm : forall c r, (c =? c_backslash)%N = false ->
                 m_literal (c_backslash :: w) new (c :: r) = None).
  { intros c r Hc. now apply m_literal_head with (p := w). }
  rewrite (@scan_prefix _ a _ Hm Ha). f_equal.
  cbn [scan]. unfold m_literal at 1.
  change (c_backslash :: w ++ t) with ((c_backslash :: w) ++ t).
  rewrite starts_with_app. f_equal.
  cbn [List.length Nat.pred]. rewrite scan_skip. apply scan_id; assumption.
Qed.

Lemma replace_miss (old w w' new a t : str) :
  old = c_backslash :: w ->
  no_backslash a -> no_backslash (w' ++ t) ->
  m_literal old new (c_backslash :: w' ++ t) = None ->
  replace old new (a ++ c_backslash :: w' ++ t)
  = a ++ c_backslash :: w' ++ t.
Proof.
  intros -> Ha Ht E. unfold replace, sub. apply scan_miss; try assumption.
  intros c r Hc. now apply m_literal_head with (p := w).
Qed.

Lemma markup_step_ids s :
  no_backslash s ->
  rewrite_fractions s = s /\ rewrite_times s = s /\ rewrite_div s = s
  /\ rewrite_cdot s = s /\ remove_escapes s = s.
Proof.
  intros H. repeat split.
  - apply scan_id; [apply m_frac_head|exact H].
  - unfold rewrite_times.
    rewrite (@replace_markup_id (lit "times") (lit "\times")) by auto.
    now rewrite (@replace_markup_id (lit "\times") (lit "\\times")).
  - unfold rewrite_div.
    rewrite (@replace_markup_id (lit "div") (lit "\div")) by auto.
    now rewrite (@replace_markup_id (lit "\div") (lit "\\div")).
  - unfold rewrite_cdot.
    now rewrite (@replace_markup_id (lit "cdot") (lit "\cdot")).
  - apply scan_id; [apply m_escape_head|exact H].
Qed.

Lemma no_backslash_app a b :
  no_backslash a -> no_backslash b -> no_backslash (a ++ b).
Proof. intros Ha Hb. apply Forall_app. now split. Qed.

Lemma no_backslash_cons c s :
  (c =? c_backslash)%N = false -> no_backslash s -> no_backslash (c :: s).
Proof. intros Hc Hs. now apply Forall_cons. Qed.

(** The markup of an operator between two texts without backslash becomes
    the operator's glyph. *)
Lemma markup_stage o (a t : str) :
  no_backslash a -> no_backslash t ->
  remove_escapes
    (rewrite_cdot (rewrite_div (rewrite_times (rewrite_fractions
       (a ++ markup o ++ t)))))
  = a ++ glyph o :: t.
Proof.
  intros Ha Ht.
  assert (Hg : no_backslash (a ++ glyph o :: t)).
  { apply no_backslash_app; [exact Ha|].
    apply no_backslash_cons; [now destruct o|exact Ht]. }
  destruct (markup_step_ids Hg) as (E1 & E2 & E3 & E4 & E5).
  assert (Hf : forall w, no_backslash w ->
                 m_frac (c_backslash :: w ++ t) = None ->
                 rewrite_fractions (a ++ c_backslash :: w ++ t)
                 = a ++ c_backslash :: w ++ t).
  { intros w Hw E. apply scan_miss; try assumption.
    - apply m_frac_head.
    - now apply no_backslash_app. }
  destruct o; cbn [glyph] in *.
  - change (a ++ markup Plus ++ t) with (a ++ c_plus :: t).
    now rewrite E1, E2, E3, E4, E5.
  - change (a ++ markup Minus ++ t) with (a ++ c_minus :: t).
    now rewrite E1, E2, E3, E4, E5.
  - change (a ++ markup Times ++ t) with (a ++ c_backslash :: lit "times" ++ t).
    rewrite (Hf (lit "times")) by (repeat constructor).
    unfold rewrite_times at 1.
    rewrite (@replace_hit (lit "\times") (lit "times") [c_times] a t eq_refl Ha Ht).
    change (a ++ [c_times] ++ t) with (a ++ c_times :: t).
    rewrite (@replace_markup_id (lit "\times") (lit "\\times")) by auto.
    now rewrite E3, E4, E5.
  - change (a ++ markup Cdot ++ t) with (a ++ c_backslash :: lit "cdot" ++ t).
    assert (Hw : no_backslash (lit "cdot" ++ t))
      by (apply no_backslash_app; [repeat constructor|exact Ht]).
    rewrite (Hf (lit "cdot")) by (repeat constructor).
    unfold rewrite_times, rewrite_div.
    rewrite (@replace_miss (lit "\times") (lit "times") (lit "cdot") [c_times] a t eq_refl Ha Hw eq_refl).
    rewrite (@replace_miss (lit "\\times") (lit "\times") (lit "cdot") [c_times] a t eq_refl Ha Hw eq_refl).
    rewrite (@replace_miss (lit "\div") (lit "div") (lit "cdot") [c_div] a t eq_refl Ha Hw eq_refl).
    rewrite (@replace_miss (lit "\\div") (lit "\div") (lit "cdot") [c_div] a t eq_refl Ha Hw eq_refl).
    unfold rewrite_cdot.
    rewrite (@replace_hit (lit "\cdot") (lit "cdot") [c_times] a t eq_refl Ha Ht).
    exact E5.
  - change (a ++ markup Div ++ t) with (a ++ c_backslash :: lit "div" ++ t).
    assert (Hw : no_backslash (lit "div" ++ t))
      by (apply no_backslash_app; [repeat constructor|exact Ht]).
    rewrite (Hf (lit "div")) by (repeat constructor).
    unfold rewrite_times.
    rewrite (@replace_miss (lit "\times") (lit "times") (lit "div") [c_times] a t eq_refl Ha Hw eq_refl).
    rewrite (@replace_miss (lit "\\times") (lit "\times") (lit "div") [c_times] a t eq_refl Ha Hw eq_refl).
    unfold rewrite_div at 1.
    rewrite (@replace_hit (lit "\div") (lit "div") [c_div] a t eq_refl Ha Ht).
    change (a ++ [c_div] ++ t) with (a ++ c_div :: t).
    rewrite (@replace_markup_id (lit "\div") (lit "\\div")) by auto.
    now rewrite E4, E5.
Qed.

Lemma flat_map_keep (f : char -> str) (s : str) :
  Forall (fun c => f c = [c]) s -> flat_map f s = s.
Proof.
  induction 1 as [|c s Hc _ IH]; [reflexivity|].
  cbn [flat_map]. now rewrite Hc, IH.
Qed.

Lemma remove_dollars_wrapped (body : str) :
  Forall (fun c => (c_dollar =? c)%N = false) body ->
  remove_dollars ([c_dollar] ++ body ++ [c_dollar]) = body.
Proof.
  intros H. unfold remove_dollars. rewrite replace_char, !flat_map_app.
  cbn [flat_map]. rewrite N.eqb_refl. cbn [app]. rewrite app_nil_r.
  apply flat_map_keep. eapply Forall_impl; [|exact H].
  intros c Hc. cbv beta. now rewrite Hc.
Qed.

Lemma rstrip_char_snoc (c : char) (p : str) : rstrip_char c (p ++ [c]) = rstrip_char c p.
Proof.
  unfold rstrip_char. rewrite rev_app_distr. cbn [rev app drop_while].
  now rewrite N.eqb_refl.
Qed.

Lemma rstrip_char_last (c : char) (q : str) (x : char) :
  (c =? x)%N = false -> rstrip_char c (q ++ [x]) = q ++ [x].
Proof.
  intros H. unfold rstrip_char. rewrite rev_app_distr. cbn [rev app drop_while].
  rewrite H. change (x :: rev q) with ([x] ++ rev q).
  rewrite rev_app_distr, rev_involutive. reflexivity.
Qed.

(** [strip_equals] on a text without whitespace that ends with another
    character than [=], with or without one [=] after it. *)
Lemma strip_equals_plain (p : str) (x : char) :
  Forall (fun c => is_space c = false) (p ++ [x]) ->
  (c_equals =? x)%N = false ->
  strip_equals ((p ++ [x]) ++ [c_equals]) = p ++ [x]
  /\ strip_equals (p ++ [x]) = p ++ [x].
Proof.
  intros Hs Hx. unfold strip_equals.
  apply Forall_app in Hs as Hs2. destruct Hs2 as [_ Hx2].
  inversion Hx2 as [|? ? Hxs _]; subst.
  rewrite (@rstrip_id (p ++ [x]) c_equals eq_refl), rstrip_char_snoc.
  rewrite (@rstrip_id p x Hxs), (@rstrip_char_last c_equals p x Hx).
  split; apply strip_no_space, Hs.
Qed.

Lemma words_one w : word w -> words w = [w].
Proof.
  intros H. rewrite <- (app_nil_r w) at 1.
  now rewrite (@words_word w [] H eq_refl).
Qed.

Lemma exercise_spelled_out (o : operator) (a b : str) :
  operand a -> operand b ->
  sanitize_text (VStr ([c_dollar] ++ (a ++ markup o ++ b ++ [c_equals]) ++ [c_dollar]))
  = a ++ [c_space; glyph o; c_space] ++ b.
Proof.
  intros [Ha Hpa] [Hb Hpb].
  destruct (plain_facts _ Hpa) as (As & Ao & Ad & Ab & Ae).
  destruct (plain_facts _ Hpb) as (Bs & Bo & Bd & Bb & Be).
  assert (Ms : Forall (fun c => is_space c = false) (markup o))
    by (destruct o; repeat constructor).
  assert (Md : Forall (fun c => (c_dollar =? c)%N = false) (markup o))
    by (destruct o; repeat constructor).
  assert (Gs : is_space (glyph o) = false) by now destruct o.
  assert (Go : pad (glyph o) = [c_space; glyph o; c_space]) by now destruct o.
  cbn [sanitize_text py_str]. unfold sanitize_text_str.
  rewrite strip_no_space.
  2:{ repeat (apply Forall_app; split); try assumption; repeat constructor. }
  rewrite remove_dollars_wrapped.
  2:{ repeat (apply Forall_app; split); try assumption; repeat constructor. }
  rewrite markup_stage;
    [|exact Ab|apply no_backslash_app; [exact Bb|repeat constructor]].
  destruct (exists_last Hb) as (b0 & x & Eb).
  assert (Ex : (c_equals =? x)%N = false).
  { rewrite Eb in Be. apply Forall_app in Be as [_ Be]. now inversion Be. }
  assert (Hbody : Forall (fun c => is_space c = false) (a ++ glyph o :: b)).
  { apply Forall_app; split; [exact As|]. now apply Forall_cons. }
  replace (a ++ glyph o :: b ++ [c_equals])
    with (((a ++ glyph o :: b0) ++ [x]) ++ [c_equals])
    by (rewrite Eb, <- !app_assoc; reflexivity).
  assert (Ebody : (a ++ glyph o :: b0) ++ [x] = a ++ glyph o :: b)
    by (rewrite Eb, <- app_assoc; reflexivity).
  rewrite (proj1 (@strip_equals_plain (a ++ glyph o :: b0) x
                    ltac:(rewrite Ebody; exact Hbody) Ex)).
  rewrite Ebody, space_operators_pad.
  change (a ++ glyph o :: b) with (a ++ [glyph o] ++ b).
  rewrite !flat_map_app, (pad_non_op Ao), (pad_non_op Bo).
  cbn [flat_map]. rewrite Go, app_nil_r.
  rewrite collapse_spaces_words.
  rewrite (@words_word a ([c_space; glyph o; c_space] ++ b) (conj Ha As) eq_refl).
  cbn [app]. rewrite (@words_space c_space (glyph o :: c_space :: b) eq_refl).
  assert (Hg : word [glyph o])
    by (split; [discriminate|repeat constructor; exact Gs]).
  change (glyph o :: c_space :: b) with ([glyph o] ++ c_space :: b).
  rewrite (@words_word [glyph o] (c_space :: b) Hg eq_refl).
  rewrite (@words_space c_space b eq_refl), (words_one (conj Hb Bs)).
  reflexivity.
Qed.

(** X5. An exercise as the generators write it, [$a+b=$] with the operator
    in any of the markups [+], [-], [\times], [\cdot] and [\div], is
    sanitized to the two operands and the operator's glyph between single
    spaces; the dollar signs and the [=] are gone. *)
Theorem X5_exercise_is_spelled_out :
  forall (o : operator) (a b : str),
    operand a -> operand b ->
    sanitize_text (VStr ([c_dollar] ++ (a ++ markup o ++ b ++ [c_equals]) ++ [c_dollar]))
    = a ++ [c_space; glyph o; c_space] ++ b.
Proof.
  intros o a b. apply exercise_spelled_out.
Qed.

Lemma X5_witness :
  operand (lit "12") /\ operand (lit "7")
  /\ sanitize_text (VStr (lit "$12\cdot7=$")) = lit "12 " ++ [c_times] ++ lit " 7".
Proof.
  assert (Ha : operand (lit "12")) by (split; [discriminate|reflexivity]).
  assert (Hb : operand (lit "7")) by (split; [discriminate|reflexivity]).
  split; [exact Ha|]. split; [exact Hb|].
  exact (X5_exercise_is_spelled_out Cdot Ha Hb).
Defined.
(** *** Fractions *)

Lemma m_lit_app (p r : str) : m_lit p (p ++ r) = Some r.
Proof.
  induction p as [|c p IH]; [now destruct r|].
  cbn [app m_lit]. now rewrite N.eqb_refl.
Qed.

Lemma m_int_digits (n rest : str) :
  all_digits n = true ->
  match rest with c :: _ => is_digit c = false | [] => True end ->
  m_int (n ++ rest) = Some (n, rest).
Proof.
  intros Hn Hr. destruct (all_digits_forallb _ Hn) as [Hf Hne].
  destruct n as [|c n]; [contradiction|].
  cbn [forallb] in Hf. apply andb_true_iff in Hf as Hc. destruct Hc as [Hc _].
  unfold m_int. cbn [app].
  rewrite N.eqb_sym, (@class_excludes is_digit c_minus c eq_refl Hc).
  change (c :: n ++ rest) with ((c :: n) ++ rest).
  destruct (@take_while_app is_digit (c :: n) rest Hf Hr) as [-> ->].
  reflexivity.
Qed.

Lemma digits_facts n :
  all_digits n = true ->
  n <> []
  /\ Forall (fun c => is_space c = false) n
  /\ Forall (fun c => is_op c = false) n
  /\ Forall (fun c => (c_dollar =? c)%N = false) n
  /\ no_backslash n
  /\ Forall (fun c => (c_equals =? c)%N = false) n.
Proof.
  intros Hn. destruct (all_digits_forallb _ Hn) as [Hf Hne].
  split; [exact Hne|]. apply plain_facts.
  apply forallb_forall. intros c Hc.
  rewrite forallb_forall in Hf. specialize (Hf c Hc).
  unfold is_plain, is_op.
  rewrite (digit_not_space _ Hf).
  rewrite !(N.eqb_sym c).
  rewrite (@class_excludes is_digit c_plus c eq_refl Hf),
    (@class_excludes is_digit c_minus c eq_refl Hf),
    (@class_excludes is_digit c_times c eq_refl Hf),
    (@class_excludes is_digit c_div c eq_refl Hf),
    (@class_excludes is_digit c_dollar c eq_refl Hf),
    (@class_excludes is_digit c_backslash c eq_refl Hf),
    (@class_excludes is_digit c_equals c eq_refl Hf).
  reflexivity.
Qed.

Lemma fraction_rewritten (n d : str) :
  all_digits n = true -> all_digits d = true ->
  sanitize_text
    (VStr ([c_dollar] ++ (lit "\frac{" ++ n ++ lit "}{" ++ d ++ lit "}")
           ++ [c_dollar]))
  = n ++ [c_slash] ++ d.
Proof.
  intros Hn Hd.
  destruct (digits_facts _ Hn) as (Nn & Ns & No & Nd & Nb & Ne).
  destruct (digits_facts _ Hd) as (Dn & Ds & Do & Dd & Db & De).
  set (F := lit "\frac{" ++ n ++ lit "}{" ++ d ++ lit "}").
  cbn [sanitize_text py_str]. unfold sanitize_text_str.
  rewrite strip_no_space.
  2:{ subst F. repeat (apply Forall_app; split); try assumption;
      repeat constructor. }
  rewrite remove_dollars_wrapped.
  2:{ subst F. repeat (apply Forall_app; split); try assumption;
      repeat constructor. }
  assert (EF : rewrite_fractions F = n ++ [c_slash] ++ d).
  { assert (Em : m_frac F = Some (n ++ [c_slash] ++ d, List.length F)).
    { unfold m_frac. subst F. rewrite m_lit_app.
      rewrite (@m_int_digits n (lit "}{" ++ d ++ lit "}") Hn eq_refl).
      rewrite m_lit_app.
      rewrite (@m_int_digits d (lit "}") Hd eq_refl).
      change (m_lit (lit "}") (lit "}")) with (Some (@nil char)).
      cbn [List.length]. now rewrite Nat.sub_0_r. }
    unfold rewrite_fractions, sub.
    assert (EF : exists s', F = c_backslash :: s') by (eexists; reflexivity).
    destruct EF as [s' EF]. rewrite EF in *. cbn [scan]. rewrite Em.
    cbn [List.length Nat.pred].
    rewrite <- (app_nil_r s') at 2. rewrite scan_skip. cbn [scan].
    now rewrite app_nil_r. }
  rewrite EF. clear EF F.
  set (Y := n ++ [c_slash] ++ d).
  assert (Yb : no_backslash Y).
  { apply no_backslash_app; [exact Nb|].
    apply no_backslash_cons; [reflexivity|exact Db]. }
  assert (Ys : Forall (fun c => is_space c = false) Y).
  { apply Forall_app; split; [exact Ns|]. apply Forall_cons; [reflexivity|exact Ds]. }
  assert (Yo : Forall (fun c => is_op c = false) Y).
  { apply Forall_app; split; [exact No|]. apply Forall_cons; [reflexivity|exact Do]. }
  destruct (markup_step_ids Yb) as (_ & E2 & E3 & E4 & E5).
  rewrite E2, E3, E4, E5.
  destruct (exists_last Dn) as (d0 & x & Ed).
  assert (Ex : (c_equals =? x)%N = false).
  { rewrite Ed in De. apply Forall_app in De as [_ De]. now inversion De. }
  assert (EY : Y = (n ++ [c_slash] ++ d0) ++ [x])
    by (subst Y; rewrite Ed, <- !app_assoc; reflexivity).
  rewrite EY at 1.
  rewrite (proj2 (@strip_equals_plain (n ++ [c_slash] ++ d0) x
                    ltac:(rewrite <- EY; exact Ys) Ex)).
  rewrite <- EY, space_operators_pad, (pad_non_op Yo), collapse_spaces_words.
  rewrite words_one; [reflexivity|].
  split; [|exact Ys]. subst Y. destruct n; [contradiction|discriminate].
Qed.

(** X6. A fraction in markup, [$\frac{n}{d}$] with [n] and [d] strings of
    digits, is sanitized to [n/d]. *)
Theorem X6_fraction_markup_is_rewritten :
  forall n d : str,
    all_digits n = true -> all_digits d = true ->
    sanitize_text
      (VStr ([c_dollar] ++ (lit "\frac{" ++ n ++ lit "}{" ++ d ++ lit "}")
             ++ [c_dollar]))
    = n ++ [c_slash] ++ d.
Proof.
  intros n d. apply fraction_rewritten.
Qed.

Lemma X6_witness :
  all_digits (lit "3") = true /\ all_digits (lit "14") = true
  /\ sanitize_text (VStr (lit "$\frac{3}{14}$")) = lit "3/14".
Proof.
  split; [reflexivity|]. split; [reflexivity|].
  exact (@X6_fraction_markup_is_rewritten (lit "3") (lit "14") eq_refl eq_refl).
Defined.
(** *** Where the characters of a sanitized text come from *)

Lemma In_scan_suffix m k (s : str) x :
  In x (scan m k s) ->
  In x s
  \/ exists pre t out n, s = pre ++ t /\ m t = Some (out, n) /\ In x out.
Proof.
  revert k. induction s as [|c s IH]; cbn [scan]; intros k H; [now left|].
  assert (Hr : forall k', In x (scan m k' s) ->
                 In x (c :: s)
                 \/ exists pre t out n,
                      c :: s = pre ++ t /\ m t = Some (out, n) /\ In x out).
  { intros k' H'. destruct (IH _ H') as [Hs|(pre & t & out & n & E & Em & Ho)].
    - left. now right.
    - right. exists (c :: pre), t, out, n. rewrite E. now repeat split. }
  destruct k as [|k]; [|exact (Hr _ H)].
  destruct (m (c :: s)) as [[out n]|] eqn:E.
  - apply in_app_or in H as [H|H]; [|exact (Hr _ H)].
    right. now exists [], (c :: s), out, n.
  - destruct H as [->|H]; [left; now left|exact (Hr _ H)].
Qed.

Lemma m_lit_sound (p t r : str) : m_lit p t = Some r -> t = p ++ r.
Proof.
  revert t. induction p as [|a p IH]; intros t H.
  - destruct t; now injection H as <-.
  - destruct t as [|b t]; [discriminate H|]. cbn [m_lit] in H.
    destruct (N.eqb_spec a b) as [->|_]; [|discriminate H].
    cbn [app]. f_equal. now apply IH.
Qed.

Lemma m_frac_chars t out n x :
  m_frac t = Some (out, n) -> In x out -> In x t \/ x = c_slash.
Proof.
  unfold m_frac. intros H Hx.
  destruct (m_lit (lit "\frac{") t) as [r1|] eqn:E1; [|discriminate H].
  destruct (m_int r1) as [[num r2]|] eqn:E2; [|discriminate H].
  destruct (m_lit (lit "}{") r2) as [r3|] eqn:E3; [|discriminate H].
  destruct (m_int r3) as [[den r4]|] eqn:E4; [|discriminate H].
  destruct (m_lit (lit "}") r4) as [r5|] eqn:E5; [|discriminate H].
  injection H as <- _.
  apply m_lit_sound in E1, E3.
  destruct (m_int_sound _ E2) as (neg2 & nd2 & _ & _ & F2).
  destruct (m_int_sound _ E4) as (neg4 & nd4 & _ & _ & F4).
  apply in_app_or in Hx as [Hx|Hx]; [|cbn [app] in Hx; destruct Hx as [<-|Hx]].
  - left. rewrite E1, F2, !in_app_iff. tauto.
  - right. reflexivity.
  - left. rewrite E1, F2, E3, F4, !in_app_iff. tauto.
Qed.

Lemma In_space_operators_source s x :
  In x (space_operators s) -> In x s \/ x = c_space.
Proof.
  rewrite space_operators_pad. intros H.
  apply in_flat_map in H as (y & Hy & H). unfold pad in H.
  destruct (is_op y); cbn in H; intuition (subst; auto).
Qed.

Lemma In_sanitize_text_str s x :
  In x (sanitize_text_str s) ->
  In x s \/ In x [c_space; c_times; c_div; c_slash].
Proof.
  unfold sanitize_text_str. intros H.
  apply In_collapse_spaces in H as [H|H]; [|right; subst; cbn; intuition].
  apply In_space_operators_source in H as [H|H]; [|right; subst; cbn; intuition].
  unfold strip_equals in H. apply In_strip, In_rstrip_char, In_rstrip in H.
  apply In_scan in H as [H|(t & out & n & E & H)].
  2:{ unfold m_escape in E. destruct t as [|c r]; [discriminate E|].
      destruct (c =? c_backslash)%N; [|discriminate E].
      injection E as <- _. destruct H. }
  apply In_replace in H as [H|H]; [|right; cbn in H |- *; tauto].
  unfold rewrite_div in H.
  apply In_replace in H as [H|H]; [|right; cbn in H |- *; tauto].
  apply In_replace in H as [H|H]; [|right; cbn in H |- *; tauto].
  unfold rewrite_times in H.
  apply In_replace in H as [H|H]; [|right; cbn in H |- *; tauto].
  apply In_replace in H as [H|H]; [|right; cbn in H |- *; tauto].
  apply In_scan_suffix in H as [H|(pre & t & out & n & Es & E & H)].
  - apply In_replace in H as [H|[]]. left. now apply In_strip in H.
  - destruct (m_frac_chars _ _ E H) as [Ht| ->]; [|right; subst; cbn; intuition].
    assert (Hs : In x (remove_dollars (strip s)))
      by (rewrite Es; apply in_or_app; now right).
    apply In_replace in Hs as [Hs|[]]. left. now apply In_strip in Hs.
Qed.

(** X12. The text sanitizer invents nothing: every character of the
    sanitized text is a character of the input, or one of the four the
    sanitizer writes itself, the space, the glyphs [×] and [÷] and the slash
    of a fraction. *)
Theorem X12_text_invents_nothing :
  forall (s : value) (c : char),
    In c (sanitize_text s) ->
    In c (py_str s) \/ In c [c_space; c_times; c_div; c_slash].
Proof.
  intros [|t|n|x] c H; [destruct H|..];
    apply In_sanitize_text_str; exact H.
Qed.

Lemma X12_witness :
  In c_times (sanitize_text (VStr (lit "3\cdot4")))
  /\ (In c_times (lit "3\cdot4") \/ In c_times [c_space; c_times; c_div; c_slash]).
Proof.
  assert (H : In c_times (sanitize_text (VStr (lit "3\cdot4"))))
    by (vm_compute; tauto).
  split; [exact H|].
  exact (@X12_text_invents_nothing (VStr (lit "3\cdot4")) c_times H).
Defined.

(** *** Rewriting comes before the removal of escapes *)

Lemma take_while_id p (s : str) :
  Forall (fun c => p c = true) s -> take_while p s = s.
Proof.
  induction 1 as [|c s Hc _ IH]; [reflexivity|].
  cbn [take_while]. now rewrite Hc, IH.
Qed.

(** What the removal of escapes makes of a backslash followed by text
    without whitespace: nothing is left of either. *)
Lemma remove_escapes_token (a rest : str) :
  no_backslash a ->
  Forall (fun c => is_space c = false) rest ->
  remove_escapes (a ++ c_backslash :: rest) = a.
Proof.
  intros Ha Hr. unfold remove_escapes, sub.
  rewrite (@scan_prefix m_escape a (c_backslash :: rest) m_escape_head Ha).
  cbn [scan m_escape]. rewrite N.eqb_refl. cbn [app Nat.pred].
  rewrite take_while_id.
  - rewrite <- (app_nil_r rest) at 2. rewrite scan_skip. cbn [scan].
    apply app_nil_r.
  - eapply Forall_impl; [|exact Hr]. intros c Hc. cbv beta. now rewrite Hc.
Qed.

Lemma escapes_first_destroy_operator (o : operator) (a b : str) :
  operand a -> operand b -> In c_backslash (markup o) ->
  remove_escapes (a ++ markup o ++ b) = a.
Proof.
  intros [_ Hpa] [_ Hpb] Ho.
  destruct (plain_facts _ Hpa) as (_ & _ & _ & Ab & _).
  destruct (plain_facts _ Hpb) as (Bs & _).
  assert (G : forall w : str,
             Forall (fun c => is_space c = false) w ->
             remove_escapes (a ++ c_backslash :: w ++ b) = a).
  { intros w Hw. apply remove_escapes_token; [exact Ab|].
    apply Forall_app. split; [exact Hw|exact Bs]. }
  destruct o.
  - exfalso. vm_compute in Ho. intuition discriminate.
  - exfalso. vm_compute in Ho. intuition discriminate.
  - apply (G (lit "times")). repeat constructor.
  - apply (G (lit "cdot")). repeat constructor.
  - apply (G (lit "div")). repeat constructor.
Qed.

Lemma escapes_first_destroy_fraction (n d : str) :
  all_digits n = true -> all_digits d = true ->
  remove_escapes (lit "\frac{" ++ n ++ lit "}{" ++ d ++ lit "}") = [].
Proof.
  intros Hn Hd.
  destruct (digits_facts _ Hn) as (_ & Ns & _).
  destruct (digits_facts _ Hd) as (_ & Ds & _).
  change (lit "\frac{" ++ n ++ lit "}{" ++ d ++ lit "}")
    with ([] ++ c_backslash :: lit "frac{" ++ n ++ lit "}{" ++ d ++ lit "}").
  apply remove_escapes_token; [constructor|].
  repeat (apply Forall_app; split); try assumption; repeat constructor.
Qed.

(** C8. For every raw text input, and so for every one that contains a markup
    fraction token, the output of [sanitize_text] contains no backslash: the
    catch-all removal of escape tokens deletes every backslash, and no later
    step brings one back.  The removal runs after the rewriting of the
    recognized markup, so that markup is rewritten, not deleted: an exercise
    [$a\times b=$], [$a\cdot b=$] or [$a\div b=$] keeps its operator as a
    glyph and its right operand, and a fraction [$\frac{n}{d}$] becomes
    [n/d]; the removal alone, applied to the same text, would leave nothing
    of the operator and of what follows it, and nothing of the fraction. *)
Theorem C8_no_backslash_in_output :
  (forall s : value, ~ In c_backslash (sanitize_text s))
  /\ (forall s : str, ~ In c_backslash (remove_escapes s))
  /\ (forall (o : operator) (a b : str),
         operand a -> operand b ->
         sanitize_text
           (VStr ([c_dollar] ++ (a ++ markup o ++ b ++ [c_equals]) ++ [c_dollar]))
         = a ++ [c_space; glyph o; c_space] ++ b
         /\ (In c_backslash (markup o) ->
             remove_escapes (a ++ markup o ++ b) = a))
  /\ (forall n d : str,
         all_digits n = true -> all_digits d = true ->
         sanitize_text
           (VStr ([c_dollar] ++ (lit "\frac{" ++ n ++ lit "}{" ++ d ++ lit "}")
                  ++ [c_dollar]))
         = n ++ [c_slash] ++ d
         /\ remove_escapes (lit "\frac{" ++ n ++ lit "}{" ++ d ++ lit "}") = [])
  /\ sanitize_text (VStr (lit "\frac{1}{2} \times 4 ="))
     = lit "1/2 " ++ [c_times] ++ lit " 4".
Proof.
  split; [|split; [|split; [|split]]].
  - intros s. unfold sanitize_text.
    destruct s; [intros []| | |]; apply sanitize_text_str_no_backslash.
  - intros s. apply scan_escape_no_backslash.
  - intros o a b Ha Hb. split.
    + now apply exercise_spelled_out.
    + now apply escapes_first_destroy_operator.
  - intros n d Hn Hd. split.
    + now apply fraction_rewritten.
    + now apply escapes_first_destroy_fraction.
  - vm_compute. reflexivity.
Qed.

Lemma C8_witness :
  operand (lit "8") /\ operand (lit "2")
  /\ all_digits (lit "3") = true /\ all_digits (lit "14") = true
  /\ sanitize_text (VStr (lit "$8\div2=$")) = lit "8 " ++ [c_div] ++ lit " 2"
  /\ remove_escapes (lit "8\div2") = lit "8"
  /\ sanitize_text (VStr (lit "$\frac{3}{14}$")) = lit "3/14"
  /\ remove_escapes (lit "\frac{3}{14}") = [].
Proof.
  assert (Ha : operand (lit "8")) by (split; [discriminate|reflexivity]).
  assert (Hb : operand (lit "2")) by (split; [discriminate|reflexivity]).
  assert (Ho : In c_backslash (markup Div)) by (left; reflexivity).
  pose proof (proj1 (proj2 (proj2 C8_no_backslash_in_output)) Div
                (lit "8") (lit "2") Ha Hb) as [E1 E2].
  pose proof (proj1 (proj2 (proj2 (proj2 C8_no_backslash_in_output)))
                (lit "3") (lit "14") eq_refl eq_refl) as [E3 E4].
  split; [exact Ha|]. split; [exact Hb|].
  split; [reflexivity|]. split; [reflexivity|].
  split; [exact E1|]. split; [exact (E2 Ho)|]. split; [exact E3|exact E4].
Defined.

(** * Further properties of the answer sanitizer *)

(** ** Plain numbers *)

Lemma number_text_candidate (s : str) :
  Forall (fun c => is_digit c = true \/ In c [c_plus; c_minus; c_dot]) s ->
  answer_candidate (VStr s) = s /\ replace [c_comma] [] s = s.
Proof.
  intros H.
  assert (L : forall k, is_digit k = false -> ~ In k [c_plus; c_minus; c_dot] ->
                Forall (fun c => (k =? c)%N = false) s).
  { intros k Hk Hn. eapply Forall_impl; [|exact H].
    intros c [Hc|Hc].
    - now apply class_excludes with (p := is_digit).
    - apply N.eqb_neq. intros ->. exact (Hn Hc). }
  unfold answer_candidate. cbn [py_str].
  rewrite strip_no_space.
  - rewrite (@replace_absent c_dollar []) by (apply L; [reflexivity|cbn; intuition discriminate]).
    change (lit "\,") with (c_backslash :: lit ",").
    rewrite (@replace_absent c_backslash (lit ","))
      by (apply L; [reflexivity|cbn; intuition discriminate]).
    rewrite (@replace_absent c_uminus [])
      by (apply L; [reflexivity|cbn; intuition discriminate]).
    split; [reflexivity|].
    apply replace_absent, L; [reflexivity|cbn; intuition discriminate].
  - eapply Forall_impl; [|exact H].
    intros c [Hc|Hc]; [now apply digit_not_space|].
    cbn in Hc. repeat (destruct Hc as [<-|Hc]; [reflexivity|]). destruct Hc.
Qed.

Lemma plain_number_chars sign ip fp :
  is_sign sign -> all_digits ip = true -> fp = [] \/ all_digits fp = true ->
  Forall (fun c => is_digit c = true \/ In c [c_plus; c_minus; c_dot])
    (sign ++ ip ++ fraction_text fp).
Proof.
  intros Hs Hi Hf. destruct (all_digits_forallb _ Hi) as [Hi' _].
  rewrite forallb_forall in Hi'.
  repeat (apply Forall_app; split).
  - destruct Hs as [->|[->| ->]]; repeat constructor; right; cbn; tauto.
  - apply Forall_forall. intros c Hc. left. now apply Hi'.
  - destruct Hf as [->|Hf]; [constructor|].
    destruct (all_digits_forallb _ Hf) as [Hf' Hne].
    rewrite forallb_forall in Hf'.
    destruct fp as [|x fp]; [contradiction|]. cbn [fraction_text].
    apply Forall_cons; [right; cbn; tauto|].
    apply Forall_forall. intros c Hc. left. now apply Hf'.
Qed.

Lemma plain_number_answer (sign ip fp : str) :
  is_sign sign -> all_digits ip = true -> fp = [] \/ all_digits fp = true ->
  sanitize_answer (VStr (sign ++ ip ++ fraction_text fp))
  = Ok (Some (round_ratio (str_eqb sign [c_minus])
                (value_of_digits (digit_values (ip ++ fp)))
                (10 ^ Z.of_nat (List.length fp)))).
Proof.
  intros Hs Hi Hf.
  destruct (@number_text_candidate _ (@plain_number_chars sign ip fp Hs Hi Hf))
    as [Ec Ep].
  assert (Hs' : sign = [c_minus] \/ sign = [c_plus] \/ sign = [])
    by (unfold is_sign in Hs; tauto).
  pose proof (@parse_plain_complete sign ip fp Hs' Hi Hf) as Epp.
  unfold sanitize_answer. rewrite Ec, Ep.
  unfold fullmatch_plain, py_float. rewrite Epp. reflexivity.
Qed.

(** X7. A number in plain notation, an optional sign, digits and an optional
    fraction, is read as its decimal value rounded to the nearest float;
    the sign is kept, also in front of a zero. *)
Theorem X7_plain_number_is_rounded :
  forall sign ip fp : str,
    is_sign sign -> all_digits ip = true -> fp = [] \/ all_digits fp = true ->
    sanitize_answer (VStr (sign ++ ip ++ fraction_text fp))
    = Ok (Some (round_ratio (str_eqb sign [c_minus])
                  (value_of_digits (digit_values (ip ++ fp)))
                  (10 ^ Z.of_nat (List.length fp)))).
Proof.
  intros sign ip fp. apply plain_number_answer.
Qed.

Lemma X7_witness :
  is_sign [c_plus] /\ all_digits (lit "12") = true
  /\ (lit "50" = [] \/ all_digits (lit "50") = true)
  /\ sanitize_answer (VStr (lit "+12.50"))
     = Ok (Some (S754_finite false 7036874417766400 (-49)))
  /\ 7036874417766400 * 2 = 25 * 2 ^ 49.
Proof.
  assert (Hs : is_sign [c_plus]) by (right; left; reflexivity).
  assert (Hf : lit "50" = [] \/ all_digits (lit "50") = true)
    by (right; reflexivity).
  split; [exact Hs|]. split; [reflexivity|]. split; [exact Hf|].
  split; [|reflexivity].
  exact (@X7_plain_number_is_rounded [c_plus] (lit "12") (lit "50")
           Hs eq_refl Hf).
Defined.

(** ** Integers *)

Lemma round_ratio_integer neg a :
  0 < a <= 2 ^ 53 ->
  exists m e, round_ratio neg a 1 = S754_finite neg m e
              /\ Zpos m * up e = a * dn e.
Proof.
  intros [Ha Hb].
  destruct (Z.eq_dec a (2 ^ 53)) as [->|Hne].
  - exists (Z.to_pos (2 ^ 52)), 1. split; [destruct neg; vm_compute|]; reflexivity.
  - assert (Hlt : a < 2 ^ 53) by lia.
    pose proof (Z.log2_spec a Ha) as [Hlo Hhi].
    pose proof (Z.log2_nonneg a) as Hk0.
    assert (Hk : Z.log2 a < 53).
    { apply Z.log2_lt_pow2; [exact Ha|exact Hlt]. }
    set (k := Z.log2 a) in *.
    set (j := 52 - k).
    assert (Hj : 0 <= j) by (unfold j; lia).
    assert (Hp : 0 < 2 ^ j) by (apply pow2_pos; lia).
    assert (E52 : 2 ^ k * 2 ^ j = 2 ^ 52).
    { rewrite <- Z.pow_add_r by lia. f_equal. unfold j. lia. }
    assert (E53 : 2 ^ Z.succ k * 2 ^ j = 2 ^ 53).
    { rewrite <- Z.pow_add_r by lia. f_equal. unfold j. lia. }
    assert (Hm : 0 < a * 2 ^ j) by nia.
    destruct (a * 2 ^ j) as [|m|] eqn:Em; try lia.
    assert (Hup : up (k - 52) = 1).
    { unfold up. rewrite Z.max_r by lia. reflexivity. }
    assert (Hdn : dn (k - 52) = 2 ^ j).
    { unfold dn. rewrite Z.max_l by lia. f_equal. unfold j. lia. }
    assert (Hc : canonical m (k - 52)).
    { unfold canonical, prec, emin, emax. rewrite <- Em.
      change (53 - 1) with 52. split; [nia|]. split; [lia|]. left. nia. }
    exists m, (k - 52). split.
    + rewrite <- (round_ratio_exact neg Hc), Hup, Hdn.
      apply round_ratio_same_value; lia.
    + rewrite Hup, Hdn. lia.
Qed.

Lemma float_is_integer neg a :
  0 <= a <= 2 ^ 53 ->
  float_is (round_ratio neg a 1) (if neg then - a else a).
Proof.
  intros [Ha Hb]. destruct (Z.eq_dec a 0) as [->|Hne].
  - now destruct neg.
  - destruct (@round_ratio_integer neg a ltac:(lia)) as (m & e & -> & E).
    cbn [float_is]. destruct neg; lia.
Qed.

Lemma int_repr_value n :
  exists ds, int_repr n = (if n <? 0 then [c_minus] else []) ++ ds
             /\ all_digits ds = true
             /\ value_of_digits (digit_values ds) = Z.abs n.
Proof.
  destruct (digits_spec (Z.abs_nonneg n)) as (Ev & Hd & Hne).
  exists (show_digits (digits (Z.abs n))). split; [reflexivity|]. split.
  - now apply show_digits_all.
  - now rewrite show_digits_values.
Qed.

(** X8. An integer of magnitude at most [2 ^ 53], given as a number or as a
    string of digits with an optional minus sign, is returned as the float
    of exactly that value. *)
Theorem X8_small_integer_is_exact :
  (forall (neg : bool) (ds : str),
      all_digits ds = true ->
      value_of_digits (digit_values ds) <= 2 ^ 53 ->
      exists x,
        sanitize_answer (VStr ((if neg then [c_minus] else []) ++ ds))
        = Ok (Some x)
        /\ float_is x (if neg then - value_of_digits (digit_values ds)
                       else value_of_digits (digit_values ds)))
  /\ (forall n : Z,
         Z.abs n <= 2 ^ 53 ->
         exists x, sanitize_answer (VInt n) = Ok (Some x) /\ float_is x n).
Proof.
  assert (G : forall (neg : bool) (ds : str),
             all_digits ds = true ->
             value_of_digits (digit_values ds) <= 2 ^ 53 ->
             forall a, py_str a = (if neg then [c_minus] else []) ++ ds ->
                       a <> VNone ->
             exists x,
               sanitize_answer a = Ok (Some x)
               /\ float_is x (if neg then - value_of_digits (digit_values ds)
                              else value_of_digits (digit_values ds))).
  { intros neg ds Hd Hv a Ea Hn.
    assert (Hs : is_sign (if neg then [c_minus] else []))
      by (destruct neg; unfold is_sign; tauto).
    pose proof (@plain_number_answer (if neg then [c_minus] else []) ds []
                  Hs Hd (or_introl eq_refl)) as E.
    cbn [fraction_text List.length Z.of_nat] in E.
    rewrite !app_nil_r in E. change (10 ^ 0) with 1 in E.
    eexists. split.
    - transitivity (sanitize_answer (VStr ((if neg then [c_minus] else []) ++ ds))).
      + destruct a; try contradiction; unfold sanitize_answer, answer_candidate;
          now rewrite Ea.
      + exact E.
    - replace (str_eqb (if neg then [c_minus] else []) [c_minus]) with neg
        by now destruct neg.
      apply float_is_integer. split; [apply value_of_digits_nonneg|exact Hv]. }
  split.
  - intros neg ds Hd Hv. apply (G neg ds Hd Hv); [reflexivity|discriminate].
  - intros n Hn. destruct (int_repr_value n) as (ds & Er & Hd & Ev).
    destruct (G (n <? 0) ds Hd ltac:(lia) (VInt n) Er ltac:(discriminate))
      as (x & Ex & Hx).
    exists x. split; [exact Ex|]. rewrite Ev in Hx.
    destruct (Z.ltb_spec n 0); [replace n with (- Z.abs n) by lia|
                                replace n with (Z.abs n) by lia]; exact Hx.
Qed.
Lemma X8_witness :
  all_digits (lit "19") = true
  /\ value_of_digits (digit_values (lit "19")) <= 2 ^ 53
  /\ Z.abs (-40) <= 2 ^ 53
  /\ (exists x, sanitize_answer (VStr (lit "-19")) = Ok (Some x)
                /\ float_is x (-19))
  /\ (exists x, sanitize_answer (VInt (-40)) = Ok (Some x) /\ float_is x (-40)).
Proof.
  assert (H1 : value_of_digits (digit_values (lit "19")) <= 2 ^ 53)
    by (vm_compute; discriminate).
  assert (H2 : Z.abs (-40) <= 2 ^ 53) by (vm_compute; discriminate).
  split; [reflexivity|]. split; [exact H1|]. split; [exact H2|]. split.
  - exact (proj1 X8_small_integer_is_exact true (lit "19") eq_refl H1).
  - exact (proj2 X8_small_integer_is_exact (-40) H2).
Defined.

(** ** Exceptions *)

Lemma py_float_plain s : fullmatch_plain s = true -> exists x, py_float s = Ok x.
Proof.
  unfold fullmatch_plain, py_float.
  destruct (parse_plain s) as [[[neg ip] fp]|]; [eauto|discriminate].
Qed.

Lemma split_sign_digits (sg : bool) (ds : str) :
  all_digits ds = true ->
  split_sign true ((if sg then [c_minus] else []) ++ ds) = (sg, ds).
Proof.
  intros H. destruct sg; [reflexivity|].
  destruct ds as [|c r]; [discriminate|]. cbn [app split_sign andb].
  cbn [all_digits forallb] in H. apply andb_true_iff in H as [Hc _].
  rewrite (N.eqb_sym c c_minus), (N.eqb_sym c c_plus).
  now rewrite (@class_excludes is_digit c_minus c eq_refl Hc),
    (@class_excludes is_digit c_plus c eq_refl Hc).
Qed.

Lemma sanitize_answer_raise (a : value) (e : exn) :
  sanitize_answer a = Raise e ->
  exists g1 g2,
    fullmatch_fraction (answer_candidate a) = Some (g1, g2)
    /\ ((e = ValueError
         /\ (max_str_digits < digit_count g1
             \/ max_str_digits < digit_count g2)%nat)
        \/ (e = OverflowError
            /\ exists num den,
                 py_int g1 = Ok num /\ py_int g2 = Ok den
                 /\ 0 < den /\ overflow_threshold * den <= Z.abs num)).
Proof.
  intros H.
  assert (G : forall s s',
             (if fullmatch_plain s'
              then x <- py_float s' ;; Ok (Some x)
              else match fullmatch_fraction s with
                   | Some (g1, g2) =>
                       num <- py_int g1 ;;
                       den <- py_int g2 ;;
                       if (den =? 0)%Z then Ok None
                       else x <- truediv num den ;; Ok (Some x)
                   | None => Ok None
                   end) = Raise e ->
             exists g1 g2,
               fullmatch_fraction s = Some (g1, g2)
               /\ ((e = ValueError
                    /\ (max_str_digits < digit_count g1
                        \/ max_str_digits < digit_count g2)%nat)
                   \/ (e = OverflowError
                       /\ exists num den,
                            py_int g1 = Ok num /\ py_int g2 = Ok den
                            /\ 0 < den
                            /\ overflow_threshold * den <= Z.abs num))).
  { clear. intros s s' H.
    destruct (fullmatch_plain s') eqn:Ep.
    { destruct (py_float_plain _ Ep) as [x Ex]. rewrite Ex in H. discriminate H. }
    destruct (fullmatch_fraction s) as [[g1 g2]|] eqn:Ef; [|discriminate H].
    exists g1, g2. split; [reflexivity|].
    destruct (fullmatch_fraction_sound _ Ef)
      as (neg & nd & w1 & w2 & _ & Eg & Hnd & Hg2 & _ & _).
    pose proof (py_int_digits neg nd Hnd) as E1. rewrite <- Eg in E1.
    pose proof (py_int_digits false g2 Hg2) as E2. cbn [app] in E2.
    assert (C1 : digit_count g1 = List.length nd).
    { unfold digit_count. now rewrite Eg, (split_sign_digits neg nd Hnd). }
    assert (C2 : digit_count g2 = List.length g2).
    { unfold digit_count.
      pose proof (split_sign_digits false g2 Hg2) as E. cbn [app] in E.
      now rewrite E. }
    rewrite C1, C2.
    destruct (Nat.ltb_spec max_str_digits (List.length nd)) as [L1|L1].
    { rewrite E1 in H. cbn [bind] in H. injection H as <-. left. tauto. }
    destruct (Nat.ltb_spec max_str_digits (List.length g2)) as [L2|L2].
    { rewrite E1, E2 in H. cbn [bind] in H. injection H as <-. left. tauto. }
    right. rewrite E1, E2 in H. cbn [bind] in H.
    set (num := if neg then - value_of_digits (digit_values nd)
                else value_of_digits (digit_values nd)) in *.
    set (den := value_of_digits (digit_values g2)) in *.
    pose proof (value_of_digits_nonneg (digit_values g2)) as Hd0. fold den in Hd0.
    destruct (Z.eqb_spec den 0) as [E0|Hne]; [discriminate H|].
    unfold truediv in H. destruct (Z.eqb_spec den 0) as [E0|_]; [contradiction|].
    replace (Z.abs den) with den in H by lia.
    destruct (round_ratio (xorb (num <? 0) (den <? 0)) (Z.abs num) den)
      as [| sg | |] eqn:Er; try discriminate H.
    cbn [bind] in H. injection H as <-. split; [reflexivity|].
    exists num, den. repeat split; try assumption; [lia|].
    apply (@round_ratio_infinite (xorb (num <? 0) (den <? 0)) (Z.abs num) den sg);
      [lia|lia|exact Er]. }
  destruct a as [|s|n|x]; [discriminate H|apply G in H; exact H..].
Qed.

Lemma sanitize_answer_raise_Exception (a : value) (e : exn) :
  sanitize_answer a = Raise e -> is_Exception e = true.
Proof.
  intros H. destruct (sanitize_answer_raise _ H)
    as (g1 & g2 & _ & [[-> _]|[-> _]]); reflexivity.
Qed.

(** X9. On a string, the answer sanitizer raises only from the fraction
    rule, and only two exceptions: [ValueError] when the numerator or the
    denominator has more digits than [int] reads (4300), and [OverflowError]
    when both are read and the magnitude of the quotient is at least
    [2 ^ 1024 - 2 ^ 970].  The plain-number rule and a zero denominator raise
    nothing. *)
Theorem X9_exceptions_of_the_fraction_rule :
  forall (s : str) (e : exn),
    sanitize_answer (VStr s) = Raise e ->
    exists g1 g2,
      fullmatch_fraction (answer_candidate (VStr s)) = Some (g1, g2)
      /\ ((e = ValueError
           /\ (max_str_digits < digit_count g1
               \/ max_str_digits < digit_count g2)%nat)
          \/ (e = OverflowError
              /\ exists num den,
                   py_int g1 = Ok num /\ py_int g2 = Ok den
                   /\ 0 < den /\ overflow_threshold * den <= Z.abs num)).
Proof.
  intros s e. apply sanitize_answer_raise.
Qed.

Lemma X9_witness :
  let s := lit "1" ++ repeat c_zero 309 ++ lit "/1" in
  sanitize_answer (VStr s) = Raise OverflowError
  /\ exists g1 g2,
       fullmatch_fraction (answer_candidate (VStr s)) = Some (g1, g2)
       /\ ((OverflowError = ValueError
            /\ (max_str_digits < digit_count g1
                \/ max_str_digits < digit_count g2)%nat)
           \/ (OverflowError = OverflowError
               /\ exists num den,
                    py_int g1 = Ok num /\ py_int g2 = Ok den
                    /\ 0 < den /\ overflow_threshold * den <= Z.abs num)).
Proof.
  intros s.
  assert (H : sanitize_answer (VStr s) = Raise OverflowError)
    by (vm_compute; reflexivity).
  split; [exact H|].
  exact (X9_exceptions_of_the_fraction_rule s H).
Defined.

(** ** Characters that make an answer unreadable *)

Lemma In_drop_while_keep p (s : str) c :
  In c s -> p c = false -> In c (drop_while p s).
Proof.
  intros Hin Hc. induction s as [|x s IH]; [destruct Hin|].
  cbn [drop_while]. destruct (p x) eqn:Ex; [|exact Hin].
  destruct Hin as [->|Hin]; [congruence|now apply IH].
Qed.

Lemma In_strip_keep s c : In c s -> is_space c = false -> In c (strip s).
Proof.
  intros Hin Hc. unfold strip, lstrip, rstrip.
  apply In_drop_while_keep; [|exact Hc].
  apply in_rev. rewrite rev_involutive.
  apply In_drop_while_keep; [|exact Hc]. now apply in_rev in Hin.
Qed.

Lemma starts_with_skipn (p s : str) :
  starts_with p s = true -> s = p ++ skipn (List.length p) s.
Proof.
  revert s. induction p as [|a p IH]; intros s H; [reflexivity|].
  destruct s as [|b s]; [discriminate H|].
  cbn [starts_with] in H. apply andb_true_iff in H as [Hab H].
  apply N.eqb_eq in Hab. subst b. cbn [List.length skipn app].
  f_equal. now apply IH.
Qed.

Lemma In_scan_keep old new c :
  old <> [] -> ~ In c old ->
  forall s k, In c (skipn k s) -> In c (scan (m_literal old new) k s).
Proof.
  intros Ho Hc. induction s as [|x s IH]; intros k Hin.
  - now destruct k.
  - destruct k as [|k]; cbn [scan].
    + cbn [skipn] in Hin. unfold m_literal at 1.
      destruct (starts_with old (x :: s)) eqn:Es.
      * apply in_or_app. right. apply IH.
        apply starts_with_skipn in Es. rewrite Es in Hin.
        apply in_app_or in Hin as [Hin|Hin]; [contradiction|].
        destruct old as [|o old]; [contradiction|].
        cbn [List.length skipn Nat.pred] in *. exact Hin.
      * destruct Hin as [->|Hin]; [now left|right].
        apply IH. exact Hin.
    + apply IH. exact Hin.
Qed.

Lemma In_replace_keep old new s c :
  old <> [] -> ~ In c old -> In c s -> In c (replace old new s).
Proof.
  intros Ho Hc Hin. unfold replace, sub. now apply In_scan_keep.
Qed.

Lemma answer_char_facts c :
  is_answer_char c = false ->
  is_digit c = false /\ is_space c = false
  /\ ~ In c [c_plus; c_minus; c_uminus; c_dot; c_comma; c_slash; c_dollar;
             c_backslash].
Proof.
  unfold is_answer_char. intros H.
  apply orb_false_iff in H as [H H3]. apply orb_false_iff in H as [H1 H2].
  split; [exact H1|]. split; [exact H2|].
  intros Hin. rewrite <- not_true_iff_false in H3. apply H3.
  apply existsb_exists. exists c. split; [exact Hin|apply N.eqb_refl].
Qed.

(** X10. An answer that holds one character that cannot be part of a number,
    a letter, a percent sign, the [e] of an exponent, is not read at all:
    the result is [None] whatever else the string holds. *)
Theorem X10_foreign_character_gives_none :
  forall (s : str) (c : char),
    In c s -> is_answer_char c = false ->
    sanitize_answer (VStr s) = Ok None.
Proof.
  intros s c Hin Hc.
  destruct (answer_char_facts _ Hc) as (Hd & Hs & Hn).
  assert (Hcand : In c (answer_candidate (VStr s))).
  { unfold answer_candidate. cbn [py_str].
    apply In_replace_keep;
      [discriminate|intros Hx; apply Hn; vm_compute in Hx |- *; tauto|].
    apply In_replace_keep;
      [discriminate|intros Hx; apply Hn; vm_compute in Hx |- *; tauto|].
    apply In_replace_keep;
      [discriminate|intros Hx; apply Hn; vm_compute in Hx |- *; tauto|].
    now apply In_strip_keep. }
  assert (Hplain : In c (replace [c_comma] [] (answer_candidate (VStr s)))).
  { apply In_replace_keep;
      [discriminate|intros Hx; apply Hn; vm_compute in Hx |- *; tauto|exact Hcand]. }
  unfold sanitize_answer.
  destruct (fullmatch_plain _) eqn:Ep.
  - exfalso. unfold fullmatch_plain in Ep.
    destruct (parse_plain _) as [[[neg ip] fp]|] eqn:Epp; [|discriminate Ep].
    destruct (parse_plain_sound _ Epp) as (sign & Es & Hsign & Hip & Hfp).
    rewrite Es in Hplain.
    destruct (all_digits_forallb _ Hip) as [Hip' _].
    rewrite forallb_forall in Hip'.
    apply in_app_or in Hplain as [H|H].
    { apply Hn. destruct Hsign as [[-> _]|[[->| ->] _]]; cbn in H |- *; tauto. }
    apply in_app_or in H as [H|H].
    { rewrite (Hip' _ H) in Hd. discriminate Hd. }
    destruct Hfp as [->|Hfp]; [destruct H|].
    destruct (all_digits_forallb _ Hfp) as [Hfp' Hne].
    rewrite forallb_forall in Hfp'.
    destruct fp as [|y fp]; [contradiction|]. cbn [fraction_text] in H.
    destruct H as [<-|H]; [apply Hn; cbn; tauto|].
    rewrite (Hfp' _ H) in Hd. discriminate Hd.
  - destruct (fullmatch_fraction _) as [[g1 g2]|] eqn:Ef; [|reflexivity].
    exfalso.
    destruct (fullmatch_fraction_sound _ Ef)
      as (neg & nd & w1 & w2 & Es & Eg & Hnd & Hg2 & Hw1 & Hw2).
    rewrite Es, Eg in Hcand.
    destruct (all_digits_forallb _ Hnd) as [Hnd' _].
    destruct (all_digits_forallb _ Hg2) as [Hg2' _].
    rewrite forallb_forall in Hnd', Hg2', Hw1, Hw2.
    rewrite !in_app_iff in Hcand.
    destruct Hcand as [[H|H]|[H|[H|[H|H]]]].
    + apply Hn. destruct neg; cbn in H |- *; tauto.
    + rewrite (Hnd' _ H) in Hd. discriminate Hd.
    + rewrite (Hw1 _ H) in Hs. discriminate Hs.
    + apply Hn. cbn in H |- *. tauto.
    + rewrite (Hw2 _ H) in Hs. discriminate Hs.
    + rewrite (Hg2' _ H) in Hd. discriminate Hd.
Qed.

Lemma X10_witness :
  In 112%N (lit "12 apples") /\ is_answer_char 112%N = false
  /\ sanitize_answer (VStr (lit "12 apples")) = Ok None.
Proof.
  assert (H : In 112%N (lit "12 apples")) by (vm_compute; tauto).
  split; [exact H|]. split; [reflexivity|].
  exact (@X10_foreign_character_gives_none (lit "12 apples") 112%N H eq_refl).
Defined.
(** ** The minus sign U+2212 *)

Lemma ascii_minus_space c : is_space (ascii_minus c) = is_space c.
Proof.
  unfold ascii_minus. destruct (N.eqb_spec c c_uminus) as [->|_]; reflexivity.
Qed.

Lemma ascii_minus_idem c : ascii_minus (ascii_minus c) = ascii_minus c.
Proof.
  unfold ascii_minus at 2. destruct (N.eqb_spec c c_uminus) as [->|H]; [reflexivity|].
  unfold ascii_minus. now apply N.eqb_neq in H as ->.
Qed.

Lemma drop_while_ascii_minus s :
  drop_while is_space (List.map ascii_minus s)
  = List.map ascii_minus (drop_while is_space s).
Proof.
  induction s as [|c s IH]; [reflexivity|].
  cbn [List.map drop_while]. rewrite ascii_minus_space.
  destruct (is_space c); [exact IH|reflexivity].
Qed.

Lemma strip_ascii_minus s :
  strip (List.map ascii_minus s) = List.map ascii_minus (strip s).
Proof.
  unfold strip, lstrip, rstrip.
  now rewrite <- map_rev, drop_while_ascii_minus, <- map_rev, drop_while_ascii_minus.
Qed.

Lemma starts_with_ascii_minus old s :
  Forall (fun o => o <> c_uminus /\ o <> c_minus) old ->
  starts_with old (List.map ascii_minus s) = starts_with old s.
Proof.
  intros Ho. revert s. induction Ho as [|o old [H1 H2] _ IH]; intros s.
  - now destruct s.
  - destruct s as [|c s]; [reflexivity|]. cbn [List.map starts_with].
    rewrite IH. f_equal. unfold ascii_minus.
    destruct (N.eqb_spec c c_uminus) as [->|_]; [|reflexivity].
    apply N.eqb_neq in H1, H2. now rewrite H1, H2.
Qed.

Lemma replace_ascii_minus old new s :
  Forall (fun o => o <> c_uminus /\ o <> c_minus) old ->
  List.map ascii_minus new = new ->
  replace old new (List.map ascii_minus s)
  = List.map ascii_minus (replace old new s).
Proof.
  intros Ho Hn. unfold replace, sub. generalize 0%nat as k.
  induction s as [|c s IH]; intros k; [reflexivity|].
  cbn [List.map scan]. destruct k as [|k]; [|apply IH].
  unfold m_literal.
  change (ascii_minus c :: List.map ascii_minus s)
    with (List.map ascii_minus (c :: s)).
  rewrite (starts_with_ascii_minus _ Ho).
  destruct (starts_with old (c :: s)).
  - now rewrite map_app, Hn, IH.
  - cbn [List.map]. now rewrite IH.
Qed.

Lemma replace_uminus s :
  replace [c_uminus] [c_minus] s = List.map ascii_minus s.
Proof.
  rewrite replace_char. induction s as [|c s IH]; [reflexivity|].
  cbn [flat_map List.map]. rewrite IH. unfold ascii_minus.
  rewrite (N.eqb_sym c_uminus c). now destruct (c =? c_uminus)%N.
Qed.

Lemma answer_candidate_ascii_minus s :
  answer_candidate (VStr (List.map ascii_minus s)) = answer_candidate (VStr s).
Proof.
  unfold answer_candidate. cbn [py_str].
  rewrite strip_ascii_minus.
  rewrite (@replace_ascii_minus [c_dollar] [])
    by (repeat constructor; discriminate).
  rewrite (@replace_ascii_minus (lit "\,") [])
    by (repeat constructor; discriminate).
  rewrite !replace_uminus, map_map.
  apply map_ext. intros c. apply ascii_minus_idem.
Qed.

(** X11. The minus sign U+2212 is read as the ASCII minus sign wherever it
    stands in an answer: replacing every U+2212 of a string by [-] does not
    change the result. *)
Theorem X11_unicode_minus_is_minus :
  forall s : str,
    sanitize_answer (VStr (List.map ascii_minus s)) = sanitize_answer (VStr s).
Proof.
  intros s. unfold sanitize_answer.
  now rewrite answer_candidate_ascii_minus.
Qed.

(** ** Dollar signs and whitespace around an answer *)

Lemma lstrip_padded (w x : str) :
  forallb is_space w = true ->
  match x with c :: _ => is_space c = false | [] => True end ->
  lstrip (w ++ x) = x.
Proof.
  intros Hw Hx. unfold lstrip.
  rewrite drop_while_app_all.
  - now apply drop_while_none.
  - apply drop_while_all. apply Forall_forall. now apply forallb_forall.
Qed.

Lemma rstrip_padded (x w : str) (d : char) :
  forallb is_space w = true -> is_space d = false ->
  rstrip ((x ++ [d]) ++ w) = x ++ [d].
Proof.
  intros Hw Hd. unfold rstrip. rewrite !rev_app_distr.
  rewrite drop_while_app_all.
  - cbn [rev app drop_while]. rewrite Hd.
    change (d :: rev x) with ([d] ++ rev x).
    now rewrite rev_app_distr, rev_involutive.
  - apply drop_while_all. apply Forall_rev, Forall_forall.
    now apply forallb_forall.
Qed.

Lemma remove_dollars_around (s : str) :
  replace [c_dollar] [] ([c_dollar] ++ s ++ [c_dollar]) = replace [c_dollar] [] s.
Proof.
  rewrite !replace_char, !flat_map_app. cbn [flat_map].
  rewrite N.eqb_refl. cbn [app]. now rewrite app_nil_r.
Qed.

Lemma dollars_around_answer (s w1 w2 : str) :
  strip s = s ->
  forallb is_space w1 = true -> forallb is_space w2 = true ->
  sanitize_answer (VStr (w1 ++ ([c_dollar] ++ s ++ [c_dollar]) ++ w2))
  = sanitize_answer (VStr s).
Proof.
  intros Hs H1 H2.
  assert (E : answer_candidate
                (VStr (w1 ++ ([c_dollar] ++ s ++ [c_dollar]) ++ w2))
              = answer_candidate (VStr s)).
  { unfold answer_candidate. cbn [py_str]. rewrite Hs.
    assert (Es : strip (w1 ++ ([c_dollar] ++ s ++ [c_dollar]) ++ w2)
                 = [c_dollar] ++ s ++ [c_dollar]).
    { unfold strip.
      replace (w1 ++ ([c_dollar] ++ s ++ [c_dollar]) ++ w2)
        with (((w1 ++ c_dollar :: s) ++ [c_dollar]) ++ w2)
        by (rewrite <- !app_assoc; reflexivity).
      rewrite (@rstrip_padded (w1 ++ c_dollar :: s) w2 c_dollar H2 eq_refl).
      rewrite <- app_assoc.
      now rewrite (@lstrip_padded w1 ((c_dollar :: s) ++ [c_dollar]) H1 eq_refl). }
    now rewrite Es, remove_dollars_around. }
  unfold sanitize_answer. now rewrite E.
Qed.

(** X18. A pair of dollar signs around an answer, and whitespace outside
    them, do not count: [$s$] is read as [s] is, for every string [s] that
    does not itself begin or end with whitespace.  This is the form in which
    the generators return their answers. *)
Theorem X18_dollars_around_answer :
  forall s w1 w2 : str,
    strip s = s ->
    forallb is_space w1 = true -> forallb is_space w2 = true ->
    sanitize_answer (VStr (w1 ++ ([c_dollar] ++ s ++ [c_dollar]) ++ w2))
    = sanitize_answer (VStr s).
Proof.
  intros s w1 w2. apply dollars_around_answer.
Qed.

Lemma X18_witness :
  strip (lit "19") = lit "19"
  /\ forallb is_space (lit " ") = true /\ forallb is_space [] = true
  /\ sanitize_answer (VStr (lit " $19$")) = sanitize_answer (VStr (lit "19")).
Proof.
  split; [reflexivity|]. split; [reflexivity|]. split; [reflexivity|].
  exact (@X18_dollars_around_answer (lit "19") (lit " ") [] eq_refl eq_refl eq_refl).
Defined.

(** ** The fraction rule *)

Lemma fraction_match_chars (s g1 g2 : str) :
  fullmatch_fraction s = Some (g1, g2) ->
  Forall (fun c => c = c_minus \/ is_digit c = true \/ is_space c = true
                   \/ c = c_slash) s.
Proof.
  intros Ef.
  destruct (fullmatch_fraction_sound _ Ef)
    as (neg & nd & w1 & w2 & Es & Eg & Hnd & Hg2 & Hw1 & Hw2).
  destruct (all_digits_forallb _ Hnd) as [Hnd' _].
  destruct (all_digits_forallb _ Hg2) as [Hg2' _].
  rewrite forallb_forall in Hnd', Hg2', Hw1, Hw2.
  apply Forall_forall. intros c Hc. rewrite Es, Eg in Hc.
  rewrite !in_app_iff in Hc.
  destruct Hc as [[H|H]|[H|[H|[H|H]]]].
  - left. destruct neg; cbn in H; [|destruct H].
    destruct H as [<-|[]]. reflexivity.
  - right. left. now apply Hnd'.
  - right. right. left. now apply Hw1.
  - right. right. right. destruct H as [<-|[]]. reflexivity.
  - right. right. left. now apply Hw2.
  - right. left. now apply Hg2'.
Qed.

(** A fraction text with a comma put anywhere in it is read by neither
    rule: the fraction pattern is tried on the string that still has its
    commas. *)
Lemma fraction_with_comma (neg : bool) (nd w1 w2 dd pre post : str) :
  all_digits nd = true -> all_digits dd = true ->
  forallb is_space w1 = true -> forallb is_space w2 = true ->
  (if neg then [c_minus] else []) ++ nd ++ w1 ++ [c_slash] ++ w2 ++ dd
  = pre ++ post ->
  sanitize_answer (VStr (pre ++ [c_comma] ++ post)) = Ok None.
Proof.
  intros Hnd Hdd Hw1 Hw2 Es.
  set (t := pre ++ [c_comma] ++ post).
  assert (L : forall k, k <> c_minus -> is_digit k = false ->
                is_space k = false -> k <> c_slash -> k <> c_comma ->
                Forall (fun c => (k =? c)%N = false) t).
  { intros k K1 K2 K3 K4 K5.
    assert (F : Forall (fun c => (k =? c)%N = false) (pre ++ post)).
    { rewrite <- Es.
      exact (@fraction_lacks neg nd w1 w2 dd Hnd Hdd Hw1 Hw2 k K1 K2 K3 K4). }
    apply Forall_app in F as [Fp Fq].
    unfold t. repeat (apply Forall_app; split); try assumption.
    constructor; [now apply N.eqb_neq|constructor]. }
  assert (Hhead : match t with c :: _ => is_space c = false | [] => True end).
  { unfold t. destruct pre as [|c pre]; [reflexivity|].
    assert (F : match (c :: pre) ++ post with
                | c0 :: _ => is_space c0 = false
                | [] => True
                end).
    { rewrite <- Es. exact (@fraction_head_not_space neg nd w1 w2 dd Hnd). }
    exact F. }
  assert (Hlast : exists p x, t = p ++ [x] /\ is_space x = false).
  { destruct (all_digits_forallb _ Hdd) as [Hd' Hdne].
    destruct (exists_last Hdne) as (d0 & y & Ed).
    assert (Hy : is_space y = false).
    { apply digit_not_space. rewrite forallb_forall in Hd'. apply Hd'.
      rewrite Ed. apply in_or_app. right. now left. }
    destruct post as [|c post'] using rev_ind.
    - exists pre, c_comma. split; [|reflexivity].
      unfold t. now rewrite app_nil_r.
    - clear IHpost'. exists (pre ++ [c_comma] ++ post'), c. split.
      + unfold t. now rewrite <- !app_assoc.
      + assert (E : (pre ++ post') ++ [c]
                    = ((if neg then [c_minus] else []) ++ nd ++ w1 ++ [c_slash]
                       ++ w2 ++ d0) ++ [y]).
        { rewrite <- app_assoc, <- Es, Ed. now rewrite <- !app_assoc. }
        apply app_inj_tail in E as [_ ->]. exact Hy. }
  assert (Estrip : strip t = t).
  { destruct Hlast as (p & x & Et & Hx). unfold strip.
    rewrite Et, (@rstrip_id p x Hx), <- Et. now apply lstrip_id. }
  assert (Ecand : answer_candidate (VStr t) = t).
  { unfold answer_candidate. cbn [py_str]. rewrite Estrip.
    rewrite (@replace_absent c_dollar []) by (apply L; easy).
    change (lit "\,") with (c_backslash :: lit ",").
    rewrite (@replace_absent c_backslash (lit ",")) by (apply L; easy).
    apply replace_absent, L; easy. }
  assert (Eplain : replace [c_comma] [] t = pre ++ post).
  { assert (F : replace [c_comma] [] (pre ++ post) = pre ++ post).
    { rewrite <- Es.
      exact (@fraction_no_comma neg nd w1 w2 dd Hnd Hdd Hw1 Hw2). }
    rewrite replace_char in F. rewrite replace_char. unfold t.
    rewrite flat_map_app in F. rewrite !flat_map_app.
    cbn [flat_map]. rewrite N.eqb_refl. cbn [app]. exact F. }
  assert (Efrac : fullmatch_fraction t = None).
  { destruct (fullmatch_fraction t) as [[g1 g2]|] eqn:Ef; [|reflexivity].
    exfalso. pose proof (fraction_match_chars _ Ef) as F.
    rewrite Forall_forall in F.
    destruct (F c_comma) as [H|[H|[H|H]]]; try discriminate H.
    unfold t. apply in_or_app. right. now left. }
  assert (Enot : fullmatch_plain (pre ++ post) = false).
  { rewrite <- Es. exact (@fraction_not_plain neg nd w1 w2 dd Hnd Hw1). }
  unfold sanitize_answer. fold t. now rewrite Ecand, Eplain, Efrac, Enot.
Qed.

(** C3, as the code has it.  On a string of the form integer slash integer
    (an optional minus sign on the numerator only, any whitespace around the
    slash) the plain-number rule does not apply, and [sanitize_answer] does
    what [int] and the true division of the two integers do: [int] raises
    [ValueError] on a numerator or denominator of more than 4300 digits;
    otherwise the result is [None] when the denominator is zero, the
    correctly rounded quotient when it is not, or an [OverflowError] when
    the quotient is too large for a float.  The pattern is matched before
    the commas are removed: the same string with a comma put anywhere in it
    is not read at all. *)
Theorem C3_fraction_rule :
  forall (neg : bool) (nd w1 w2 dd : str),
    all_digits nd = true -> all_digits dd = true ->
    forallb is_space w1 = true -> forallb is_space w2 = true ->
    let s := (if neg then [c_minus] else []) ++ nd ++ w1 ++ [c_slash] ++ w2 ++ dd in
    let num := if neg then (- value_of_digits (digit_values nd))%Z
               else value_of_digits (digit_values nd) in
    let den := value_of_digits (digit_values dd) in
    answer_candidate (VStr s) = s
    /\ fullmatch_plain (replace [c_comma] [] s) = false
    /\ sanitize_answer (VStr s)
       = (if ((max_str_digits <? List.length nd)
              || (max_str_digits <? List.length dd))%nat
          then Raise ValueError
          else if (den =? 0)%Z then Ok None
          else match round_ratio (num <? 0)%Z (Z.abs num) den with
               | S754_infinity _ => Raise OverflowError
               | x => Ok (Some x)
               end)
    /\ (forall pre post : str,
           s = pre ++ post ->
           sanitize_answer (VStr (pre ++ [c_comma] ++ post)) = Ok None).
Proof.
  intros neg nd w1 w2 dd Hnd Hdd Hw1 Hw2 s num den.
  split; [now apply fraction_candidate|].
  split; [unfold s; rewrite fraction_no_comma by assumption;
          now apply fraction_not_plain|].
  split.
  - unfold s. rewrite sanitize_answer_fraction by assumption.
    fold num den. cbv zeta.
    destruct ((max_str_digits <? List.length nd)
              || (max_str_digits <? List.length dd))%nat; [reflexivity|].
    destruct (Z.eqb_spec den 0) as [E|E]; [reflexivity|].
    unfold truediv. rewrite (proj2 (Z.eqb_neq den 0)) by assumption.
    assert (Hden : (0 <= den)%Z) by apply value_of_digits_nonneg.
    replace (den <? 0)%Z with false by (symmetry; apply Z.ltb_ge; lia).
    rewrite xorb_false_r, (Z.abs_eq den) by assumption.
    destruct (round_ratio (num <? 0)%Z (Z.abs num) den); reflexivity.
  - intros pre post Es.
    exact (@fraction_with_comma neg nd w1 w2 dd pre post Hnd Hdd Hw1 Hw2 Es).
Qed.

Lemma C3_witness :
  all_digits (lit "1000") = true /\ all_digits (lit "4") = true
  /\ forallb is_space (lit " ") = true /\ forallb is_space [] = true
  /\ answer_candidate (VStr (lit "-1000 /4")) = lit "-1000 /4"
  /\ fullmatch_plain (replace [c_comma] [] (lit "-1000 /4")) = false
  /\ sanitize_answer (VStr (lit "-1000 /4"))
     = Ok (Some (S754_finite true 8796093022208000 (-45)))
  /\ sanitize_answer (VStr (lit "-1,000 /4")) = Ok None.
Proof.
  pose proof (@C3_fraction_rule true (lit "1000") (lit " ") [] (lit "4")
                eq_refl eq_refl eq_refl eq_refl) as (E1 & E2 & E3 & E4).
  do 4 (split; [reflexivity|]).
  split; [exact E1|]. split; [exact E2|]. split; [exact E3|].
  exact (E4 (lit "-1") (lit "000 /4") eq_refl).
Defined.

(** C3 as stated fails: the quotient of [10 ^ 309] by [1] is too large for a
    float, and the true division raises instead of returning it; and a
    numerator of 4301 digits is not read by [int], whatever the
    denominator. *)
Lemma C3_counterexample :
  all_digits (lit "1" ++ repeat c_zero 309) = true
  /\ value_of_digits (digit_values (lit "1")) <> 0
  /\ sanitize_answer (VStr (lit "1" ++ repeat c_zero 309 ++ lit "/1"))
     = Raise OverflowError
  /\ all_digits (lit "1" ++ repeat c_zero 4300) = true
  /\ sanitize_answer (VStr (lit "1" ++ repeat c_zero 4300 ++ lit "/1"))
     = Raise ValueError.
Proof.
  split; [vm_compute; reflexivity|].
  split; [vm_compute; discriminate|].
  split; [vm_compute; reflexivity|].
  split; vm_compute; reflexivity.
Qed.

(** * Further properties of the runs *)

(** ** The prompt *)

(** A template without braces is its own formatting. *)
Lemma format_literal kwargs (t : str) :
  Forall (fun c => (c =? c_lbrace)%N = false /\ (c =? c_rbrace)%N = false) t ->
  py_format t kwargs = Some (Ok t).
Proof.
  intros H. unfold py_format.
  assert (G : forall n, (List.length t < n)%nat ->
                format_from n kwargs t = Some (Ok t)); [|apply G; lia].
  induction H as [|c t [H1 H2] _ IH]; intros [|n] Hn; cbn [List.length] in Hn;
    try lia; [reflexivity|].
  cbn [format_from]. rewrite H1, H2, IH by lia. reflexivity.
Qed.


(** ** Remote runs *)


Lemma for_each_raises {A} (body : state -> A -> outcome state) (x : A) xs :
  In x xs -> (forall st, exists e, body st x = Raise e) ->
  forall st, exists e, for_each body xs st = Raise e.
Proof.
  intros Hin Hx. induction xs as [|y xs IH]; intros st; [destruct Hin|].
  cbn [for_each]. destruct (body st y) as [st'|e] eqn:E.
  - destruct Hin as [->|Hin]; [|now apply IH].
    destruct (Hx st) as [e He]. congruence.
  - exists e. reflexivity.
Qed.

(** C2, at its failing input.  With a completion service whose reply is not
    JSON, [fetch_questions_openai("Addition", 5)] does not return the empty
    list: it raises [KeyError] while it formats the prompt, before the
    request and before the [try] whose handler returns the empty list; the
    handler, given the same reply, would return it.  The run does not go
    on to the other operations. *)
Theorem C2_failed_request_is_fatal :
  let service := fun _ : str => LoadsRaises ValueError in
  fetch_questions_openai service (lit "Addition") 5 = Raise KeyError
  /\ request (LoadsRaises ValueError) = Ok (JArr [])
  /\ generate_questions service no_func true 5 = Raise KeyError.
Proof.
  cbv zeta. split; [vm_compute; reflexivity|].
  split; vm_compute; reflexivity.
Qed.

(** ** Local runs *)

Section LocalRuns.

Variable func : str -> nat -> outcome (value * value).

Lemma local_step_item op st i :
  ~ interrupted func op i ->
  local_step func op st i
  = Ok {| all_questions := all_questions st ++ local_item func op i;
          skipped := skipped st + local_skip func op i |}.
Proof.
  intros Hi. unfold local_step, local_body, local_skip, local_item, interrupted in *.
  destruct (func op i) as [[t a]|e]; cbn [bind fst snd].
  - destruct (sanitize_answer a) as [[x|]|e] eqn:Ea; cbn [bind].
    + now rewrite Z.add_0_r.
    + now rewrite app_nil_r.
    + rewrite (sanitize_answer_raise_Exception _ Ea).
      now rewrite app_nil_r.
  - destruct (is_Exception e) eqn:Ee.
    + now rewrite app_nil_r.
    + exfalso. apply Hi. now exists e.
Qed.

Lemma for_each_items {A} (body : state -> A -> outcome state)
      (item : A -> list json) (skip : A -> Z) xs :
  (forall x, In x xs -> forall st,
      body st x = Ok {| all_questions := all_questions st ++ item x;
                        skipped := skipped st + skip x |}) ->
  forall st,
    for_each body xs st
    = Ok {| all_questions := all_questions st ++ flat_map item xs;
            skipped := skipped st + fold_right Z.add 0 (List.map skip xs) |}.
Proof.
  induction xs as [|x xs IH]; intros Hb st.
  - cbn. rewrite app_nil_r, Z.add_0_r. now destruct st.
  - cbn [for_each]. rewrite (Hb x (or_introl eq_refl)). cbn [bind].
    rewrite IH by (intros y Hy; apply Hb; now right).
    cbn [all_questions skipped flat_map List.map fold_right].
    rewrite app_assoc, Z.add_assoc. reflexivity.
Qed.

Lemma local_run_items per_op :
  (forall op i, In op operations -> (i < Z.to_nat per_op)%nat ->
                ~ interrupted func op i) ->
  exists k,
    local_run func per_op
    = Ok {| all_questions :=
              flat_map (fun op => flat_map (local_item func op)
                                    (seq 0 (Z.to_nat per_op))) operations;
            skipped := k |}.
Proof.
  intros H. unfold local_run. eexists.
  rewrite (@for_each_items str _
             (fun op => flat_map (local_item func op) (seq 0 (Z.to_nat per_op)))
             (fun op => fold_right Z.add 0
                          (List.map (local_skip func op) (seq 0 (Z.to_nat per_op))))).
  - cbn [all_questions skipped app]. reflexivity.
  - intros op Hop st. apply for_each_items.
    intros i Hi st'. apply local_step_item, H; [exact Hop|].
    apply in_seq in Hi. lia.
Qed.

Lemma for_each_count {A} (M : state -> Z) (w : Z)
      (body : state -> A -> outcome state) xs :
  (forall st x st', body st x = Ok st' ->
                    M st' = M st + w /\ skipped st <= skipped st') ->
  forall st st', for_each body xs st = Ok st' ->
    M st' = M st + w * Z.of_nat (List.length xs) /\ skipped st <= skipped st'.
Proof.
  intros Hb. induction xs as [|x xs IH]; intros st st' E.
  - cbn in E. injection E as <-. cbn [List.length]. lia.
  - cbn [for_each] in E. destruct (body st x) as [st1|e] eqn:E1; [|discriminate E].
    cbn [bind] in E. destruct (Hb _ _ _ E1) as [H1 H2].
    destruct (IH _ _ E) as [H3 H4]. cbn [List.length]. lia.
Qed.

Lemma local_step_count op st i st' :
  local_step func op st i = Ok st' ->
  calls st' = calls st + 1 /\ skipped st <= skipped st'.
Proof.
  unfold local_step, local_body, calls.
  destruct (func op i) as [[t a]|e]; cbn [bind fst snd].
  - destruct (sanitize_answer a) as [[x|]|e]; cbn [bind].
    + intros [= <-]. cbn [all_questions skipped].
      rewrite length_app. cbn [List.length]. lia.
    + intros [= <-]. cbn [all_questions skipped]. lia.
    + destruct (is_Exception e); [|discriminate].
      intros [= <-]. cbn [all_questions skipped]. lia.
  - destruct (is_Exception e); [|discriminate].
    intros [= <-]. cbn [all_questions skipped]. lia.
Qed.

Lemma local_run_count per_op st :
  local_run func per_op = Ok st ->
  calls st = 4 * Z.max per_op 0 /\ 0 <= skipped st.
Proof.
  unfold local_run. intros E.
  apply (@for_each_count str calls (Z.max per_op 0)) in E.
  - change (calls {| all_questions := []; skipped := 0 |}) with 0 in E.
    change (Z.of_nat (List.length operations)) with 4 in E.
    cbn [skipped] in E. lia.
  - clear. intros st op st' E.
    apply (@for_each_count nat calls 1 (local_step func op)) in E.
    + rewrite length_seq in E. lia.
    + intros st0 i st1. apply local_step_count.
Qed.

Lemma local_step_interrupted op i st :
  interrupted func op i -> exists e, local_step func op st i = Raise e.
Proof.
  intros (e & E & He). exists e. unfold local_step, local_body.
  rewrite E. cbn [bind]. now rewrite He.
Qed.

End LocalRuns.

Lemma generate_questions_local service func per_op :
  generate_questions service func false per_op
  = st <- local_run func per_op ;; Ok (all_questions st).
Proof. reflexivity. Qed.

(** X15. In local mode, when no call of a generator raises anything outside
    [Exception], the run returns, and its output is exactly the records of
    the calls that succeeded, in the order of the calls: operation by
    operation, [per_op] calls each, a call contributing one record when it
    returns and its answer is read, and nothing when it raises or its answer
    is not read. *)
Theorem X15_local_run_output :
  forall service func per_op,
    (forall op i, In op operations -> (i < Z.to_nat per_op)%nat ->
                  ~ interrupted func op i) ->
    generate_questions service func false per_op
    = Ok (flat_map (fun op => flat_map (local_item func op)
                                (seq 0 (Z.to_nat per_op))) operations).
Proof.
  intros service func per_op H.
  rewrite generate_questions_local.
  destruct (@local_run_items func per_op H) as [k ->]. reflexivity.
Qed.

Lemma X15_witness :
  let func := fun (op : str) (i : nat) =>
                match i with
                | O => Ok (VStr (lit "$12+7=$"), VStr (lit "$19$"))
                | 1%nat => Ok (VStr (lit "How many?"), VStr (lit "many"))
                | _ => Raise ValueError
                end in
  let r := fun op => record (lit "12 + 7") op
                       (S754_finite false 5348024557502464 (-48)) in
  (forall op i, In op operations -> (i < Z.to_nat 3)%nat ->
                ~ interrupted func op i)
  /\ generate_questions (fun _ => null_answer_reply) func false 3
     = Ok [r (lit "Addition"); r (lit "Substraction");
           r (lit "Multiplication"); r (lit "Division")].
Proof.
  intros func r.
  assert (H : forall op i, In op operations -> (i < Z.to_nat 3)%nat ->
                           ~ interrupted func op i).
  { intros op i _ _ (e & E & He). unfold func in E.
    destruct i as [|[|i]]; try discriminate E.
    injection E as <-. discriminate He. }
  split; [exact H|].
  rewrite (@X15_local_run_output (fun _ => null_answer_reply) func 3 H).
  vm_compute. reflexivity.
Defined.

(** X16. Every call of a generator is accounted for.  When a local run
    returns, the records of its output and the calls it skipped add up to
    the [4 * per_op] calls made (none for a negative [per_op]); so the output
    never holds more than [4 * per_op] records. *)
Theorem X16_every_call_is_accounted_for :
  forall service func per_op qs,
    generate_questions service func false per_op = Ok qs ->
    exists st,
      local_run func per_op = Ok st
      /\ all_questions st = qs
      /\ 0 <= skipped st
      /\ Z.of_nat (List.length qs) + skipped st = 4 * Z.max per_op 0.
Proof.
  intros service func per_op qs E. rewrite generate_questions_local in E.
  destruct (local_run func per_op) as [st|e] eqn:Er; [|discriminate E].
  cbn [bind] in E. injection E as <-.
  destruct (local_run_count _ _ Er) as [Hc Hs].
  exists st. split; [reflexivity|]. split; [reflexivity|].
  split; [exact Hs|exact Hc].
Qed.

Lemma X16_witness :
  let func := fun (op : str) (i : nat) =>
                match i with
                | O => Ok (VStr (lit "$12+7=$"), VStr (lit "$19$"))
                | _ => Raise ValueError
                end in
  exists qs st,
    generate_questions (fun _ => null_answer_reply) func false 3 = Ok qs
    /\ local_run func 3 = Ok st
    /\ all_questions st = qs
    /\ 0 <= skipped st
    /\ Z.of_nat (List.length qs) + skipped st = 4 * Z.max 3 0.
Proof.
  intros func.
  destruct (generate_questions (fun _ => null_answer_reply) func false 3)
    as [qs|e] eqn:E; [|vm_compute in E; discriminate E].
  destruct (@X16_every_call_is_accounted_for
              (fun _ => null_answer_reply) func 3 qs E) as (st & H).
  exists qs, st. split; [reflexivity|exact H].
Defined.

(** X17. An exception outside [Exception], such as [KeyboardInterrupt], is
    not swallowed: if any call of a generator made by a local run raises
    one, the run delivers no output and ends with an exception of that
    kind. *)
Theorem X17_interrupt_is_not_swallowed :
  forall service func per_op op i,
    In op operations -> (i < Z.to_nat per_op)%nat ->
    interrupted func op i ->
    exists e, generate_questions service func false per_op = Raise e
              /\ is_Exception e = false.
Proof.
  intros service func per_op op i Hop Hi Hint.
  assert (Hr : exists e, local_run func per_op = Raise e).
  { unfold local_run. apply for_each_raises with (x := op); [exact Hop|].
    intros st. apply for_each_raises with (x := i).
    - apply in_seq. lia.
    - intros st'. now apply local_step_interrupted. }
  destruct Hr as [e He]. exists e.
  pose proof (local_mode_floats service func per_op) as Hm.
  rewrite generate_questions_local in Hm |- *. rewrite He in Hm |- *.
  split; [reflexivity|exact Hm].
Qed.

Lemma X17_witness :
  let func := fun (op : str) (i : nat) =>
                if str_eqb op (lit "Division")
                then Raise (NonException "KeyboardInterrupt")
                else Ok (VStr (lit "$12+7=$"), VStr (lit "$19$")) in
  In (lit "Division") operations /\ (0 < Z.to_nat 2)%nat
  /\ interrupted func (lit "Division") 0
  /\ exists e, generate_questions (fun _ => null_answer_reply) func false 2
               = Raise e
               /\ is_Exception e = false.
Proof.
  intros func.
  assert (H1 : In (lit "Division") operations) by (vm_compute; tauto).
  assert (H2 : (0 < Z.to_nat 2)%nat) by (vm_compute; lia).
  assert (H3 : interrupted func (lit "Division") 0)
    by (exists (NonException "KeyboardInterrupt"); split; reflexivity).
  split; [exact H1|]. split; [exact H2|]. split; [exact H3|].
  exact (@X17_interrupt_is_not_swallowed (fun _ => null_answer_reply) func 2
           (lit "Division") 0%nat H1 H2 H3).
Defined.

(** ** Runs on well-formed exercises *)

Lemma answer_text_read (neg : bool) (ds : str) :
  all_digits ds = true ->
  sanitize_answer (answer_text neg ds)
  = Ok (Some (round_ratio neg (value_of_digits (digit_values ds)) 1)).
Proof.
  intros Hd. unfold answer_text.
  set (sign := if neg then [c_minus] else []).
  assert (Hs : is_sign sign) by (unfold sign, is_sign; destruct neg; tauto).
  pose proof (@plain_number_chars sign ds [] Hs Hd (or_introl eq_refl)) as Hc.
  cbn [fraction_text] in Hc. rewrite app_nil_r in Hc.
  pose proof (@dollars_around_answer (sign ++ ds) [] []) as E.
  cbn [app] in E. rewrite app_nil_r in E. cbn [app]. rewrite E; try reflexivity.
  - pose proof (@plain_number_answer sign ds [] Hs Hd (or_introl eq_refl)) as P.
    cbn [fraction_text List.length Z.of_nat] in P.
    rewrite !app_nil_r in P. change (10 ^ 0) with 1 in P.
    replace (str_eqb sign [c_minus]) with neg in P
      by (unfold sign; now destruct neg).
    exact P.
  - apply strip_no_space. eapply Forall_impl; [|exact Hc].
    intros c [H|H]; [now apply digit_not_space|].
    cbn in H. repeat (destruct H as [<-|H]; [reflexivity|]). destruct H.
Qed.

Lemma flat_map_singleton {A B} (f : A -> B) (g : A -> list B) xs :
  (forall x, In x xs -> g x = [f x]) -> flat_map g xs = List.map f xs.
Proof.
  induction xs as [|x xs IH]; intros H; [reflexivity|].
  cbn [flat_map List.map]. rewrite (H x (or_introl eq_refl)), IH; [reflexivity|].
  intros y Hy. apply H. now right.
Qed.

(** X19. On well-formed input nothing is lost.  When every call of a
    generator returns an exercise [$a+b=$] and an integer answer [$n$] in the
    generators' form, a local run returns one record for each of the
    [4 * per_op] calls, in call order: the text spelled out as [a + b], the
    operation asked for, and the float nearest to [n] as answer. *)
Theorem X19_well_formed_exercises :
  forall service per_op
         (o : str -> nat -> operator) (a b : str -> nat -> str)
         (neg : str -> nat -> bool) (ds : str -> nat -> str),
    (forall op i, operand (a op i) /\ operand (b op i)
                  /\ all_digits (ds op i) = true) ->
    generate_questions service
      (fun op i => Ok (exercise_text (o op i) (a op i) (b op i),
                       answer_text (neg op i) (ds op i)))
      false per_op
    = Ok (flat_map
            (fun op =>
               List.map (fun i => exercise_record op (o op i) (a op i) (b op i)
                                    (neg op i) (ds op i))
                 (seq 0 (Z.to_nat per_op)))
            operations).
Proof.
  intros service per_op o a b neg ds H.
  set (func := fun op i => Ok (exercise_text (o op i) (a op i) (b op i),
                               answer_text (neg op i) (ds op i))).
  rewrite generate_questions_local.
  destruct (@local_run_items func per_op) as [k ->].
  { intros op i _ _ (e & E & _). discriminate E. }
  cbn [bind all_questions]. f_equal.
  apply flat_map_ext. intros op. apply flat_map_singleton. intros i _.
  destruct (H op i) as (Ha & Hb & Hd).
  unfold local_item, func.
  rewrite (@answer_text_read (neg op i) (ds op i) Hd).
  unfold exercise_text.
  rewrite (@exercise_spelled_out (o op i) (a op i) (b op i) Ha Hb). reflexivity.
Qed.

Lemma X19_witness :
  (forall (op : str) (i : nat),
      operand (lit "12") /\ operand (lit "7") /\ all_digits (lit "84") = true)
  /\ generate_questions (fun _ => null_answer_reply)
       (fun _ _ => Ok (VStr (lit "$12\times7=$"), VStr (lit "$84$"))) false 1
     = Ok (List.map
             (fun op => record (lit "12 " ++ [c_times] ++ lit " 7") op
                          (S754_finite false 5910974510923776 (-46)))
             operations).
Proof.
  assert (H : forall (op : str) (i : nat),
             operand (lit "12") /\ operand (lit "7")
             /\ all_digits (lit "84") = true).
  { intros _ _. repeat split; discriminate. }
  split; [exact H|].
  exact (@X19_well_formed_exercises (fun _ => null_answer_reply) 1
           (fun _ _ => Times) (fun _ _ => lit "12") (fun _ _ => lit "7")
           (fun _ _ => false) (fun _ _ => lit "84") H).
Defined.

(** ** Records and their answers *)




